(** * Mandala storage engine: refs, calls, memoization and garbage collection

    A shallow embedding of [mandala/_next/storage.py] (class [Storage]) and
    the properties its specification states about it.

    Python objects are embedded as the inductive [value]; the two [Ref]
    classes are constructors of [Ref]; the four tables of the storage are
    finite maps with a write-back cache in front of them; methods that read
    or write the storage, raise, or run an op are computations in the state
    and exception monad [M]. *)

From Stdlib Require Import ZArith Ascii.
From stdpp Require Import base option list strings pretty gmap fin_maps fin_sets.

Local Open Scope string_scope.
Local Open Scope list_scope.

(** ** Values, refs and types *)

(** Modelled from the spec: the type declarations of op inputs and outputs,
    [model.Type], atomic ([AtomType()]) or ordered sequence
    ([ListType(elt)]), as [storage.py] tests them with [isinstance]. *)
Inductive Tp : Type :=
| AtomType
| ListType (elt : Tp).

(** Modelled from the spec: the refs of [model]: an [AtomRef] and a
    [ListRef] have a content id [cid], a history id [hid], the flag
    [in_memory] and the payload [obj]; an [AtomRef] carries any object, a
    [ListRef] the list of its element refs.  Python objects are told apart
    as far as the storage does: [None], leaf payloads, lists, and refs. *)
#[local] Unset Elimination Schemes.
Inductive value : Type :=
| VNone
| VInt (z : Z)
| VStr (s : string)
| VList (l : list value)
| VRef (r : Ref)
with Ref : Type :=
| AtomRef (cid hid : string) (in_memory : bool) (obj : value)
| ListRef (cid hid : string) (in_memory : bool) (obj : list Ref).
#[local] Set Elimination Schemes.

Definition cid (r : Ref) : string :=
  match r with AtomRef c _ _ _ | ListRef c _ _ _ => c end.

Definition hid (r : Ref) : string :=
  match r with AtomRef _ h _ _ | ListRef _ h _ _ => h end.

Definition in_memory (r : Ref) : bool :=
  match r with AtomRef _ _ m _ | ListRef _ _ m _ => m end.

(** [ref.obj], as a Python object. *)
Definition obj (r : Ref) : value :=
  match r with
  | AtomRef _ _ _ o => o
  | ListRef _ _ _ l => VList (VRef <$> l)
  end.

Definition is_atom (r : Ref) : bool :=
  match r with AtomRef _ _ _ _ => true | ListRef _ _ _ _ => false end.

(** The refs among the elements of a Python list. *)
Definition refs_of (o : value) : list Ref :=
  match o with
  | VList l => omap (λ v, match v with VRef r => Some r | _ => None end) l
  | _ => []
  end.

(** Modelled from the spec: the methods of [model.Ref] ([with_hid],
    [detached], [shallow_copy], [ListRef.shape]), which live in the module
    [model], outside [storage.py].  A detached ref keeps [cid] and [hid]
    only; the shape of a list ref is detached and carries the shapes of its
    elements, recursively. *)
Definition with_hid (r : Ref) (h : string) : Ref :=
  match r with
  | AtomRef c _ m o => AtomRef c h m o
  | ListRef c _ m l => ListRef c h m l
  end.

Definition shallow_copy (r : Ref) : Ref := r.

Fixpoint shape (r : Ref) : Ref :=
  match r with
  | AtomRef c h _ _ => AtomRef c h false VNone
  | ListRef c h _ l => ListRef c h false (shape <$> l)
  end.

Definition detached (r : Ref) : Ref := shape r.

(** Nesting depth of a ref, and all the refs it is made of. *)
Fixpoint ref_depth (r : Ref) : nat :=
  match r with
  | AtomRef _ _ _ _ => 0
  | ListRef _ _ _ l => S (foldr (λ e acc, ref_depth e `max` acc) 0 l)
  end.

Fixpoint nodes (r : Ref) : list Ref :=
  r :: match r with
       | AtomRef _ _ _ _ => []
       | ListRef _ _ _ l => mjoin (nodes <$> l)
       end.

(** Every atom inside a ref is without payload. *)
Fixpoint payload_free (r : Ref) : bool :=
  match r with
  | AtomRef _ _ m o => negb m && match o with VNone => true | _ => false end
  | ListRef _ _ _ l => forallb payload_free l
  end.

(** ** Exceptions *)

Inductive Exc : Type :=
| KeyError (key : string)
| NotImplementedError (msg : string)
| SideEffects (fname : string) (changed_inputs : list string)
| AssertionError
| TypeError
| IndexError
| RecursionError.

(** The [ValueError] of [call_internal] ("Function ... has side effects on
    inputs ...; aborting call.") is [SideEffects]; the queries raise
    [NotImplementedError] with this message inside a context. *)
Definition in_context_msg : string := "Method not supported while in a context.".

(** ** Ops and calls *)

(** Modelled from the spec: [model.Op], a named, versioned function, and
    [model.Call].  A structural op is applied to the wrapped inputs; a user
    op is applied to the raw values and may change them in place.  The
    returns are given by name, each with the type of its annotation
    ([parse_returns] yields the returns and the annotations under the same
    names).  The second component of a user function's result is the raw
    inputs as they are after the call. *)
Definition Returns : Type := list (string * (value * Tp)).

Inductive OpFun : Type :=
| Structural (run : list (string * Ref) → Exc + Returns)
| User (run : list (string * value) → Returns * list (string * value)).

Record Op : Type := mkOp {
  name : string;
  version : Z;
  f : option OpFun
}.

(** [op.__structural__] *)
Definition structural (op : Op) : bool :=
  match f op with Some (Structural _) => true | _ => false end.

(** [op.detached()]: the descriptor kept in the [ops] table. *)
Definition detached_op (op : Op) : Op :=
  mkOp (name op) (version op) None.

Record Call : Type := mkCall {
  call_op : Op;
  call_cid : string;
  call_hid : string;
  inputs : list (string * Ref);
  outputs : list (string * Ref)
}.

(** Dictionaries with string keys are association lists in insertion order. *)
Definition dict_get {A} (d : list (string * A)) (k : string) : option A :=
  snd <$> find (λ kv, bool_decide (kv.1 = k)) d.

Definition hids_of (d : list (string * Ref)) : list (string * string) :=
  (λ kv, (kv.1, hid kv.2)) <$> d.

Definition cids_of (d : list (string * Ref)) : list (string * string) :=
  (λ kv, (kv.1, cid kv.2)) <$> d.

(** ** External capabilities *)

(** Modelled from the spec: serialization and hashing are external
    ([serialize], [deserialize], [get_content_hash] and the hashes behind
    the id methods of [model.Op]); they are taken as parameters.
    [default_hid] is the history id [wrap_atom] gives a raw value that no
    call produced; [list_cid] is the content id of a list, from the content
    ids of its elements.  [recursion_limit] is the depth at which the
    interpreter raises [RecursionError]: [load_ref] follows history ids
    through the [shapes] table and is bounded by nothing else.
    [attached_list_flag] is the flag [in_memory] that [Ref.attached] gives a
    list ref: the spec gives the flag to atoms only and says nothing of it
    for a list. *)
Class Adapters : Type := {
  serialize : value → string;
  deserialize : string → value;
  get_content_hash : value → string;
  default_hid : value → string;
  list_cid : list string → string;
  call_history_hash : string → Z → list (string * string) → string;
  call_content_hash : string → Z → list (string * string) → string;
  output_history_hash : string → string → string;
  recursion_limit : nat;
  attached_list_flag : bool
}.

(** Modelled from the spec: [Ref.attached] of [model], the ref with a
    payload in place of its own.  An attached atom is in memory with its
    value; an attached list ref carries the element refs. *)
Definition attached `{!Adapters} (r : Ref) (o : value) : Ref :=
  match r with
  | AtomRef c h _ _ => AtomRef c h true o
  | ListRef c h _ _ => ListRef c h attached_list_flag (refs_of o)
  end.

(** ** Tables *)

(** Modelled from the spec: [storage_utils.CachedDictStorage], a write-back
    cache in front of a durable table.  [get] falls through to the durable
    table and fills the cache; [set] writes the cache and marks the key
    dirty; [exists] looks in both; [drop] removes from both; [commit]
    flushes the dirty entries. *)
Record CachedDictStorage (V : Type) : Type := mkCached {
  cache : gmap string V;
  dirty_keys : gset string;
  persistent : gmap string V
}.
Arguments mkCached {V} _ _ _.
Arguments cache {V} _.
Arguments dirty_keys {V} _.
Arguments persistent {V} _.

Module Cached.
Section Ops.
Context {V : Type}.
Implicit Types (d : CachedDictStorage V) (k : string).

(** What a reader of the table sees: the cache, then the durable table. *)
Definition view d k : option V :=
  match cache d !! k with
  | Some v => Some v
  | None => persistent d !! k
  end.

Definition get d k : option V * CachedDictStorage V :=
  match cache d !! k with
  | Some v => (Some v, d)
  | None =>
      match persistent d !! k with
      | Some v => (Some v, mkCached (<[k:=v]> (cache d)) (dirty_keys d) (persistent d))
      | None => (None, d)
      end
  end.

Definition set d k (v : V) : CachedDictStorage V :=
  mkCached (<[k:=v]> (cache d)) ({[k]} ∪ dirty_keys d) (persistent d).

Definition exists_ d k : bool :=
  match cache d !! k with
  | Some _ => true
  | None => match persistent d !! k with Some _ => true | None => false end
  end.

Definition drop d k : CachedDictStorage V :=
  mkCached (delete k (cache d)) (dirty_keys d) (delete k (persistent d)).

Definition commit d : CachedDictStorage V :=
  mkCached (cache d) ∅
    (set_fold (λ k p, match cache d !! k with Some v => <[k:=v]> p | None => p end)
              (persistent d) (dirty_keys d)).

Definition empty : CachedDictStorage V := mkCached ∅ ∅ ∅.
End Ops.
End Cached.

(** Modelled from the spec: a row of the call ledger,
    [hid -> {cid, op_name, input hids (by name), output hids (by name)}];
    each ref is recorded with its history id and its content id (the columns
    [ref_history_id] and [ref_content_id] of [get_df]). *)
Record CallData : Type := mkCallData {
  cd_op_name : string;
  cd_cid : string;
  cd_hid : string;
  cd_inputs : list (string * (string * string));
  cd_outputs : list (string * (string * string))
}.

Definition input_hids (cd : CallData) : list (string * string) :=
  (λ kv, (kv.1, kv.2.1)) <$> cd_inputs cd.

Definition output_hids (cd : CallData) : list (string * string) :=
  (λ kv, (kv.1, kv.2.1)) <$> cd_outputs cd.

Definition call_data (c : Call) : CallData :=
  mkCallData (name (call_op c)) (call_cid c) (call_hid c)
    ((λ kv, (kv.1, (hid kv.2, cid kv.2))) <$> inputs c)
    ((λ kv, (kv.1, (hid kv.2, cid kv.2))) <$> outputs c).

(** The storage: [self.calls] is the cached call storage ([call_cache] in
    front of [call_storage]); [atoms], [shapes] and [ops] are cached
    dictionaries. *)
Record Storage : Type := mkStorage {
  call_cache : gmap string CallData;
  call_dirty : gset string;
  call_storage : gmap string CallData;
  atoms : CachedDictStorage string;
  shapes : CachedDictStorage Ref;
  ops : CachedDictStorage Op
}.

(** The state a method runs in: the storage, the global
    [Context.current_context] (set by [__enter__], cleared by [__exit__]),
    and the log of the op functions that have been run (op name and history
    id of the call), kept to count invocations. *)
Record World : Type := mkWorld {
  storage : Storage;
  current_context : option unit;
  invoked : list (string * string)
}.

Definition empty_storage : Storage :=
  mkStorage ∅ ∅ ∅ Cached.empty Cached.empty Cached.empty.

Definition empty_world : World := mkWorld empty_storage None [].

(** ** The monad of storage methods *)

Definition M (A : Type) : Type := World → (Exc + A) * World.

Definition raise {A} (e : Exc) : M A := λ w, (inl e, w).

#[global] Instance M_ret : MRet M := λ A x w, (inr x, w).

#[global] Instance M_bind : MBind M := λ A B k m w,
  match m w with
  | (inl e, w') => (inl e, w')
  | (inr x, w') => k x w'
  end.

(** Reading and replacing the storage of the world. *)
Definition get_storage : M Storage := λ w, (inr (storage w), w).

Definition put_storage (s : Storage) : M unit :=
  λ w, (inr (), mkWorld s (current_context w) (invoked w)).

Definition set_atoms (d : CachedDictStorage string) (s : Storage) : Storage :=
  mkStorage (call_cache s) (call_dirty s) (call_storage s) d (shapes s) (ops s).

Definition set_shapes (d : CachedDictStorage Ref) (s : Storage) : Storage :=
  mkStorage (call_cache s) (call_dirty s) (call_storage s) (atoms s) d (ops s).

Definition set_ops (d : CachedDictStorage Op) (s : Storage) : Storage :=
  mkStorage (call_cache s) (call_dirty s) (call_storage s) (atoms s) (shapes s) d.

Definition set_calls (c : gmap string CallData) (dk : gset string)
    (p : gmap string CallData) (s : Storage) : Storage :=
  mkStorage c dk p (atoms s) (shapes s) (ops s).

(** [table[key]] on a cached dictionary: [KeyError] when the key is in
    neither the cache nor the durable table. *)
Definition table_get {V} (tbl : Storage → CachedDictStorage V)
    (upd : CachedDictStorage V → Storage → Storage) (k : string) : M V :=
  s ← get_storage;
  match Cached.get (tbl s) k with
  | (Some v, d) => put_storage (upd d s);; mret v
  | (None, _) => raise (KeyError k)
  end.

(** [table[key] = v] *)
Definition table_set {V} (tbl : Storage → CachedDictStorage V)
    (upd : CachedDictStorage V → Storage → Storage) (k : string) (v : V) : M unit :=
  s ← get_storage;
  put_storage (upd (Cached.set (tbl s) k v) s).

(** [key in table], [table.exists(key)] *)
Definition table_exists {V} (tbl : Storage → CachedDictStorage V) (k : string) : M bool :=
  s ← get_storage;
  mret (Cached.exists_ (tbl s) k).

(** [table.drop(key)] *)
Definition table_drop {V} (tbl : Storage → CachedDictStorage V)
    (upd : CachedDictStorage V → Storage → Storage) (k : string) : M unit :=
  s ← get_storage;
  put_storage (upd (Cached.drop (tbl s) k) s).

(** Running the function of an op is recorded in the log. *)
Definition log_invocation (op_name call_hid : string) : M unit :=
  λ w, (inr (), mkWorld (storage w) (current_context w) (invoked w ++ [(op_name, call_hid)])).

(** ** The call storage *)

(** Modelled from the spec: [storage_utils.CachedCallStorage] (a cache of
    call rows in front of the durable call table) and the queries of the
    durable call table that [storage.py] uses.  The rows of
    [call_storage.get_df()] are one per input or output of a durable call,
    as ([ref_history_id], [ref_content_id]). *)
Definition get_df (cs : gmap string CallData) : list (string * string) :=
  mjoin ((λ kc, snd <$> (cd_inputs kc.2 ++ cd_outputs kc.2)) <$> map_to_list cs).

Definition hids_in_calls (cs : gmap string CallData) : gset string :=
  list_to_set (fst <$> get_df cs).

Definition cids_in_calls (cs : gmap string CallData) : gset string :=
  list_to_set (snd <$> get_df cs).

(** [call_storage.exists_ref_hid(hid)] *)
Definition exists_ref_hid (cs : gmap string CallData) (h : string) : bool :=
  bool_decide (h ∈ hids_in_calls cs).

(** [call_storage.get_creator_hids(ref_hids)]: the durable calls with one of
    the refs among their outputs; [get_consumer_hids]: among their inputs. *)
Definition get_creator_hids (cs : gmap string CallData) (ref_hids : list string) : list string :=
  fst <$> filter (λ kc, existsb (λ h, bool_decide (h ∈ snd <$> output_hids kc.2)) ref_hids = true)
                 (map_to_list cs).

Definition get_consumer_hids (cs : gmap string CallData) (ref_hids : list string) : list string :=
  fst <$> filter (λ kc, existsb (λ h, bool_decide (h ∈ snd <$> input_hids kc.2)) ref_hids = true)
                 (map_to_list cs).

(** [self.calls.exists(hid)]: in the cache or in the durable table. *)
Definition calls_exists (s : Storage) (h : string) : bool :=
  match call_cache s !! h with
  | Some _ => true
  | None => match call_storage s !! h with Some _ => true | None => false end
  end.

(** [self.calls.save(call)]: into the cache, marked dirty. *)
Definition calls_save (c : Call) : M unit :=
  s ← get_storage;
  put_storage (set_calls (<[call_hid c := call_data c]> (call_cache s))
                         ({[call_hid c]} ∪ call_dirty s) (call_storage s) s).

(** [self.calls.commit(conn)] *)
Definition calls_commit (s : Storage) : Storage :=
  set_calls (call_cache s) ∅
    (set_fold (λ k p, match call_cache s !! k with Some v => <[k:=v]> p | None => p end)
              (call_storage s) (call_dirty s)) s.

(** ** The storage engine *)

Section Engine.
Context `{!Adapters}.

(** [Storage.in_context] *)
Definition in_context : M bool :=
  λ w, (inr (bool_decide (current_context w ≠ None)), w).

(** *** Refs interface *)

(** [Storage.save_ref] *)
Fixpoint save_ref (ref : Ref) : M unit :=
  known ← table_exists shapes (hid ref);
  if (known : bool) then mret ()
  else
    match ref with
    | AtomRef c h _ o =>
        table_set atoms set_atoms c (serialize o);;
        table_set shapes set_shapes h (detached ref)
    | ListRef c h _ l =>
        table_set shapes set_shapes h (shape ref);;
        mapM save_ref l;;
        mret ()
    end.

(** [Storage.load_ref]; [depth] is what is left of the recursion limit.
    For a list shape the loaded elements are collected in a local list, and
    the ref returned is the shape attached to its own [obj]. *)
Fixpoint load_ref_at (depth : nat) (h : string) (lazy : bool) : M Ref :=
  match depth with
  | O => raise RecursionError
  | S depth' =>
      shp ← table_get shapes set_shapes h;
      match shp with
      | AtomRef c _ _ _ =>
          if lazy then mret (shallow_copy shp)
          else
            b ← table_get atoms set_atoms c;
            mret (attached shp (deserialize b))
      | ListRef _ _ _ l =>
          loaded ← mapM (λ elt, load_ref_at depth' (hid elt) lazy) l;
          mret (attached shp (obj shp))
      end
  end.

Definition load_ref (h : string) (lazy : bool) : M Ref :=
  load_ref_at recursion_limit h lazy.

(** [Storage._drop_ref_hid] *)
Definition _drop_ref_hid (h : string) (verify : bool) : M unit :=
  s ← get_storage;
  if verify && exists_ref_hid (call_storage s) h then raise AssertionError
  else table_drop shapes set_shapes h.

(** The content ids of the durable shapes,
    [[shape.cid for shape in self.shapes.persistent.values()]]. *)
Definition cids_in_shapes (s : Storage) : gset string :=
  list_to_set ((λ kv, cid kv.2) <$> map_to_list (persistent (shapes s))).

(** [Storage._drop_ref] *)
Definition _drop_ref (c : string) (verify : bool) : M unit :=
  s ← get_storage;
  if verify && bool_decide (c ∈ cids_in_shapes s) then raise AssertionError
  else table_drop atoms set_atoms c.

(** *** Provenance queries *)

(** [Storage.get_orphans] *)
Definition get_orphans : M (gset string) :=
  ctx ← in_context;
  if (ctx : bool) then raise (NotImplementedError in_context_msg)
  else
    s ← get_storage;
    let all_hids : gset string := dom (persistent (shapes s)) in
    mret (all_hids ∖ hids_in_calls (call_storage s)).

(** [Storage.get_unreferenced_cids] *)
Definition get_unreferenced_cids : M (gset string) :=
  ctx ← in_context;
  if (ctx : bool) then raise (NotImplementedError in_context_msg)
  else
    s ← get_storage;
    let all_cids : gset string := dom (persistent (atoms s)) in
    mret ((all_cids ∖ cids_in_calls (call_storage s)) ∖ cids_in_shapes s).

(** [Storage.cleanup_refs] *)
Definition cleanup_refs : M unit :=
  orphans ← get_orphans;
  mapM (λ h, _drop_ref_hid h false) (elements orphans);;
  unreferenced_cids ← get_unreferenced_cids;
  mapM (λ c, _drop_ref c false) (elements unreferenced_cids);;
  mret ().

(** *** Calls interface *)

(** [Storage.exists_call] *)
Definition exists_call (h : string) : M bool :=
  s ← get_storage;
  mret (calls_exists s h).

(** [Storage.save_call] *)
Definition save_call (call : Call) : M unit :=
  s ← get_storage;
  if calls_exists s (call_hid call) then mret ()
  else
    op_known ← table_exists ops (name (call_op call));
    (if (op_known : bool) then mret ()
     else table_set ops set_ops (name (call_op call)) (detached_op (call_op call)));;
    mapM (λ kv : string * Ref, save_ref kv.2) (inputs call ++ outputs call);;
    calls_save call.

(** The row of a call: from the call cache if it is there, else from the
    durable table. *)
Definition get_data (h : string) : M CallData :=
  s ← get_storage;
  match call_cache s !! h with
  | Some cd => mret cd
  | None =>
      match call_storage s !! h with
      | Some cd => mret cd
      | None => raise (KeyError h)
      end
  end.

(** [Storage.get_call] *)
Definition get_call (h : string) (lazy : bool) : M Call :=
  cd ← get_data h;
  op ← table_get ops set_ops (cd_op_name cd);
  ins ← mapM (λ kv : string * string, r ← load_ref kv.2 lazy; mret (kv.1, r)) (input_hids cd);
  outs ← mapM (λ kv : string * string, r ← load_ref kv.2 lazy; mret (kv.1, r)) (output_hids cd);
  mret (mkCall op (cd_cid cd) (cd_hid cd) ins outs).

(** [call_storage.get_dependents(ref_hids, call_hids)], a query of the
    durable call table, is a parameter of [drop_calls]. *)
Definition drop_calls
    (get_dependents : gmap string CallData → gset string → gset string → gset string * gset string)
    (hids : gset string) (delete_dependents : bool) : M unit :=
  s ← get_storage;
  let hids := if delete_dependents
              then hids ∪ (get_dependents (call_storage s) ∅ hids).2
              else hids in
  mapM (λ h, s ← get_storage;
             if bool_decide (is_Some (call_cache s !! h))
             then put_storage (set_calls (delete h (call_cache s)) (call_dirty s) (call_storage s) s)
             else mret ()) (elements hids);;
  mapM (λ h, s ← get_storage;
             put_storage (set_calls (call_cache s) (call_dirty s) (delete h (call_storage s)) s))
       (elements hids);;
  mret ().

(** [Storage.commit] *)
Definition commit : M unit :=
  s ← get_storage;
  put_storage (calls_commit
    (mkStorage (call_cache s) (call_dirty s) (call_storage s)
       (Cached.commit (atoms s)) (Cached.commit (shapes s)) (Cached.commit (ops s)))).

(** [Storage.get_creators], [Storage.get_consumers] *)
Definition get_creators (ref_hids : list string) : M (list Call) :=
  ctx ← in_context;
  if (ctx : bool) then raise (NotImplementedError in_context_msg)
  else
    s ← get_storage;
    mapM (λ call_hid, get_call call_hid true) (get_creator_hids (call_storage s) ref_hids).

Definition get_consumers (ref_hids : list string) : M (list Call) :=
  ctx ← in_context;
  if (ctx : bool) then raise (NotImplementedError in_context_msg)
  else
    s ← get_storage;
    mapM (λ call_hid, get_call call_hid true) (get_consumer_hids (call_storage s) ref_hids).

(** [Storage.__enter__], [Storage.__exit__] *)
Definition __enter__ : M unit :=
  λ w, (inr (), mkWorld (storage w) (Some ()) (invoked w)).

Definition __exit__ : M unit :=
  (λ w, (inr (), mkWorld (storage w) None (invoked w)));;
  commit.

(** *** Wrapping and unwrapping *)

(** Modelled from the spec: [model.wrap_atom] and the id methods of
    [model.Op].  The content id of an atom is the hash of its value; its
    history id is the one supplied, or a default one for a value that no
    call produced.  The ids of a call hash the op's name and version with
    the history ids (content ids) of the inputs by name; the history id of
    an output is derived from the history id of the call and the name of
    the output. *)
Definition wrap_atom (o : value) (history_id : option string) : Ref :=
  AtomRef (get_content_hash o) (default (default_hid o) history_id) true o.

Definition get_call_history_id (op : Op) (wrapped_inputs : list (string * Ref)) : string :=
  call_history_hash (name op) (version op) (hids_of wrapped_inputs).

Definition get_call_content_id (op : Op) (wrapped_inputs : list (string * Ref)) : string :=
  call_content_hash (name op) (version op) (cids_of wrapped_inputs).

Definition get_output_history_ids (call_history_id : string) (output_names : list string)
    : list (string * string) :=
  (λ k, (k, output_history_hash call_history_id k)) <$> output_names.

(** [d[k]] for a dictionary: [KeyError] when the key is missing. *)
Definition dict_lookup {A} (d : list (string * A)) (k : string) : M A :=
  match dict_get d k with
  | Some v => mret v
  | None => raise (KeyError k)
  end.

(** [Storage._unwrap_atom] *)
Definition _unwrap_atom (o : Ref) : M value :=
  match o with
  | AtomRef _ h m v =>
      if negb m then ref ← load_ref h false; mret (obj ref)
      else mret v
  | ListRef _ _ _ _ => raise AssertionError
  end.

(** [Storage._attach_atom]: the ref is updated in place and returned. *)
Definition _attach_atom (o : Ref) : M Ref :=
  match o with
  | AtomRef c h m v =>
      if negb m then
        b ← table_get atoms set_atoms c;
        mret (AtomRef c h true (deserialize b))
      else mret o
  | ListRef _ _ _ _ => raise AssertionError
  end.

(** Modelled from the spec: [recurse_on_ref_collections], through which
    [Storage.unwrap] goes; the traversal applies the function to the atoms
    and rebuilds a list from the elements of a list ref. *)
Fixpoint unwrap (o : Ref) : M value :=
  match o with
  | AtomRef _ _ _ _ => _unwrap_atom o
  | ListRef _ _ _ l => vs ← mapM unwrap l; mret (VList vs)
  end.

(** Modelled from the spec: the structural ops [model.__make_list__]
    ("build sequence from positional elements") and [model.__get_item__]
    ("get element at index").  The history id a fresh list ref is built
    with is replaced by [call_internal], which gives every returned ref the
    history id of its output. *)
Definition __make_list__ : Op :=
  mkOp "__make_list__" 0
    (Some (Structural (λ elts,
       let l := snd <$> elts in
       inr [("output_0",
             (VRef (ListRef (list_cid (cid <$> l)) (default_hid (VList (VRef <$> l))) true l),
              ListType AtomType))]))).

Definition __get_item__ : Op :=
  mkOp "__get_item__" 0
    (Some (Structural (λ ins,
       match dict_get ins "obj", dict_get ins "attr" with
       | Some (ListRef _ _ _ l), Some (AtomRef _ _ _ (VInt i)) =>
           let n := if (i <? 0)%Z then (Z.of_nat (length l) + i)%Z else i in
           if (n <? 0)%Z then inl IndexError
           else match l !! Z.to_nat n with
                | Some e => inr [("output_0", (VRef e, AtomType))]
                | None => inl IndexError
                end
       | _, _ => inl TypeError
       end))).

(** [Storage.get_struct_builder] *)
Definition get_struct_builder (tp : Tp) : M Op :=
  match tp with
  | ListType _ => mret __make_list__
  | AtomType => raise (NotImplementedError "")
  end.

(** [Storage.get_struct_inputs] *)
Definition get_struct_inputs (tp : Tp) (val : value) : M (list (string * value)) :=
  match tp with
  | ListType _ =>
      match val with
      | VList l => mret (imap (λ i elt, ("elts_" +:+ pretty i, elt)) l)
      | _ => raise TypeError
      end
  | AtomType => raise (NotImplementedError "")
  end.

(** [Storage.get_struct_tps] *)
Definition get_struct_tps {A} (tp : Tp) (struct_inputs : list (string * A))
    : M (list (string * Tp)) :=
  match tp with
  | ListType elt => mret ((λ i, ("elts_" +:+ pretty i, elt)) <$> seq 0 (length struct_inputs))
  | AtomType => raise (NotImplementedError "")
  end.

(** The inputs whose content id after the call differs from the one before:
    [{k for k in cids_before if cids_before[k] != cids_after[k]}]. *)
Definition changed_inputs (cids_before cids_after : list (string * string)) : M (list string) :=
  ks ← mapM (λ kc : string * string,
               c' ← dict_lookup cids_after kc.1;
               mret (if bool_decide (kc.2 ≠ c') then [kc.1] else []))
            cids_before;
  mret (concat ks).

(** *** Memoized calls

    [call_internal], [construct] and [destruct] call one another; [depth] is
    what is left of the recursion limit, one unit for every call. *)
Fixpoint call_internal_at (depth : nat) (op : Op) (inputs : list (string * value))
    (input_tps : list (string * Tp)) {struct depth}
    : M (list (string * Ref) * Call * list Call) :=
  match depth with
  | O => raise RecursionError
  | S d =>
      (* wrap the inputs *)
      wrapped ← mapM (λ kv : string * value,
                        tp ← dict_lookup input_tps kv.1;
                        '(r, struct_calls) ← construct_at d tp kv.2;
                        mret ((kv.1, r), struct_calls))
                     inputs;
      let wrapped_inputs : list (string * Ref) := fst <$> wrapped in
      let input_calls : list Call := concat (snd <$> wrapped) in
      (* check for the call *)
      let call_history_id := get_call_history_id op wrapped_inputs in
      known ← exists_call call_history_id;
      if (known : bool) then
        main_call ← get_call call_history_id true;
        mret (outputs main_call, main_call, input_calls)
      else
        (* execute the call if it doesn't exist *)
        returns ←
          match f op with
          | None => raise TypeError
          | Some (Structural run) =>
              log_invocation (name op) call_history_id;;
              match run wrapped_inputs with
              | inl e => raise e
              | inr returns => mret returns
              end
          | Some (User run) =>
              (* guard against side effects *)
              let cids_before := cids_of wrapped_inputs in
              raw_values ← mapM (λ kv : string * Ref, v ← unwrap kv.2; mret (kv.1, v))
                                wrapped_inputs;
              log_invocation (name op) call_history_id;;
              let '(returns, raw_values) := run raw_values in
              cids_after ← mapM (λ kv : string * value,
                                   tp ← dict_lookup input_tps kv.1;
                                   '(r, _) ← construct_at d tp kv.2;
                                   mret (kv.1, cid r))
                                raw_values;
              changed ← changed_inputs cids_before cids_after;
              if bool_decide (0 < length changed)
              then raise (SideEffects (name op) changed)
              else mret returns
          end;
        (* wrap the outputs *)
        let call_content_id := get_call_content_id op wrapped_inputs in
        let call_history_id := get_call_history_id op wrapped_inputs in
        let output_history_ids := get_output_history_ids call_history_id (fst <$> returns) in
        wrapped_out ← mapM (λ kv : string * (value * Tp),
                              let '(k, (v, tp)) := kv in
                              h ← dict_lookup output_history_ids k;
                              match v with
                              | VRef r => mret ((k, with_hid r h), [])
                              | _ =>
                                  match tp with
                                  | AtomType => mret ((k, wrap_atom v (Some h)), [])
                                  | _ =>
                                      '(start, _) ← construct_at d tp v;
                                      let start := with_hid start h in
                                      '(final, output_calls_for_output) ← destruct_at d start tp;
                                      mret ((k, final), output_calls_for_output)
                                  end
                              end)
                           returns;
        let wrapped_outputs : list (string * Ref) := fst <$> wrapped_out in
        let output_calls : list Call := concat (snd <$> wrapped_out) in
        let main_call := mkCall op call_content_id call_history_id wrapped_inputs wrapped_outputs in
        mret (outputs main_call, main_call, input_calls ++ output_calls)
  end

with construct_at (depth : nat) (tp : Tp) (val : value) {struct depth}
    : M (Ref * list Call) :=
  match depth with
  | O => raise RecursionError
  | S d =>
      match val with
      | VRef r => mret (r, [])
      | _ =>
          match tp with
          | AtomType => mret (wrap_atom val None, [])
          | _ =>
              struct_builder ← get_struct_builder tp;
              struct_inputs ← get_struct_inputs tp val;
              struct_tps ← get_struct_tps tp struct_inputs;
              '(res, main_call, calls) ←
                 call_internal_at d struct_builder struct_inputs struct_tps;
              let calls := calls ++ [main_call] in
              match outputs main_call with
              | (_, output_ref) :: _ => mret (output_ref, calls)
              | [] => raise IndexError
              end
          end
      end
  end

with destruct_at (depth : nat) (ref : Ref) (tp : Tp) {struct depth}
    : M (Ref * list Call) :=
  match depth with
  | O => raise RecursionError
  | S d =>
      match ref with
      | AtomRef _ _ _ _ => mret (ref, [])
      | ListRef c h _ l =>
          match tp with
          | AtomType => raise AssertionError
          | ListType elt =>
              per_elt ← mapM (λ i : nat,
                                '(getitem_dict, item_call, _) ←
                                   call_internal_at d __get_item__
                                     [("obj", VRef ref); ("attr", VInt (Z.of_nat i))]
                                     [("obj", elt); ("attr", AtomType)];
                                new_elt ← dict_lookup getitem_dict "output_0";
                                '(new_elt, elt_subcalls) ← destruct_at d new_elt elt;
                                mret (new_elt, item_call :: elt_subcalls))
                             (seq 0 (length l));
              let new_elts := fst <$> per_elt in
              let destr_calls := concat (snd <$> per_elt) in
              mret (ListRef c h true new_elts, destr_calls)
          end
      end
  end.

(** [Storage.call_internal], [Storage.construct], [Storage.destruct] *)
Definition call_internal (op : Op) (inputs : list (string * value))
    (input_tps : list (string * Tp)) : M (list (string * Ref) * Call * list Call) :=
  call_internal_at recursion_limit op inputs input_tps.

Definition construct (tp : Tp) (val : value) : M (Ref * list Call) :=
  construct_at recursion_limit tp val.

Definition destruct (ref : Ref) (tp : Tp) : M (Ref * list Call) :=
  destruct_at recursion_limit ref tp.

(** The first loop of [call_internal], which wraps the inputs: each input
    with the ref that [construct] makes of it at its declared type and the
    structural calls made on the way; [depth] is what is left of the
    recursion limit inside [call_internal]. *)
Definition wrap_inputs (depth : nat) (input_tps : list (string * Tp))
    (inputs : list (string * value)) : M (list ((string * Ref) * list Call)) :=
  mapM (λ kv : string * value,
          tp ← dict_lookup input_tps kv.1;
          '(r, struct_calls) ← construct_at depth tp kv.2;
          mret ((kv.1, r), struct_calls))
       inputs.

(** *** User-facing functions *)

(** [Storage.call].  The binding of the arguments to the names of the
    inputs and the types of their annotations ([parse_args],
    [Type.from_annotation]) are done by [model]: the inputs come by name,
    with their types.  [Op.get_ordered_outputs] is a parameter.
    [save_calls] is [__config__.get('save_calls', False)].  A single output
    is returned as it is, several as a tuple. *)
Definition call (get_ordered_outputs : list (string * Ref) → list Ref)
    (op : Op) (raw_inputs : list (string * value)) (input_tps : list (string * Tp))
    (save_calls : bool) : M (Ref + list Ref) :=
  '(res, main_call, calls) ← call_internal op raw_inputs input_tps;
  (if save_calls then
     save_call main_call;;
     mapM save_call calls;;
     mret ()
   else mret ());;
  let ord_outputs := get_ordered_outputs (outputs main_call) in
  match ord_outputs with
  | [r] => mret (inl r)
  | _ => mret (inr ord_outputs)
  end.

End Engine.

(** ** What a method leaves in place *)

(** Two states of a cached table hold the same rows: the durable table and
    the dirty markers are the same and every key reads the same; the cache
    may have been filled by reads. *)
Definition same_table {V} (d d' : CachedDictStorage V) : Prop :=
  persistent d = persistent d' ∧ dirty_keys d = dirty_keys d' ∧
  ∀ k, Cached.view d k = Cached.view d' k.

Definition same_rows (s s' : Storage) : Prop :=
  call_cache s = call_cache s' ∧ call_dirty s = call_dirty s' ∧
  call_storage s = call_storage s' ∧
  same_table (atoms s) (atoms s') ∧ same_table (shapes s) (shapes s') ∧
  same_table (ops s) (ops s').

(** The three cached dictionaries of the storage, each with its update. *)
Definition table_lens {V} (tbl : Storage → CachedDictStorage V)
    (upd : CachedDictStorage V → Storage → Storage) : Prop :=
  (∀ d s, same_table (tbl s) d → same_rows s (upd d s)) ∧
  (∀ s s', same_rows s s' → same_table (tbl s) (tbl s')).

(** A method that only reads: no row written, no function run. *)
Definition reads_only (w w' : World) : Prop :=
  same_rows (storage w) (storage w') ∧ current_context w = current_context w' ∧
  invoked w = invoked w'.

(** A method that writes no row; it may have run functions. *)
Definition writes_nothing (w w' : World) : Prop :=
  same_rows (storage w) (storage w') ∧ current_context w = current_context w'.

(** [m] leaves the world within [R] wherever it is run, and whatever it
    returns or raises. *)
Definition preserves (R : relation World) {A} (m : M A) : Prop :=
  ∀ w, R w (m w).2.

(** [m] cannot tell two worlds within [R] apart. *)
Definition respects (R : relation World) {A} (m : M A) : Prop :=
  ∀ w w', R w w' → (m w).1 = (m w').1 ∧ R (m w).2 (m w').2.

(** Wrapped inputs, as they are passed to [call_internal]. *)
Definition as_values (wrapped : list (string * Ref)) : list (string * value) :=
  (λ kv, (kv.1, VRef kv.2)) <$> wrapped.

(** Every name of [d] has an entry in [tps]. *)
Definition typed_by {A} (tps : list (string * Tp)) (d : list (string * A)) : Prop :=
  Forall (λ kv, is_Some (dict_get tps kv.1)) d.

(** Saving refs adds shapes and atoms and touches nothing else: a shape
    that is readable stays as it is, an atom that is readable stays
    readable. *)
Definition extends (w w' : World) : Prop :=
  (∀ k s, Cached.view (shapes (storage w)) k = Some s →
          Cached.view (shapes (storage w')) k = Some s) ∧
  (∀ k, is_Some (Cached.view (atoms (storage w)) k) →
        is_Some (Cached.view (atoms (storage w')) k)) ∧
  call_cache (storage w) = call_cache (storage w') ∧
  call_dirty (storage w) = call_dirty (storage w') ∧
  call_storage (storage w) = call_storage (storage w') ∧
  ops (storage w) = ops (storage w') ∧
  current_context w = current_context w' ∧
  invoked w = invoked w'.

(** Only the call tables may differ. *)
Definition same_refs (w w' : World) : Prop :=
  atoms (storage w) = atoms (storage w') ∧
  shapes (storage w) = shapes (storage w') ∧
  ops (storage w) = ops (storage w') ∧
  current_context w = current_context w' ∧
  invoked w = invoked w'.

(** [m] returns wherever it is run: it never raises. *)
Definition never_raises {A} (m : M A) : Prop :=
  ∀ w, ∃ x, (m w).1 = inr x.

(** The two halves of [cleanup_refs]: the sweep of the orphaned history ids
    out of [shapes], and the sweep of the unreferenced content ids out of
    [atoms]. *)
Definition sweep_shapes : M unit :=
  orphans ← get_orphans;
  mapM (λ h, _drop_ref_hid h false) (elements orphans);;
  mret ().

Definition sweep_atoms : M unit :=
  unreferenced_cids ← get_unreferenced_cids;
  mapM (λ c, _drop_ref c false) (elements unreferenced_cids);;
  mret ().

(** Dropping a list of keys from a cached table. *)
Definition drop_all {V} (d : CachedDictStorage V) (ks : list string) : CachedDictStorage V :=
  foldl Cached.drop d ks.

(** The two sides of the guard against side effects in [call_internal]: the
    raw values of the wrapped inputs, [{k: self.unwrap(v) ...}], and the
    content ids recomputed from the raw values after the call,
    [{k: self.construct(tp=input_tps[k], val=v)[0].cid ...}]. *)
Section Guard.
Context `{!Adapters}.

Definition unwrap_all (wrapped : list (string * Ref)) : M (list (string * value)) :=
  mapM (λ kv : string * Ref, v ← unwrap kv.2; mret (kv.1, v)) wrapped.

Definition cids_after_call (depth : nat) (input_tps : list (string * Tp))
    (raw_values : list (string * value)) : M (list (string * string)) :=
  mapM (λ kv : string * value,
          tp ← dict_lookup input_tps kv.1;
          '(r, _) ← construct_at depth tp kv.2;
          mret (kv.1, cid r))
       raw_values.

End Guard.

(** The storage holds the ref [r]: every ref it is made of has its shape
    under its history id, and every atom of it has a payload under its
    content id. *)
Definition settled (s : Storage) (r : Ref) : Prop :=
  ∀ n, n ∈ nodes r →
    Cached.view (shapes s) (hid n) = Some (shape n) ∧
    (is_atom n = true → is_Some (Cached.view (atoms s) (cid n))).

(** The storage holds the shapes of [r]: under the history id of [r] and of
    every ref inside it, the [shapes] table has the shape of that ref.  The
    storage can read a history id when it holds the shapes of a ref with
    this history id, nested less deep than [limit]. *)
Definition shapes_held (s : Storage) (r : Ref) : Prop :=
  ∀ n, n ∈ nodes r → Cached.view (shapes s) (hid n) = Some (shape n).

Definition readable (s : Storage) (limit : nat) (h : string) : Prop :=
  ∃ r, hid r = h ∧ shapes_held s r ∧ ref_depth r < limit.

(** What makes refs fit to be saved into a storage: a ref whose history id
    the storage knows is held by it already, and two refs with the same
    history id have the same shape. *)
Definition known_settled (s : Storage) (rs : list Ref) : Prop :=
  ∀ n, n ∈ rs ≫= nodes → is_Some (Cached.view (shapes s) (hid n)) → settled s n.

Definition same_hid_same_shape (rs : list Ref) : Prop :=
  ∀ n m, n ∈ rs ≫= nodes → m ∈ rs ≫= nodes → hid n = hid m → shape n = shape m.

(** Every shape the storage holds is without payload. *)
Definition shapes_payload_free (s : Storage) : Prop :=
  ∀ h shp, Cached.view (shapes s) h = Some shp → payload_free shp = true.

Section Loaded.
Context `{!Adapters}.

(** What [load_ref] returns for a ref that the storage holds. *)
Definition loaded (lazy : bool) (r res : Ref) (s : Storage) : Prop :=
  match r with
  | AtomRef c h _ _ =>
      if lazy then res = AtomRef c h false VNone
      else ∃ b, Cached.view (atoms s) c = Some b ∧ res = AtomRef c h true (deserialize b)
  | ListRef c h _ l => res = ListRef c h attached_list_flag (shape <$> l)
  end.

End Loaded.

(** The elements of a list ref. *)
Definition children (r : Ref) : list Ref :=
  match r with
  | AtomRef _ _ _ _ => []
  | ListRef _ _ _ l => l
  end.

(** Between [w] and [w'] refs among [rs] have been saved: a history id that
    had no shape in [w] and has one in [w'] has the shape of one of these
    refs, saved with its payload if it is an atom, and with a shape for
    each of its elements if it is a list. *)
Definition new_shapes_from (rs : list Ref) (w w' : World) : Prop :=
  ∀ k s,
    Cached.view (shapes (storage w)) k = None →
    Cached.view (shapes (storage w')) k = Some s →
    ∃ m, m ∈ rs ≫= nodes ∧ hid m = k ∧ s = shape m ∧
         (is_atom m = true → is_Some (Cached.view (atoms (storage w')) (cid m))) ∧
         (∀ e, e ∈ children m → is_Some (Cached.view (shapes (storage w')) (hid e))).

(** The two halves of [call_internal] after the check for the call: running
    the function of the op on the wrapped inputs (with the guard against
    side effects for a user op), and wrapping what it returned. *)
Section Execute.
Context `{!Adapters}.

Definition execute (depth : nat) (op : Op) (wrapped_inputs : list (string * Ref))
    (input_tps : list (string * Tp)) : M Returns :=
  let call_history_id := get_call_history_id op wrapped_inputs in
  match f op with
  | None => raise TypeError
  | Some (Structural run) =>
      log_invocation (name op) call_history_id;;
      match run wrapped_inputs with
      | inl e => raise e
      | inr returns => mret returns
      end
  | Some (User run) =>
      let cids_before := cids_of wrapped_inputs in
      raw_values ← unwrap_all wrapped_inputs;
      log_invocation (name op) call_history_id;;
      let '(returns, raw_values) := run raw_values in
      cids_after ← cids_after_call depth input_tps raw_values;
      changed ← changed_inputs cids_before cids_after;
      if bool_decide (0 < length changed)
      then raise (SideEffects (name op) changed)
      else mret returns
  end.

Definition wrap_output (depth : nat) (output_history_ids : list (string * string))
    (kv : string * (value * Tp)) : M (string * Ref * list Call) :=
  let '(k, (v, tp)) := kv in
  h ← dict_lookup output_history_ids k;
  match v with
  | VRef r => mret ((k, with_hid r h), [])
  | _ =>
      match tp with
      | AtomType => mret ((k, wrap_atom v (Some h)), [])
      | _ =>
          '(start, _) ← construct_at depth tp v;
          let start := with_hid start h in
          '(final, output_calls_for_output) ← destruct_at depth start tp;
          mret ((k, final), output_calls_for_output)
      end
  end.

Definition wrap_outputs (depth : nat) (call_history_id : string) (returns : Returns)
    : M (list (string * Ref * list Call)) :=
  mapM (wrap_output depth (get_output_history_ids call_history_id (fst <$> returns))) returns.

(** A return that is wrapped as it is: a ref, or a value of atomic type. *)
Definition wrapped_directly (v : value) (tp : Tp) : Prop :=
  (∃ r, v = VRef r) ∨ tp = AtomType.

End Execute.

(** The content id that [wrap_output] gives the ref of a return: the one of
    the ref if the return is a ref, the hash of the value for an atomic
    type, and else the content id of the ref that [construct] builds. *)
Definition output_cid `{!Adapters} (depth : nat) (v : value) (tp : Tp) (w : World)
    (c : string) : Prop :=
  match v with
  | VRef r => c = cid r
  | _ =>
      match tp with
      | AtomType => c = get_content_hash v
      | _ => ∃ start cs w', construct_at depth tp v w = (inr (start, cs), w') ∧ c = cid start
      end
  end.

(** The method returned; it did not raise. *)
Definition returned {A} (r : Exc + A) : bool :=
  match r with inr _ => true | inl _ => false end.

(** ** Durable rows and cached rows *)

(** The durable rows are the same: the durable call table and the durable
    table behind each cached dictionary. *)
Definition same_durable (w w' : World) : Prop :=
  call_storage (storage w) = call_storage (storage w') ∧
  persistent (atoms (storage w)) = persistent (atoms (storage w')) ∧
  persistent (shapes (storage w)) = persistent (shapes (storage w')) ∧
  persistent (ops (storage w)) = persistent (ops (storage w')).

(** A cached table is coherent when every cached row is dirty or equal to
    the durable row. *)
Definition coherent {V} (d : CachedDictStorage V) : Prop :=
  ∀ k v, cache d !! k = Some v → k ∈ dirty_keys d ∨ persistent d !! k = Some v.

(** The cached call storage, seen as a cached table. *)
Definition calls_table (s : Storage) : CachedDictStorage CallData :=
  mkCached (call_cache s) (call_dirty s) (call_storage s).

Definition storage_coherent (s : Storage) : Prop :=
  coherent (calls_table s) ∧ coherent (atoms s) ∧ coherent (shapes s) ∧ coherent (ops s).

Definition keeps_coherent (w w' : World) : Prop :=
  storage_coherent (storage w) → storage_coherent (storage w').

(** Saving calls adds rows and touches no row that is there: a shape, an
    atom, an op and a row of the call cache that are readable stay. *)
Definition grows (w w' : World) : Prop :=
  (∀ k s, Cached.view (shapes (storage w)) k = Some s →
          Cached.view (shapes (storage w')) k = Some s) ∧
  (∀ k, is_Some (Cached.view (atoms (storage w)) k) →
        is_Some (Cached.view (atoms (storage w')) k)) ∧
  (∀ k, is_Some (Cached.view (ops (storage w)) k) →
        is_Some (Cached.view (ops (storage w')) k)) ∧
  (∀ h cd, call_cache (storage w) !! h = Some cd → call_cache (storage w') !! h = Some cd) ∧
  current_context w = current_context w' ∧
  invoked w = invoked w'.

(** ** The rows of the call table *)

(** The history ids and the content ids that a row of the call table names:
    those of its inputs and of its outputs. *)
Definition ref_hids (cd : CallData) : list string :=
  (λ kv, kv.2.1) <$> (cd_inputs cd ++ cd_outputs cd).

Definition ref_cids (cd : CallData) : list string :=
  (λ kv, kv.2.2) <$> (cd_inputs cd ++ cd_outputs cd).

(** The call hids that [drop_calls] goes through: the given ones, with the
    dependents when [delete_dependents] is set. *)
Definition dropped_hids
    (get_dependents : gmap string CallData → gset string → gset string → gset string * gset string)
    (s : Storage) (hids : gset string) (delete_dependents : bool) : gset string :=
  if delete_dependents then hids ∪ (get_dependents (call_storage s) ∅ hids).2 else hids.

(** ** Raw values and structures *)

(** Nesting depth of a type. *)
Fixpoint tp_depth (tp : Tp) : nat :=
  match tp with
  | AtomType => 0
  | ListType elt => S (tp_depth elt)
  end.

(** A raw value of the type [tp]: it is no ref, and for a list type it is a
    list of raw values of the element type. *)
Fixpoint raw_of (tp : Tp) (v : value) : bool :=
  match tp, v with
  | _, VRef _ => false
  | AtomType, _ => true
  | ListType elt, VList l => forallb (raw_of elt) l
  | ListType _, _ => false
  end.

(** The lists inside the ref are at list types. *)
Fixpoint shaped_by (tp : Tp) (r : Ref) : bool :=
  match r with
  | AtomRef _ _ _ _ => true
  | ListRef _ _ _ l =>
      match tp with
      | ListType elt => forallb (shaped_by elt) l
      | AtomType => false
      end
  end.

Section Structures.
Context `{!Adapters}.

(** The content id of a raw value of the type [tp], computed from the
    content alone: the hash of the value for an atom, the content id of the
    list of the content ids of the elements for a list. *)
Fixpoint raw_cid (tp : Tp) (v : value) : string :=
  match tp, v with
  | ListType elt, VList l => list_cid (raw_cid elt <$> l)
  | _, _ => get_content_hash v
  end.

(** No call of the op is stored. *)
Definition never_called (op : Op) (s : Storage) : Prop :=
  ∀ ins, calls_exists s (get_call_history_id op ins) = false.

(** What [construct] builds for the raw input [kv] of the type [elt]: a ref
    in memory under the same name, with the content id of the value, that
    unwraps to the value, and calls of [__make_list__]. *)
Definition built (elt : Tp) (kv : string * value) (wr : string * Ref * list Call) : Prop :=
  wr.1.1 = kv.1 ∧ cid wr.1.2 = raw_cid elt kv.2 ∧ in_memory wr.1.2 = true ∧
  (∀ w, unwrap wr.1.2 w = (inr kv.2, w)) ∧
  Forall (λ c, call_op c = __make_list__) wr.2.

(** The history id that the call of [__get_item__] on a list ref and an
    index gives its output. *)
Definition item_hid (parent : Ref) (i : nat) : string :=
  output_history_hash
    (get_call_history_id __get_item__
       [("obj", parent); ("attr", wrap_atom (VInt (Z.of_nat i)) None)])
    "output_0".

(** The ref [r] with the history id [h] and, inside, the history ids of the
    calls of [__get_item__] that take it apart: the element at index [i] of
    a list has the history id of the output of the call on the list and
    [i], and so on inside the element. *)
Fixpoint with_item_hids (r : Ref) (h : string) : Ref :=
  match r with
  | AtomRef c _ m o => AtomRef c h m o
  | ListRef c _ m l =>
      ListRef c h true
        (imap (λ i item, item (item_hid (ListRef c h m l) i)) (with_item_hids <$> l))
  end.

End Structures.

(** ** A concrete engine

    Adapters that compute, an op that increments, an op that changes its
    argument in place, and an op that returns a list; they serve to run the
    engine on examples. *)
Module Demo.

Fixpoint show (v : value) : string :=
  match v with
  | VNone => "None"
  | VInt z => pretty z
  | VStr s => s
  | VList l => "[" +:+ foldr (λ x acc, show x +:+ ";" +:+ acc) "]" l
  | VRef r => "ref:" +:+ hid r
  end.

Definition show_ids (ids : list (string * string)) : string :=
  foldr (λ kv acc, kv.1 +:+ "=" +:+ kv.2 +:+ ";" +:+ acc) "" ids.

(** An integer between 0 and 255 is serialized as one character. *)
Definition serialize_int (v : value) : string :=
  match v with
  | VInt z => String (ascii_of_nat (Z.to_nat z)) ""
  | _ => ""
  end.

Definition deserialize_int (b : string) : value :=
  match b with
  | String a _ => VInt (Z.of_nat (nat_of_ascii a))
  | EmptyString => VNone
  end.

Definition adapters : Adapters := {|
  serialize := serialize_int;
  deserialize := deserialize_int;
  get_content_hash := λ v, "c(" +:+ show v +:+ ")";
  default_hid := λ v, "h(" +:+ show v +:+ ")";
  list_cid := λ cs, "l(" +:+ foldr (λ c acc, c +:+ ";" +:+ acc) ")" cs;
  call_history_hash := λ n ver ins, n +:+ "/" +:+ pretty ver +:+ "(" +:+ show_ids ins +:+ ")";
  call_content_hash := λ n ver ins, n +:+ "/" +:+ pretty ver +:+ "[" +:+ show_ids ins +:+ "]";
  output_history_hash := λ h k, h +:+ "." +:+ k;
  recursion_limit := 50;
  attached_list_flag := true
|}.

(** [inc(x) = x + 1] *)
Definition inc : Op :=
  mkOp "inc" 0
    (Some (User (λ raw,
       match dict_get raw "x" with
       | Some (VInt x) => ([("output_0", (VInt (x + 1), AtomType))], raw)
       | _ => ([("output_0", (VNone, AtomType))], raw)
       end))).

(** An op that overwrites its argument [x] with [0] and returns the old
    value. *)
Definition clobber_run (raw : list (string * value)) : Returns * list (string * value) :=
  match dict_get raw "x" with
  | Some v => ([("output_0", (v, AtomType))], [("x", VInt 0)])
  | None => ([("output_0", (VNone, AtomType))], raw)
  end.

Definition clobber : Op := mkOp "clobber" 0 (Some (User clobber_run)).

(** An op that returns the list of its arguments. *)
Definition pair_up : Op :=
  mkOp "pair_up" 0
    (Some (User (λ raw, ([("output_0", (VList (snd <$> raw), ListType AtomType))], raw)))).

Definition one : Ref := AtomRef "c(1)" "h(1)" true (VInt 1).
Definition one' : Ref := AtomRef "c(1)" "h'(1)" true (VInt 1).
Definition two : Ref := AtomRef "c(2)" "h(2)" true (VInt 2).
Definition one_two : Ref := ListRef "l(c(1);c(2);)" "h(1,2)" true [one; two].

End Demo.

(** Worlds reached by running the concrete engine: [inc] called on [one] and
    its call saved; [pair_up] called on [one] and [two] and its call saved. *)
Module Runs.
Import Demo.
#[local] Existing Instance adapters.

Definition saved_after (op : Op) (ins : list (string * Ref)) (tps : list (string * Tp))
    (w : World) : World :=
  match call_internal op (as_values ins) tps w with
  | (inr (_, main_call, _), w') => (save_call main_call w').2
  | (inl _, w') => w'
  end.

Definition inc_saved : World :=
  saved_after inc [("x", one)] [("x", AtomType)] empty_world.

Definition pair_saved : World :=
  saved_after pair_up [("a", one); ("b", two)] [("a", AtomType); ("b", AtomType)] empty_world.

(** A call of [inc] on [one]; the world where a call has been saved and
    committed, and the one where the call of [pair_up] has been. *)
Definition inc_call : Call :=
  mkCall inc "inc/0[x=c(1);]" "inc/0(x=h(1);)" [("x", one)]
    [("output_0", AtomRef "c(2)" "inc/0(x=h(1);).output_0" true (VInt 2))].

Definition committed (c : Call) : World :=
  (commit (save_call c empty_world).2).2.

Definition pair_committed : World := (commit pair_saved).2.

End Runs.

(** * Properties *)

(** ** Induction on refs *)

Lemma Ref_ind' (P : Ref → Prop) :
  (∀ c h m o, P (AtomRef c h m o)) →
  (∀ c h m l, Forall P l → P (ListRef c h m l)) →
  ∀ r, P r.
Proof.
  intros Hatom Hlist. fix IH 1. intros [c h m o|c h m l].
  - apply Hatom.
  - apply Hlist. induction l as [|e l IHl]; constructor; [apply IH | apply IHl].
Qed.

Lemma shape_hid r : hid (shape r) = hid r.
Proof. by destruct r. Qed.

Lemma shape_cid r : cid (shape r) = cid r.
Proof. by destruct r. Qed.

Lemma shape_is_atom r : is_atom (shape r) = is_atom r.
Proof. by destruct r. Qed.

Lemma shape_idemp r : shape (shape r) = shape r.
Proof.
  induction r as [c h m o|c h m l IH] using Ref_ind'; [done|].
  simpl. f_equal. rewrite <- list_fmap_compose.
  apply Forall_fmap_ext_1. eapply Forall_impl; [exact IH|]. by intros x Hx.
Qed.

Lemma shape_payload_free r : payload_free (shape r) = true.
Proof.
  induction r as [c h m o|c h m l IH] using Ref_ind'; [done|].
  change (forallb payload_free (shape <$> l) = true).
  induction IH as [|e l He _ IHl]; [done|].
  rewrite fmap_cons. cbn [forallb]. rewrite He. exact IHl.
Qed.

Lemma refs_of_obj_list c h m l : refs_of (obj (ListRef c h m l)) = l.
Proof.
  unfold obj, refs_of. induction l as [|e l IH]; [done|].
  rewrite fmap_cons. cbn [omap list_omap]. by rewrite IH.
Qed.

Lemma elem_of_nodes_self r : r ∈ nodes r.
Proof. destruct r; simpl; left. Qed.

Lemma elem_of_nodes_child c h m l e n :
  e ∈ l → n ∈ nodes e → n ∈ nodes (ListRef c h m l).
Proof.
  intros He Hn. simpl. right. apply list_elem_of_join.
  exists (nodes e). split; [done|]. by apply list_elem_of_fmap_2.
Qed.

Lemma ref_depth_child c h m l e :
  e ∈ l → ref_depth e < ref_depth (ListRef c h m l).
Proof.
  intros He. simpl. induction He as [e l|e e' l He IH]; simpl; lia.
Qed.

(** ** Cached tables *)

Section CachedFacts.
Context {V : Type}.
Implicit Types (d : CachedDictStorage V) (k : string).

Lemma get_view d k : (Cached.get d k).1 = Cached.view d k.
Proof.
  unfold Cached.get, Cached.view.
  destruct (cache d !! k); [done|]. by destruct (persistent d !! k).
Qed.

Lemma get_same_table d k : same_table d (Cached.get d k).2.
Proof.
  unfold Cached.get. destruct (cache d !! k) as [v|] eqn:Hc; [done|].
  destruct (persistent d !! k) as [v|] eqn:Hp; [|done].
  split_and!; simpl; [done..|]. intros k'. unfold Cached.view. simpl.
  destruct (decide (k = k')) as [<-|Hne].
  - by rewrite lookup_insert_eq, Hc, Hp.
  - by rewrite lookup_insert_ne.
Qed.

Lemma exists_view d k : Cached.exists_ d k = true ↔ is_Some (Cached.view d k).
Proof.
  unfold Cached.exists_, Cached.view. destruct (cache d !! k); [naive_solver|].
  destruct (persistent d !! k); [naive_solver|]. split; [done|]. by intros [? ?].
Qed.

Lemma exists_view_false d k : Cached.exists_ d k = false ↔ Cached.view d k = None.
Proof.
  unfold Cached.exists_, Cached.view. destruct (cache d !! k); [naive_solver|].
  destruct (persistent d !! k); naive_solver.
Qed.

Lemma view_set d k v k' :
  Cached.view (Cached.set d k v) k' = if decide (k = k') then Some v else Cached.view d k'.
Proof.
  unfold Cached.view, Cached.set. simpl. destruct (decide (k = k')) as [<-|Hne].
  - by rewrite lookup_insert_eq.
  - by rewrite lookup_insert_ne.
Qed.

Lemma same_table_refl d : same_table d d.
Proof. done. Qed.

Lemma same_table_sym d d' : same_table d d' → same_table d' d.
Proof. intros (?&?&?). by split_and!. Qed.

Lemma same_table_trans d1 d2 d3 : same_table d1 d2 → same_table d2 d3 → same_table d1 d3.
Proof.
  intros (?&?&H1) (?&?&H2). split_and!; [congruence..|]. intros k. by rewrite H1.
Qed.

Lemma same_table_exists d d' k : same_table d d' → Cached.exists_ d k = Cached.exists_ d' k.
Proof.
  intros (_&_&Hv). destruct (Cached.exists_ d' k) eqn:He.
  - apply exists_view. rewrite Hv. by apply exists_view.
  - apply exists_view_false. rewrite Hv. by apply exists_view_false.
Qed.

End CachedFacts.

#[global] Instance same_rows_equiv : Equivalence same_rows.
Proof.
  split.
  - intros s. by split_and!.
  - intros s s' (?&?&?&?&?&?). split_and!; [done..| | |]; by apply same_table_sym.
  - intros s1 s2 s3 (?&?&?&?&?&?) (?&?&?&?&?&?).
    split_and!; [congruence..| | |]; by eapply same_table_trans.
Qed.

#[global] Instance reads_only_equiv : Equivalence reads_only.
Proof.
  split.
  - intros w. by split_and!.
  - intros w w' (?&?&?). by split_and!.
  - intros w1 w2 w3 (?&?&?) (?&?&?). split_and!; [by etrans|congruence..].
Qed.

#[global] Instance writes_nothing_equiv : Equivalence writes_nothing.
Proof.
  split.
  - intros w. by split_and!.
  - intros w w' (?&?). by split_and!.
  - intros w1 w2 w3 (?&?) (?&?). split_and!; [by etrans|congruence].
Qed.

Lemma reads_only_writes_nothing w w' : reads_only w w' → writes_nothing w w'.
Proof. intros (?&?&?). by split. Qed.

(** ** Reasoning in the monad *)

Lemma bind_run {A B} (m : M A) (k : A → M B) w :
  (m ≫= k) w = match m w with
               | (inl e, w') => (inl e, w')
               | (inr x, w') => k x w'
               end.
Proof. done. Qed.

Lemma bind_inr {A B} (m : M A) (k : A → M B) w x w' :
  m w = (inr x, w') → (m ≫= k) w = k x w'.
Proof. intros Hm. by rewrite bind_run, Hm. Qed.

Lemma bind_inl {A B} (m : M A) (k : A → M B) w e w' :
  m w = (inl e, w') → (m ≫= k) w = (inl e, w').
Proof. intros Hm. by rewrite bind_run, Hm. Qed.

Lemma mapM_cons {A B} (g : A → M B) x l :
  mapM g (x :: l) = (y ← g x; ys ← mapM g l; mret (y :: ys)).
Proof. done. Qed.

Section Preserves.
Context (R : relation World) `{!PreOrder R}.

Lemma preserves_ret {A} (x : A) : preserves R (mret x).
Proof. intros w. simpl. reflexivity. Qed.

Lemma preserves_raise {A} e : preserves R (@raise A e).
Proof. intros w. simpl. reflexivity. Qed.

Lemma preserves_bind {A B} (m : M A) (k : A → M B) :
  preserves R m → (∀ x, preserves R (k x)) → preserves R (m ≫= k).
Proof.
  intros Hm Hk w. rewrite bind_run. specialize (Hm w).
  destruct (m w) as [[e|x] w']; [done|]. etrans; [exact Hm|apply Hk].
Qed.

Lemma preserves_mapM {A B} (g : A → M B) l :
  (∀ x, x ∈ l → preserves R (g x)) → preserves R (mapM g l).
Proof.
  induction l as [|x l IH]; intros Hg; [apply preserves_ret|].
  rewrite mapM_cons. apply preserves_bind; [apply Hg; left|]. intros y.
  apply preserves_bind; [|intros ys; apply preserves_ret].
  apply IH. intros z Hz. apply Hg. by right.
Qed.

Lemma preserves_get_storage : preserves R get_storage.
Proof. intros w. simpl. reflexivity. Qed.

Lemma preserves_run {A} (m : M A) w r w' : preserves R m → m w = (r, w') → R w w'.
Proof. intros Hm Hw. specialize (Hm w). by rewrite Hw in Hm. Qed.

End Preserves.

Lemma preserves_weaken (R R' : relation World) {A} (m : M A) :
  (∀ w w', R w w' → R' w w') → preserves R m → preserves R' m.
Proof. intros HR Hm w. apply HR, Hm. Qed.

Section Respects.
Context (R : relation World).

Lemma respects_ret {A} (x : A) : respects R (mret x).
Proof. by intros w w' HR. Qed.

Lemma respects_raise {A} e : respects R (@raise A e).
Proof. by intros w w' HR. Qed.

Lemma respects_bind {A B} (m : M A) (k : A → M B) :
  respects R m → (∀ x, respects R (k x)) → respects R (m ≫= k).
Proof.
  intros Hm Hk w w' HR. rewrite !bind_run. destruct (Hm w w' HR) as [H1 H2].
  destruct (m w) as [[e|x] w1], (m w') as [[e'|x'] w1']; simpl in *; simplify_eq; [done|].
  by apply Hk.
Qed.

Lemma respects_mapM {A B} (g : A → M B) l :
  (∀ x, x ∈ l → respects R (g x)) → respects R (mapM g l).
Proof.
  induction l as [|x l IH]; intros Hg; [apply respects_ret|].
  rewrite mapM_cons. apply respects_bind; [apply Hg; left|]. intros y.
  apply respects_bind; [|intros ys; apply respects_ret].
  apply IH. intros z Hz. apply Hg. by right.
Qed.

Lemma respects_run {A} (m : M A) w1 w2 r1 w1' r2 w2' :
  respects R m → R w1 w2 → m w1 = (r1, w1') → m w2 = (r2, w2') → r1 = r2 ∧ R w1' w2'.
Proof. intros Hm HR H1 H2. specialize (Hm _ _ HR). by rewrite H1, H2 in Hm. Qed.

End Respects.

Lemma never_raises_ret {A} (x : A) : never_raises (mret x).
Proof. intros w. by exists x. Qed.

Lemma never_raises_bind {A B} (m : M A) (k : A → M B) :
  never_raises m → (∀ x, never_raises (k x)) → never_raises (m ≫= k).
Proof.
  intros Hm Hk w. rewrite bind_run. destruct (Hm w) as [x Hx].
  destruct (m w) as [[e|y] w']; simpl in *; [done|]. apply Hk.
Qed.

Lemma never_raises_mapM {A B} (g : A → M B) l :
  (∀ x, x ∈ l → never_raises (g x)) → never_raises (mapM g l).
Proof.
  induction l as [|x l IH]; intros Hg; [apply never_raises_ret|].
  rewrite mapM_cons. apply never_raises_bind; [apply Hg; left|]. intros y.
  apply never_raises_bind; [|intros ys; apply never_raises_ret].
  apply IH. intros z Hz. apply Hg. by right.
Qed.

Lemma never_raises_get_storage : never_raises get_storage.
Proof. intros w. by eexists. Qed.

Lemma never_raises_put_storage s : never_raises (put_storage s).
Proof. intros w. by eexists. Qed.

(** One step through a method: the goal is about a [bind], a [mapM], a
    [match], a return or a raise. *)
Ltac mstep :=
  lazymatch goal with
  | |- preserves _ (mret _) => apply preserves_ret; try tc_solve
  | |- preserves _ (raise _) => apply preserves_raise; try tc_solve
  | |- preserves _ get_storage => apply preserves_get_storage; try tc_solve
  | |- preserves _ (mbind _ _) => apply preserves_bind; [try tc_solve| |intros ?]
  | |- preserves _ (mapM _ _) => apply preserves_mapM; [try tc_solve|intros ? ?]
  | |- preserves _ (match ?x with _ => _ end) => destruct x
  | |- respects _ (mret _) => apply respects_ret
  | |- respects _ (raise _) => apply respects_raise
  | |- respects _ (mbind _ _) => apply respects_bind; [|intros ?]
  | |- respects _ (mapM _ _) => apply respects_mapM; intros ? ?
  | |- respects _ (match ?x with _ => _ end) => destruct x
  end.

(** ** Reads leave the rows in place *)

Section ReadFacts.
Context `{!Adapters}.

Lemma atoms_lens : table_lens atoms set_atoms.
Proof. split; [intros d s Hd; by split_and!|by intros s s' (?&?&?&?&?&?)]. Qed.

Lemma shapes_lens : table_lens shapes set_shapes.
Proof. split; [intros d s Hd; by split_and!|by intros s s' (?&?&?&?&?&?)]. Qed.

Lemma ops_lens : table_lens ops set_ops.
Proof. split; [intros d s Hd; by split_and!|by intros s s' (?&?&?&?&?&?)]. Qed.

Lemma table_get_reads {V} tbl upd k :
  table_lens tbl upd → preserves reads_only (@table_get V tbl upd k).
Proof.
  intros [Hupd _] w. unfold table_get. rewrite bind_run. simpl.
  pose proof (get_same_table (tbl (storage w)) k) as Hsame.
  destruct (Cached.get (tbl (storage w)) k) as [[v|] d]; simpl in *; [|done].
  split_and!; simpl; [by apply Hupd|done..].
Qed.

Lemma table_get_respects {V} tbl upd k :
  table_lens tbl upd → respects writes_nothing (@table_get V tbl upd k).
Proof.
  intros [Hupd Htbl] w w' [Hrows Hctx]. unfold table_get. rewrite !bind_run. simpl.
  pose proof (get_same_table (tbl (storage w)) k) as Hsame.
  pose proof (get_same_table (tbl (storage w')) k) as Hsame'.
  pose proof (get_view (tbl (storage w)) k) as Hv.
  pose proof (get_view (tbl (storage w')) k) as Hv'.
  destruct (Htbl _ _ Hrows) as (_&_&Hview).
  rewrite (Hview k), <- Hv' in Hv.
  destruct (Cached.get (tbl (storage w)) k) as [[v|] d],
           (Cached.get (tbl (storage w')) k) as [[v'|] d']; simpl in *; simplify_eq.
  - split; [done|]. split; [|done]. simpl.
    etrans; [symmetry; by apply Hupd|]. etrans; [exact Hrows|]. by apply Hupd.
  - by split.
Qed.

Lemma table_get_view {V} tbl upd k w :
  (@table_get V tbl upd k w).1 =
    match Cached.view (tbl (storage w)) k with Some v => inr v | None => inl (KeyError k) end.
Proof.
  unfold table_get. rewrite bind_run. simpl.
  pose proof (get_view (tbl (storage w)) k) as Hv.
  destruct (Cached.get (tbl (storage w)) k) as [[v|] d]; simpl in *; by rewrite <- Hv.
Qed.

Lemma table_exists_reads {V} (tbl : Storage → CachedDictStorage V) k :
  preserves reads_only (table_exists tbl k).
Proof. intros w. simpl. reflexivity. Qed.

Lemma table_exists_respects {V} tbl upd k :
  @table_lens V tbl upd → respects writes_nothing (table_exists tbl k).
Proof.
  intros [_ Htbl] w w' [Hrows Hctx]. simpl. split; [|by split]. f_equal.
  by apply same_table_exists, Htbl.
Qed.

Lemma log_invocation_writes_nothing n h : preserves writes_nothing (log_invocation n h).
Proof. intros w. by split. Qed.

Lemma log_invocation_respects n h : respects writes_nothing (log_invocation n h).
Proof. by intros w w' [? ?]. Qed.

Lemma same_rows_calls_exists s s' h : same_rows s s' → calls_exists s h = calls_exists s' h.
Proof. intros (Hc&_&Hs&_). unfold calls_exists. by rewrite Hc, Hs. Qed.

Lemma exists_call_reads h : preserves reads_only (exists_call h).
Proof. intros w. simpl. reflexivity. Qed.

Lemma exists_call_respects h : respects writes_nothing (exists_call h).
Proof.
  intros w w' [Hrows Hctx]. simpl. split; [|by split]. f_equal.
  by apply same_rows_calls_exists.
Qed.

Lemma get_data_reads h : preserves reads_only (get_data h).
Proof.
  intros w. unfold get_data. rewrite bind_run. simpl.
  destruct (call_cache (storage w) !! h); [reflexivity|].
  destruct (call_storage (storage w) !! h); reflexivity.
Qed.

Lemma get_data_respects h : respects writes_nothing (get_data h).
Proof.
  intros w w' [Hrows Hctx]. unfold get_data. rewrite !bind_run. simpl.
  pose proof Hrows as (Hc&_&Hs&_). rewrite <- Hc, <- Hs.
  destruct (call_cache (storage w) !! h); [by split|].
  destruct (call_storage (storage w) !! h); by split.
Qed.

Lemma load_ref_at_reads depth h lazy : preserves reads_only (load_ref_at depth h lazy).
Proof.
  revert h. induction depth as [|depth IH]; intros h; simpl; [mstep|].
  mstep; [by apply table_get_reads, shapes_lens|].
  mstep.
  - destruct lazy; [mstep|]. mstep; [by apply table_get_reads, atoms_lens|mstep].
  - mstep; [|mstep]. mstep. apply IH.
Qed.

Lemma load_ref_at_respects depth h lazy : respects writes_nothing (load_ref_at depth h lazy).
Proof.
  revert h. induction depth as [|depth IH]; intros h; simpl; [mstep|].
  mstep; [by eapply table_get_respects, shapes_lens|].
  mstep.
  - destruct lazy; [mstep|]. mstep; [by eapply table_get_respects, atoms_lens|mstep].
  - mstep; [|mstep]. mstep. apply IH.
Qed.

Lemma get_call_reads h lazy : preserves reads_only (get_call h lazy).
Proof.
  unfold get_call. mstep; [apply get_data_reads|].
  mstep; [by apply table_get_reads, ops_lens|].
  mstep; [mstep; mstep; [apply load_ref_at_reads|mstep]|].
  mstep; [mstep; mstep; [apply load_ref_at_reads|mstep]|mstep].
Qed.

Lemma get_call_respects h lazy : respects writes_nothing (get_call h lazy).
Proof.
  unfold get_call. mstep; [apply get_data_respects|].
  mstep; [by eapply table_get_respects, ops_lens|].
  mstep; [mstep; mstep; [apply load_ref_at_respects|mstep]|].
  mstep; [mstep; mstep; [apply load_ref_at_respects|mstep]|mstep].
Qed.

Lemma _unwrap_atom_reads o : preserves reads_only (_unwrap_atom o).
Proof.
  destruct o as [c h m v|c h m l]; simpl; [|mstep].
  destruct m; simpl; [mstep|]. mstep; [apply load_ref_at_reads|mstep].
Qed.

Lemma _unwrap_atom_respects o : respects writes_nothing (_unwrap_atom o).
Proof.
  destruct o as [c h m v|c h m l]; simpl; [|mstep].
  destruct m; simpl; [mstep|]. mstep; [apply load_ref_at_respects|mstep].
Qed.

Lemma unwrap_reads o : preserves reads_only (unwrap o).
Proof.
  induction o as [c h m v|c h m l IH] using Ref_ind'.
  - apply _unwrap_atom_reads.
  - simpl. mstep; [|mstep]. apply preserves_mapM; [tc_solve|].
    intros x Hx. by eapply Forall_forall in IH.
Qed.

Lemma unwrap_respects o : respects writes_nothing (unwrap o).
Proof.
  induction o as [c h m v|c h m l IH] using Ref_ind'.
  - apply _unwrap_atom_respects.
  - simpl. mstep; [|mstep]. apply respects_mapM.
    intros x Hx. by eapply Forall_forall in IH.
Qed.

Lemma dict_lookup_reads {A} (d : list (string * A)) k : preserves reads_only (dict_lookup d k).
Proof. unfold dict_lookup. destruct (dict_get d k); mstep. Qed.

Lemma dict_lookup_respects {A} (d : list (string * A)) k :
  respects writes_nothing (dict_lookup d k).
Proof. unfold dict_lookup. destruct (dict_get d k); mstep. Qed.

Lemma changed_inputs_reads before after : preserves reads_only (changed_inputs before after).
Proof.
  unfold changed_inputs. mstep; [|mstep]. mstep. mstep; [apply dict_lookup_reads|mstep].
Qed.

Lemma changed_inputs_respects before after :
  respects writes_nothing (changed_inputs before after).
Proof.
  unfold changed_inputs. mstep; [|mstep]. mstep. mstep; [apply dict_lookup_respects|mstep].
Qed.

End ReadFacts.

(** ** Memoized calls write no row *)

Section MemoFacts.
Context `{!Adapters}.

Ltac reads := eapply preserves_weaken; [exact reads_only_writes_nothing|].

Ltac read_lemma :=
  first [ apply dict_lookup_reads | apply exists_call_reads | apply get_call_reads
        | apply unwrap_reads | apply changed_inputs_reads | apply load_ref_at_reads ].

Ltac respect_lemma :=
  first [ apply dict_lookup_respects | apply exists_call_respects | apply get_call_respects
        | apply unwrap_respects | apply changed_inputs_respects | apply load_ref_at_respects
        | apply log_invocation_respects ].

Lemma memo_writes_nothing depth :
  (∀ op inputs tps, preserves writes_nothing (call_internal_at depth op inputs tps)) ∧
  (∀ tp val, preserves writes_nothing (construct_at depth tp val)) ∧
  (∀ ref tp, preserves writes_nothing (destruct_at depth ref tp)).
Proof.
  induction depth as [|d (IHc & IHk & IHd)].
  - split_and!; intros; simpl; mstep.
  - split_and!; intros; simpl;
      repeat first [ apply IHc | apply IHk | apply IHd | apply log_invocation_writes_nothing
                   | (reads; read_lemma) | mstep
                   | progress unfold get_struct_builder, get_struct_inputs, get_struct_tps ].
Qed.

Lemma memo_respects depth :
  (∀ op inputs tps, respects writes_nothing (call_internal_at depth op inputs tps)) ∧
  (∀ tp val, respects writes_nothing (construct_at depth tp val)) ∧
  (∀ ref tp, respects writes_nothing (destruct_at depth ref tp)).
Proof.
  induction depth as [|d (IHc & IHk & IHd)].
  - split_and!; intros; simpl; mstep.
  - split_and!; intros; simpl;
      repeat first [ apply IHc | apply IHk | apply IHd | respect_lemma | mstep
                   | progress unfold get_struct_builder, get_struct_inputs, get_struct_tps ].
Qed.

Lemma call_internal_at_writes_nothing depth op inputs tps :
  preserves writes_nothing (call_internal_at depth op inputs tps).
Proof. apply memo_writes_nothing. Qed.

Lemma construct_at_writes_nothing depth tp val :
  preserves writes_nothing (construct_at depth tp val).
Proof. apply memo_writes_nothing. Qed.

Lemma call_internal_at_respects depth op inputs tps :
  respects writes_nothing (call_internal_at depth op inputs tps).
Proof. apply memo_respects. Qed.

Lemma construct_at_respects depth tp val :
  respects writes_nothing (construct_at depth tp val).
Proof. apply memo_respects. Qed.

Lemma destruct_at_respects depth ref tp :
  respects writes_nothing (destruct_at depth ref tp).
Proof. apply memo_respects. Qed.

(** Inputs that are refs already are taken as they are, and no structural
    call is made for them. *)
Lemma construct_refs d tps (wrapped : list (string * Ref)) w :
  typed_by tps wrapped →
  mapM (λ kv : string * value,
          tp ← dict_lookup tps kv.1;
          '(r, struct_calls) ← construct_at (S d) tp kv.2;
          mret ((kv.1, r), struct_calls))
       (as_values wrapped) w
  = (inr ((λ kv, (kv, [])) <$> wrapped), w).
Proof.
  induction 1 as [|[k r] l [tp Htp] Hl IH]; [done|].
  unfold as_values. rewrite fmap_cons, mapM_cons. simpl in *.
  rewrite bind_run. unfold dict_lookup at 1. rewrite Htp. simpl.
  rewrite bind_run. fold (as_values l). rewrite IH. done.
Qed.

Lemma fst_no_calls (wrapped : list (string * Ref)) :
  ((λ kv, (kv, @nil Call)) <$> wrapped).*1 = wrapped.
Proof.
  induction wrapped as [|x l IH]; [done|]. rewrite !fmap_cons. simpl. f_equal. exact IH.
Qed.

Lemma concat_no_calls (wrapped : list (string * Ref)) :
  concat ((λ kv, (kv, @nil Call)) <$> wrapped).*2 = [].
Proof.
  induction wrapped as [|x l IH]; [done|]. rewrite !fmap_cons. simpl. exact IH.
Qed.

End MemoFacts.

(** ** Provenance queries inside a context *)

Lemma in_context_open w : current_context w ≠ None → in_context w = (inr true, w).
Proof. intros Hctx. unfold in_context. by rewrite bool_decide_eq_true_2. Qed.

Lemma in_context_closed w : current_context w = None → in_context w = (inr false, w).
Proof. intros Hctx. unfold in_context. rewrite bool_decide_eq_false_2; [done|]. by intros []. Qed.

(** C8: while a context is open ([Context.current_context] is set), each of
    the queries [get_orphans], [get_unreferenced_cids], [get_creators] and
    [get_consumers] raises the error "Method not supported while in a
    context." instead of returning a result, and leaves the world as it
    found it. *)
Theorem queries_refused_in_context {A : Adapters} (w : World) (ref_hids : list string) :
  current_context w ≠ None →
  get_orphans w = (inl (NotImplementedError in_context_msg), w) ∧
  get_unreferenced_cids w = (inl (NotImplementedError in_context_msg), w) ∧
  get_creators ref_hids w = (inl (NotImplementedError in_context_msg), w) ∧
  get_consumers ref_hids w = (inl (NotImplementedError in_context_msg), w).
Proof.
  intros Hctx. unfold get_orphans, get_unreferenced_cids, get_creators, get_consumers.
  rewrite !bind_run, (in_context_open w Hctx). done.
Qed.

Lemma queries_refused_in_context_witness :
  let w := (__enter__ empty_world).2 in
  current_context w ≠ None ∧
  get_orphans w = (inl (NotImplementedError in_context_msg), w) ∧
  get_unreferenced_cids w = (inl (NotImplementedError in_context_msg), w) ∧
  @get_creators Demo.adapters ["h(1)"] w = (inl (NotImplementedError in_context_msg), w) ∧
  @get_consumers Demo.adapters ["h(1)"] w = (inl (NotImplementedError in_context_msg), w).
Proof.
  intros w. split; [done|].
  apply (@queries_refused_in_context Demo.adapters w ["h(1)"]). done.
Defined.

(** ** Dropping calls *)

#[global] Instance same_refs_equiv : Equivalence same_refs.
Proof.
  split.
  - intros w. by split_and!.
  - intros w w' (?&?&?&?&?). by split_and!.
  - intros w1 w2 w3 (?&?&?&?&?) (?&?&?&?&?). split_and!; congruence.
Qed.

(** C10: [drop_calls] returns, and changes only the call cache and the
    durable call table: the [shapes], [atoms] and [ops] tables (cache, dirty
    markers and durable rows) are the same afterwards, for every set of call
    hids and either value of [delete_dependents]; the refs of the dropped
    calls stay until [cleanup_refs] is run. *)
Theorem drop_calls_keeps_refs get_dependents (hids : gset string) (delete_dependents : bool)
    (w : World) :
  let w' := (drop_calls get_dependents hids delete_dependents w).2 in
  (drop_calls get_dependents hids delete_dependents w).1 = inr () ∧
  shapes (storage w') = shapes (storage w) ∧
  atoms (storage w') = atoms (storage w) ∧
  ops (storage w') = ops (storage w).
Proof.
  intros w'. split.
  - assert (never_raises (drop_calls get_dependents hids delete_dependents)) as Hret.
    { unfold drop_calls. apply never_raises_bind; [apply never_raises_get_storage|intros s].
      apply never_raises_bind.
      { apply never_raises_mapM. intros h _.
        apply never_raises_bind; [apply never_raises_get_storage|intros s'].
        destruct (bool_decide _); [apply never_raises_put_storage|apply never_raises_ret]. }
      intros _. apply never_raises_bind; [|intros _; apply never_raises_ret].
      apply never_raises_mapM. intros h _.
      apply never_raises_bind; [apply never_raises_get_storage|intros s'].
      apply never_raises_put_storage. }
    destruct (Hret w) as [[] Hx]. exact Hx.
  - assert (preserves same_refs (drop_calls get_dependents hids delete_dependents)) as Hpres.
    { unfold drop_calls. mstep; [mstep|]. mstep.
      { mstep. intros w0. rewrite bind_run. simpl. by destruct (bool_decide _). }
      mstep; [|mstep]. mstep. intros w0. by rewrite bind_run. }
    destruct (Hpres w) as (?&?&?&_). by split_and!.
Qed.

(** ** Saving refs *)

#[global] Instance extends_preorder : PreOrder extends.
Proof.
  split.
  - intros w. by split_and!.
  - intros w1 w2 w3 (Hs&Ha&?&?&?&?&?&?) (Hs'&Ha'&?&?&?&?&?&?).
    split_and!; [|naive_solver|congruence..]. intros k s Hk. by apply Hs', Hs.
Qed.

Section SaveFacts.
Context `{!Adapters}.

Lemma table_set_run {V} tbl upd k (v : V) w :
  table_set tbl upd k v w
  = (inr (), mkWorld (upd (Cached.set (tbl (storage w)) k v) (storage w))
                     (current_context w) (invoked w)).
Proof. done. Qed.

Lemma save_ref_unfold ref w :
  save_ref ref w =
    if Cached.exists_ (shapes (storage w)) (hid ref) then (inr (), w)
    else match ref with
         | AtomRef c h _ o =>
             (table_set atoms set_atoms c (serialize o);;
              table_set shapes set_shapes h (detached ref)) w
         | ListRef c h _ l =>
             (table_set shapes set_shapes h (shape ref);; mapM save_ref l;; mret ()) w
         end.
Proof.
  destruct ref as [c h m o|c h m l]; simpl; rewrite bind_run; simpl;
    by destruct (Cached.exists_ (shapes (storage w)) h).
Qed.

Lemma save_ref_known ref w :
  Cached.exists_ (shapes (storage w)) (hid ref) = true → save_ref ref w = (inr (), w).
Proof. intros Hk. by rewrite save_ref_unfold, Hk. Qed.

(** Writing the shape of a history id that has none extends the storage. *)
Lemma set_shape_extends h shp w :
  Cached.view (shapes (storage w)) h = None →
  extends w (table_set shapes set_shapes h shp w).2.
Proof.
  intros Hnone. split_and!; simpl; [|done..]. intros k s Hk.
  rewrite view_set. destruct (decide (h = k)) as [<-|]; [congruence|done].
Qed.

Lemma set_atom_extends c b w : extends w (table_set atoms set_atoms c b w).2.
Proof.
  split_and!; simpl; [done| |done..]. intros k Hk.
  rewrite view_set. by destruct (decide (c = k)).
Qed.

Lemma save_ref_extends ref : preserves extends (save_ref ref).
Proof.
  induction ref as [c h m o|c h m l IH] using Ref_ind'; intros w;
    rewrite save_ref_unfold; cbn [hid];
    destruct (Cached.exists_ (shapes (storage w)) h) eqn:Hk; try reflexivity;
    apply exists_view_false in Hk.
  - rewrite bind_run, table_set_run. etrans; [apply (set_atom_extends c (serialize o) w)|].
    rewrite table_set_run. apply set_shape_extends. exact Hk.
  - rewrite bind_run.
    pose proof (set_shape_extends h (shape (ListRef c h m l)) w Hk) as Hw1.
    rewrite table_set_run in Hw1 |- *. set (w1 := mkWorld _ _ _) in *.
    assert (preserves extends (mapM save_ref l)) as Hl.
    { apply preserves_mapM; [tc_solve|]. intros x Hx. by eapply Forall_forall in IH. }
    specialize (Hl w1). rewrite bind_run.
    destruct (mapM save_ref l w1) as [[e|x] w2]; simpl in *; by etrans.
Qed.

Lemma save_ref_never_raises ref : never_raises (save_ref ref).
Proof.
  induction ref as [c h m o|c h m l IH] using Ref_ind'; intros w;
    rewrite save_ref_unfold; cbn [hid];
    destruct (Cached.exists_ (shapes (storage w)) h); try by eexists.
  rewrite bind_run, table_set_run. set (w1 := mkWorld _ _ _).
  assert (never_raises (mapM save_ref l)) as Hl.
  { apply never_raises_mapM. intros x Hx. by eapply Forall_forall in IH. }
  destruct (Hl w1) as [x Hx]. rewrite bind_run.
  destruct (mapM save_ref l w1) as [[e|y] w2]; simpl in *; [done|by eexists].
Qed.

Lemma save_ref_returns ref w : (save_ref ref w).1 = inr ().
Proof. destruct (save_ref_never_raises ref w) as [[] Hx]. exact Hx. Qed.

(** After [save_ref], the history id of the ref has a shape. *)
Lemma save_ref_has_shape ref w :
  Cached.exists_ (shapes (storage (save_ref ref w).2)) (hid ref) = true.
Proof.
  destruct (Cached.exists_ (shapes (storage w)) (hid ref)) eqn:Hk.
  { by rewrite (save_ref_known _ _ Hk). }
  rewrite save_ref_unfold, Hk. destruct ref as [c h m o|c h m l]; cbn [hid].
  - rewrite bind_run, !table_set_run. simpl. apply exists_view. rewrite view_set.
    by rewrite decide_True.
  - rewrite bind_run, table_set_run. set (w1 := mkWorld _ _ _).
    assert (is_Some (Cached.view (shapes (storage w1)) h)) as [s Hs].
    { subst w1. simpl. rewrite view_set. by rewrite decide_True. }
    assert (preserves extends (mapM save_ref l)) as Hl.
    { apply preserves_mapM; [tc_solve|]. intros x _. apply save_ref_extends. }
    specialize (Hl w1). rewrite bind_run.
    destruct (mapM save_ref l w1) as [[e|x] w2]; simpl in *;
      apply exists_view; destruct Hl as [Hl _]; rewrite (Hl _ _ Hs); by eexists.
Qed.

(** C5: [save_ref] is idempotent.  For a ref whose history id is already in
    the [shapes] table it does nothing at all; and saving any ref a second
    time leaves the whole storage, so the [atoms] and [shapes] tables, as
    the first save left it.  This holds for every ref, so for the ref
    [wrap_atom v h] of every value [v]. *)
Theorem save_ref_idempotent (ref : Ref) (w : World) :
  (Cached.exists_ (shapes (storage w)) (hid ref) = true → save_ref ref w = (inr (), w)) ∧
  save_ref ref (save_ref ref w).2 = (inr (), (save_ref ref w).2) ∧
  (∀ v h, save_ref (wrap_atom v h) (save_ref (wrap_atom v h) w).2
          = (inr (), (save_ref (wrap_atom v h) w).2)).
Proof.
  split; [apply save_ref_known|]. split; [|intros v h];
    apply save_ref_known, save_ref_has_shape.
Qed.

End SaveFacts.

Lemma save_ref_idempotent_witness :
  let w := (@save_ref Demo.adapters Demo.one empty_world).2 in
  Cached.exists_ (shapes (storage w)) (hid Demo.one) = true ∧
  @save_ref Demo.adapters Demo.one w = (inr (), w).
Proof.
  intros w.
  assert (Cached.exists_ (shapes (storage w)) (hid Demo.one) = true) as Hk by (by vm_compute).
  split; [exact Hk|].
  exact (proj1 (@save_ref_idempotent Demo.adapters Demo.one w) Hk).
Defined.

(** ** Garbage collection *)

Section SweepFacts.

Lemma drop_all_persistent {V} (d : CachedDictStorage V) ks k :
  persistent (drop_all d ks) !! k = if decide (k ∈ ks) then None else persistent d !! k.
Proof.
  revert d. induction ks as [|k' ks IH]; intros d.
  { case_decide as Hin; [by apply not_elem_of_nil in Hin|done]. }
  unfold drop_all in *. cbn [foldl]. rewrite IH. cbn [Cached.drop persistent cache].
  destruct (decide (k ∈ ks)) as [Hin|Hnin].
  - rewrite decide_True; [done|]. by right.
  - destruct (decide (k = k')) as [->|Hne].
    + rewrite lookup_delete_eq. rewrite decide_True; [done|]. left.
    + rewrite lookup_delete_ne; [|done]. rewrite decide_False; [done|].
      intros [?|?]%elem_of_cons; done.
Qed.

Lemma drop_ref_hid_run h w :
  _drop_ref_hid h false w
  = (inr (), mkWorld (set_shapes (Cached.drop (shapes (storage w)) h) (storage w))
                     (current_context w) (invoked w)).
Proof. done. Qed.

Lemma drop_hids_run ks w :
  ∃ r, mapM (λ h, _drop_ref_hid h false) ks w
       = (inr r, mkWorld (set_shapes (drop_all (shapes (storage w)) ks) (storage w))
                         (current_context w) (invoked w)).
Proof.
  revert w. induction ks as [|k ks IH]; intros w.
  { exists []. by destruct w as [[]]. }
  rewrite mapM_cons, bind_run, drop_ref_hid_run.
  destruct (IH (mkWorld (set_shapes (Cached.drop (shapes (storage w)) k) (storage w))
                        (current_context w) (invoked w))) as [r Hr].
  exists (() :: r). rewrite bind_run, Hr. done.
Qed.

Lemma drop_all_cache {V} (d : CachedDictStorage V) ks k :
  cache (drop_all d ks) !! k = if decide (k ∈ ks) then None else cache d !! k.
Proof.
  revert d. induction ks as [|k' ks IH]; intros d.
  { case_decide as Hin; [by apply not_elem_of_nil in Hin|done]. }
  unfold drop_all in *. cbn [foldl]. rewrite IH. cbn [Cached.drop persistent cache].
  destruct (decide (k ∈ ks)) as [Hin|Hnin].
  - rewrite decide_True; [done|]. by right.
  - destruct (decide (k = k')) as [->|Hne].
    + rewrite lookup_delete_eq. rewrite decide_True; [done|]. left.
    + rewrite lookup_delete_ne; [|done]. rewrite decide_False; [done|].
      intros [?|?]%elem_of_cons; done.
Qed.

Lemma drop_ref_run c w :
  _drop_ref c false w
  = (inr (), mkWorld (set_atoms (Cached.drop (atoms (storage w)) c) (storage w))
                     (current_context w) (invoked w)).
Proof. done. Qed.

Lemma drop_cids_run ks w :
  ∃ r, mapM (λ c, _drop_ref c false) ks w
       = (inr r, mkWorld (set_atoms (drop_all (atoms (storage w)) ks) (storage w))
                         (current_context w) (invoked w)).
Proof.
  revert w. induction ks as [|k ks IH]; intros w.
  { exists []. by destruct w as [[]]. }
  rewrite mapM_cons, bind_run, drop_ref_run.
  destruct (IH (mkWorld (set_atoms (Cached.drop (atoms (storage w)) k) (storage w))
                        (current_context w) (invoked w))) as [r Hr].
  exists (() :: r). rewrite bind_run, Hr. done.
Qed.

Lemma cleanup_refs_phases w : cleanup_refs w = (sweep_shapes;; sweep_atoms) w.
Proof.
  unfold cleanup_refs, sweep_shapes, sweep_atoms. rewrite !bind_run.
  destruct (get_orphans w) as [[e|orphans] w1]; [done|]. rewrite !bind_run.
  match goal with |- context [mapM ?g ?l ?w] => destruct (mapM g l w) as [[e|r] w2] end;
    [done|].
  cbn [mret M_ret]. rewrite !bind_run.
  destruct (get_unreferenced_cids w2) as [[e|cs] w3]; [done|]. rewrite !bind_run.
  by match goal with |- context [mapM ?g ?l ?w] => destruct (mapM g l w) as [[e|r'] w4] end.
Qed.

Lemma elem_of_cids_in_shapes s c :
  c ∈ cids_in_shapes s ↔ ∃ h shp, persistent (shapes s) !! h = Some shp ∧ cid shp = c.
Proof.
  unfold cids_in_shapes. rewrite elem_of_list_to_set, list_elem_of_fmap. split.
  - intros ([h shp] & -> & Hin%elem_of_map_to_list). by exists h, shp.
  - intros (h & shp & Hl & <-). exists (h, shp). split; [done|]. by apply elem_of_map_to_list.
Qed.

(** C7: outside a context [cleanup_refs] returns, and it is a sweep in two
    phases, in this order.  First the orphans go from [shapes]: the history
    ids of the durable shapes that are no input and no output of a durable
    call are dropped (from the durable table and from the cache), and no
    other.  Then the unreferenced content ids go from [atoms]: the content
    ids of the durable atoms that are the content id of no ref of a durable
    call and of no shape that survived the first phase, and no other.  The
    calls and the ops are left alone. *)
Theorem cleanup_refs_two_phases (w : World) :
  current_context w = None →
  let s := storage w in
  let orphans : gset string := dom (persistent (shapes s)) ∖ hids_in_calls (call_storage s) in
  ∃ w',
    cleanup_refs w = (inr (), w') ∧
    cleanup_refs w = (sweep_shapes ≫= λ _, sweep_atoms) w ∧
    let s' := storage w' in
    let unreferenced : gset string :=
      (dom (persistent (atoms s)) ∖ cids_in_calls (call_storage s)) ∖ cids_in_shapes s' in
    (∀ h, persistent (shapes s') !! h
          = if decide (h ∈ orphans) then None else persistent (shapes s) !! h) ∧
    (∀ h, cache (shapes s') !! h
          = if decide (h ∈ orphans) then None else cache (shapes s) !! h) ∧
    (∀ c, c ∈ cids_in_shapes s' ↔
          ∃ h shp, (h ∉ orphans) ∧ persistent (shapes s) !! h = Some shp ∧ cid shp = c) ∧
    (∀ c, persistent (atoms s') !! c
          = if decide (c ∈ unreferenced) then None else persistent (atoms s) !! c) ∧
    (∀ c, cache (atoms s') !! c
          = if decide (c ∈ unreferenced) then None else cache (atoms s) !! c) ∧
    call_cache s' = call_cache s ∧ call_storage s' = call_storage s ∧ ops s' = ops s.
Proof.
  intros Hctx s orphans.
  set (w1 := mkWorld (set_shapes (drop_all (shapes s) (elements orphans)) s)
                     (current_context w) (invoked w)).
  set (unref := (dom (persistent (atoms s)) ∖ cids_in_calls (call_storage s))
                ∖ cids_in_shapes (storage w1)).
  set (w2 := mkWorld (set_atoms (drop_all (atoms (storage w1)) (elements unref)) (storage w1))
                     (current_context w1) (invoked w1)).
  assert (cleanup_refs w = (inr (), w2)) as Hrun.
  { unfold cleanup_refs. rewrite bind_run. unfold get_orphans.
    rewrite bind_run, (in_context_closed w Hctx). rewrite bind_run. cbn -[mapM].
    fold s. fold orphans. rewrite bind_run.
    destruct (drop_hids_run (elements orphans) w) as [r ->]. fold s. fold w1.
    rewrite bind_run. unfold get_unreferenced_cids.
    rewrite bind_run, (in_context_closed w1 Hctx). rewrite bind_run. cbn -[mapM].
    change (dom _ ∖ _ ∖ cids_in_shapes _) with unref. rewrite bind_run.
    destruct (drop_cids_run (elements unref) w1) as [r' ->]. done. }
  exists w2. split; [exact Hrun|]. split; [apply cleanup_refs_phases|].
  assert (∀ h, persistent (shapes (storage w2)) !! h
               = if decide (h ∈ orphans) then None else persistent (shapes s) !! h) as Hshapes.
  { intros h. simpl. rewrite drop_all_persistent.
    destruct (decide (h ∈ orphans)) as [Hin|Hnin].
    - rewrite decide_True; [done|]. by apply elem_of_elements.
    - rewrite decide_False; [done|]. by rewrite elem_of_elements. }
  assert (cids_in_shapes (storage w2) = cids_in_shapes (storage w1)) as Hcs by done.
  cbn zeta. rewrite Hcs. fold unref. split_and!; try done.
  - intros h. simpl. rewrite drop_all_cache.
    destruct (decide (h ∈ orphans)) as [Hin|Hnin].
    + rewrite decide_True; [done|]. by apply elem_of_elements.
    + rewrite decide_False; [done|]. by rewrite elem_of_elements.
  - intros c. rewrite <- Hcs, elem_of_cids_in_shapes. split.
    + intros (h & shp & Hl & Hc). rewrite Hshapes in Hl.
      destruct (decide (h ∈ orphans)); [done|]. by exists h, shp.
    + intros (h & shp & Hnin & Hl & Hc). exists h, shp. rewrite Hshapes.
      by rewrite decide_False.
  - intros c. simpl. rewrite drop_all_persistent.
    destruct (decide (c ∈ unref)) as [Hin|Hnin].
    + rewrite decide_True; [done|]. by apply elem_of_elements.
    + rewrite decide_False; [done|]. by rewrite elem_of_elements.
  - intros c. simpl. rewrite drop_all_cache.
    destruct (decide (c ∈ unref)) as [Hin|Hnin].
    + rewrite decide_True; [done|]. by apply elem_of_elements.
    + rewrite decide_False; [done|]. by rewrite elem_of_elements.
Qed.

End SweepFacts.

Lemma cleanup_refs_two_phases_witness :
  let w := (commit (@save_ref Demo.adapters Demo.one_two empty_world).2).2 in
  current_context w = None ∧
  ∃ w', cleanup_refs w = (inr (), w') ∧
        persistent (shapes (storage w')) = ∅ ∧ persistent (atoms (storage w')) = ∅.
Proof.
  intros w. split; [done|].
  destruct (cleanup_refs_two_phases w eq_refl)
    as (w' & Hrun & _ & Hshapes & _ & Hcids & Hatoms & _).
  exists w'. split; [exact Hrun|]. split.
  - apply map_eq. intros h. rewrite Hshapes, lookup_empty.
    destruct (decide _) as [|Hnin]; [done|].
    apply not_elem_of_dom. intros Hdom. apply Hnin. apply elem_of_difference.
    split; [exact Hdom|]. by vm_compute.
  - apply map_eq. intros c. rewrite Hatoms, lookup_empty.
    destruct (decide _) as [|Hnin]; [done|].
    apply not_elem_of_dom. intros Hdom. apply Hnin. apply elem_of_difference.
    split; [apply elem_of_difference; split; [exact Hdom|by vm_compute]|].
    rewrite Hcids. intros (h & shp & Hh & Hl & _). apply Hh. apply elem_of_difference.
    split; [by apply elem_of_dom_2 in Hl|]. by vm_compute.
Defined.

(** ** A memoization hit *)

Section MemoHit.
Context `{!Adapters}.

Lemma exists_call_run h w : exists_call h w = (inr (calls_exists (storage w) h), w).
Proof. done. Qed.

(** The steps of [call_internal] up to the check for the call, for inputs
    that are refs. *)
Lemma call_internal_at_refs d op (wrapped : list (string * Ref)) tps w :
  typed_by tps wrapped →
  call_internal_at (S (S d)) op (as_values wrapped) tps w =
    if calls_exists (storage w) (get_call_history_id op wrapped)
    then (main_call ← get_call (get_call_history_id op wrapped) true;
          mret (outputs main_call, main_call, [])) w
    else (call_internal_at (S (S d)) op (as_values wrapped) tps) w.
Proof.
  intros Htps. destruct (calls_exists _ _) eqn:Hex; [|done].
  cbn [call_internal_at]. rewrite bind_run, (construct_refs _ _ _ _ Htps).
  rewrite fst_no_calls, concat_no_calls.
  rewrite bind_run, exists_call_run, Hex. done.
Qed.

(** On a hit, for inputs that are refs, [call_internal] returns what
    [get_call] reads, with no structural call, and raises what it raises;
    the log of invocations is as before and no row is written. *)
Lemma call_internal_hit (op : Op) (wrapped : list (string * Ref))
    (tps : list (string * Tp)) (w : World) :
  (2 ≤ recursion_limit)%nat →
  typed_by tps wrapped →
  calls_exists (storage w) (get_call_history_id op wrapped) = true →
  call_internal op (as_values wrapped) tps w =
    match get_call (get_call_history_id op wrapped) true w with
    | (inr c, w1) => (inr (outputs c, c, []), w1)
    | (inl e, w1) => (inl e, w1)
    end ∧
  invoked (call_internal op (as_values wrapped) tps w).2 = invoked w ∧
  same_rows (storage w) (storage (call_internal op (as_values wrapped) tps w).2).
Proof.
  intros Hlim Htps Hex. unfold call_internal.
  destruct recursion_limit as [|[|d]]; [lia..|].
  rewrite (call_internal_at_refs _ _ _ _ _ Htps), Hex, bind_run.
  pose proof (get_call_reads (get_call_history_id op wrapped) true w) as (Hrows & _ & Hlog).
  destruct (get_call _ true w) as [[e|c] w1]; by split_and!.
Qed.
End MemoHit.

(** ** The guard against side effects *)

Lemma dict_get_elem {A} (d : list (string * A)) k v : dict_get d k = Some v → (k, v) ∈ d.
Proof.
  unfold dict_get. induction d as [|[k' v'] d IH]; [done|]. simpl.
  case_bool_decide as Hk; simpl in *.
  - intros [= <-]. subst. left.
  - intros Hd. right. by apply IH.
Qed.

Lemma dict_get_is_Some {A} (d : list (string * A)) k : k ∈ d.*1 → is_Some (dict_get d k).
Proof.
  unfold dict_get. induction d as [|[k' v'] d IH]; [by intros ?%not_elem_of_nil|].
  rewrite fmap_cons. simpl. intros Hk. case_bool_decide as Hk'; simpl in *; [by eexists|].
  apply IH. by apply elem_of_cons in Hk as [->|Hk].
Qed.

(** A loop that maps every entry to an entry of the same name keeps the
    names. *)
Lemma mapM_keeps_names {A B} (g : string * A → M B) (name_of : B → string) l w r w' :
  (∀ kv w0 y w1, g kv w0 = (inr y, w1) → name_of y = kv.1) →
  mapM g l w = (inr r, w') → name_of <$> r = l.*1.
Proof.
  intros Hg. revert w r. induction l as [|kv l IH]; intros w r.
  { by intros [= <- <-]. }
  rewrite mapM_cons, bind_run. destruct (g kv w) as [[e|y] w1] eqn:Hy; [done|].
  rewrite bind_run. destruct (mapM g l w1) as [[e|ys] w2] eqn:Hys; [done|].
  intros [= <- <-]. rewrite !fmap_cons. f_equal; [by eapply Hg|by eapply IH].
Qed.

Section GuardFacts.
Context `{!Adapters}.

Lemma cids_after_call_names depth tps raw w cids w' :
  cids_after_call depth tps raw w = (inr cids, w') → cids.*1 = raw.*1.
Proof.
  apply mapM_keeps_names. intros kv w0 y w1. rewrite bind_run.
  destruct (dict_lookup tps kv.1 w0) as [[e|tp] w2]; [done|]. rewrite bind_run.
  destruct (construct_at depth tp kv.2 w2) as [[e|[r cs]] w3]; [done|].
  by intros [= <- <-].
Qed.

Lemma unwrap_all_names wrapped w raw w' :
  unwrap_all wrapped w = (inr raw, w') → raw.*1 = wrapped.*1.
Proof.
  apply mapM_keeps_names. intros kv w0 y w1. rewrite bind_run.
  destruct (unwrap kv.2 w0) as [[e|v] w3]; [done|]. by intros [= <- <-].
Qed.

Lemma changed_inputs_run before after w :
  before.*1 ⊆ after.*1 →
  ∃ changed,
    changed_inputs before after w = (inr changed, w) ∧
    ∀ k c c', (k, c) ∈ before → dict_get after k = Some c' → c ≠ c' → k ∈ changed.
Proof.
  intros Hsub.
  assert (∃ ks, mapM (λ kc : string * string,
                        c' ← dict_lookup after kc.1;
                        mret (if bool_decide (kc.2 ≠ c') then [kc.1] else []))
                     before w = (inr ks, w) ∧
            ∀ k c c', (k, c) ∈ before → dict_get after k = Some c' → c ≠ c' → k ∈ concat ks)
    as (ks & Hks & Hin).
  { induction before as [|[k0 c0] before IH].
    { exists []. split; [done|]. by intros k c c' ?%not_elem_of_nil. }
    rewrite fmap_cons in Hsub.
    destruct (dict_get_is_Some after k0) as [c0' Hc0']; [apply Hsub; left|].
    destruct IH as (ks & Hks & Hin); [intros x Hx; apply Hsub; by right|].
    exists ((if bool_decide (c0 ≠ c0') then [k0] else []) :: ks). split.
    - rewrite mapM_cons, bind_run, bind_run. unfold dict_lookup at 1. simpl.
      rewrite Hc0'. simpl. rewrite bind_run, Hks. done.
    - intros k c c' Hkc Hget Hne. apply elem_of_cons in Hkc as [Heq|Hkc]; simpl.
      + injection Heq as -> ->. rewrite Hc0' in Hget. injection Hget as ->.
        rewrite bool_decide_eq_true_2; [|done]. left.
      + apply elem_of_app. right. by eapply Hin. }
  exists (concat ks). split; [|done].
  unfold changed_inputs. by rewrite bind_run, Hks.
Qed.

(** C3: a user op, inputs that are refs, and no stored call for them.  The
    function is run on the raw values of the inputs; the content ids are
    then recomputed from the raw values as the function left them.  If, for
    some input, the recomputed content id differs from the content id the
    ref had before the call, [call_internal] raises the side-effect error,
    naming that input; and the storage holds the same rows as before, so no
    call and no ref has been written. *)
Theorem side_effect_aborts (op : Op) run (wrapped : list (string * Ref))
    (tps : list (string * Tp)) (w w1 w2 : World) (raw raw' : list (string * value))
    (returns : Returns) (cids' : list (string * string)) (k c c' : string) :
  (2 ≤ recursion_limit)%nat →
  f op = Some (User run) →
  typed_by tps wrapped →
  calls_exists (storage w) (get_call_history_id op wrapped) = false →
  unwrap_all wrapped w = (inr raw, w1) →
  run raw = (returns, raw') →
  raw'.*1 = raw.*1 →
  cids_after_call (pred recursion_limit) tps raw'
    (log_invocation (name op) (get_call_history_id op wrapped) w1).2 = (inr cids', w2) →
  dict_get (cids_of wrapped) k = Some c →
  dict_get cids' k = Some c' →
  c ≠ c' →
  ∃ changed,
    call_internal op (as_values wrapped) tps w = (inl (SideEffects (name op) changed), w2) ∧
    k ∈ changed ∧
    same_rows (storage w) (storage w2).
Proof.
  intros Hlim Hf Htps Hex Hraw Hrun Hnames Hafter Hc Hc' Hne.
  unfold call_internal in *. destruct recursion_limit as [|[|d]]; [lia..|].
  cbn [pred] in Hafter.
  destruct (changed_inputs_run (cids_of wrapped) cids' w2) as (changed & Hch & Hin).
  { rewrite (cids_after_call_names _ _ _ _ _ _ Hafter), Hnames.
    rewrite (unwrap_all_names _ _ _ _ Hraw).
    unfold cids_of. by rewrite <- list_fmap_compose. }
  assert (k ∈ changed) as Hk by (eapply Hin; [by apply dict_get_elem|done..]).
  exists changed.
  assert (call_internal_at (S (S d)) op (as_values wrapped) tps w
          = (inl (SideEffects (name op) changed), w2)) as Hcall.
  { cbn [call_internal_at]. rewrite bind_run, (construct_refs _ _ _ _ Htps).
    rewrite fst_no_calls, concat_no_calls.
    rewrite bind_run, exists_call_run, Hex, Hf.
    rewrite bind_run, bind_run. fold (unwrap_all wrapped). rewrite Hraw.
    rewrite bind_run. destruct (log_invocation _ _ w1) as [[e|[]] w1'] eqn:Hlog; [done|].
    rewrite Hrun. simpl in Hafter. injection Hlog as <-.
    rewrite bind_run. fold (cids_after_call (S d) tps raw'). rewrite Hafter.
    rewrite bind_run, Hch. rewrite bool_decide_eq_true_2; [done|].
    destruct changed; [by apply not_elem_of_nil in Hk|simpl; lia]. }
  split; [exact Hcall|]. split; [exact Hk|].
  by destruct (preserves_run writes_nothing _ _ _ _
                 (call_internal_at_writes_nothing _ _ _ _) Hcall).
Qed.

End GuardFacts.

Lemma side_effect_aborts_witness :
  ∃ changed w2,
    @call_internal Demo.adapters Demo.clobber (as_values [("x", Demo.one)]) [("x", AtomType)]
      empty_world = (inl (SideEffects "clobber" changed), w2) ∧
    "x" ∈ changed ∧
    same_rows (storage empty_world) (storage w2).
Proof.
  destruct (@side_effect_aborts Demo.adapters Demo.clobber Demo.clobber_run
              [("x", Demo.one)] [("x", AtomType)] empty_world empty_world
              (mkWorld empty_storage None [("clobber", "clobber/0(x=h(1);)")])
              [("x", VInt 1)] [("x", VInt 0)] [("output_0", (VInt 1, AtomType))]
              [("x", "c(0)")] "x" "c(1)" "c(0)") as (changed & Hrun & Hin & Hrows).
  - simpl. lia.
  - reflexivity.
  - repeat constructor. by eexists.
  - by vm_compute.
  - by vm_compute.
  - by vm_compute.
  - reflexivity.
  - by vm_compute.
  - by vm_compute.
  - by vm_compute.
  - discriminate.
  - by exists changed, (mkWorld empty_storage None [("clobber", "clobber/0(x=h(1);)")]).
Defined.

(** ** Loading refs *)

Section LoadFacts.
Context `{!Adapters}.

Lemma table_get_run {V} tbl upd k (v : V) w :
  table_lens tbl upd →
  Cached.view (tbl (storage w)) k = Some v →
  ∃ w', table_get tbl upd k w = (inr v, w') ∧ reads_only w w'.
Proof.
  intros Hlens Hv. pose proof (table_get_view tbl upd k w) as Hres.
  pose proof (table_get_reads tbl upd k Hlens w) as Hw.
  rewrite Hv in Hres. destruct (table_get tbl upd k w) as [r w']. simpl in *. subst r.
  by exists w'.
Qed.

Lemma reads_only_shapes w w' k :
  reads_only w w' →
  Cached.view (shapes (storage w')) k = Cached.view (shapes (storage w)) k.
Proof. intros ((_&_&_&_&(_&_&Hv)&_)&_). by rewrite Hv. Qed.

Lemma reads_only_atoms w w' k :
  reads_only w w' →
  Cached.view (atoms (storage w')) k = Cached.view (atoms (storage w)) k.
Proof. intros ((_&_&_&(_&_&Hv)&_)&_). by rewrite Hv. Qed.

Lemma settled_reads_only w w' r :
  reads_only w w' → settled (storage w) r → settled (storage w') r.
Proof.
  intros Hw Hr n Hn. destruct (Hr n Hn) as [Hs Ha].
  by rewrite (reads_only_shapes _ _ _ Hw), (reads_only_atoms _ _ _ Hw).
Qed.

Lemma settled_child s c h m l e : settled s (ListRef c h m l) → e ∈ l → settled s e.
Proof. intros Hr He n Hn. apply Hr. by eapply elem_of_nodes_child. Qed.

(** A loop of loads that all succeed. *)
Lemma load_all depth lazy (l : list Ref) w :
  (∀ e w0, e ∈ l → reads_only w w0 →
     ∃ res w1, load_ref_at depth (hid e) lazy w0 = (inr res, w1) ∧ reads_only w0 w1) →
  ∃ rs w', mapM (λ elt, load_ref_at depth (hid elt) lazy) (shape <$> l) w = (inr rs, w') ∧
           reads_only w w'.
Proof.
  revert w. induction l as [|e l IH]; intros w Hl.
  { exists [], w. by split. }
  destruct (Hl e w) as (res & w1 & Hres & Hw1); [left|done|].
  destruct (IH w1) as (rs & w2 & Hrs & Hw2).
  { intros e' w0 He' Hw0. apply Hl; [by right|by etrans]. }
  exists (res :: rs), w2. split; [|by etrans].
  rewrite fmap_cons, mapM_cons, bind_run, shape_hid, Hres, bind_run, Hrs. done.
Qed.

Lemma load_settled lazy r : ∀ depth w,
  ref_depth r < depth →
  settled (storage w) r →
  ∃ res w', load_ref_at depth (hid r) lazy w = (inr res, w') ∧ reads_only w w' ∧
            loaded lazy r res (storage w).
Proof.
  induction r as [c h m o|c h m l IH] using Ref_ind'; intros depth w Hd Hr;
    (destruct depth as [|depth]; [lia|]);
    destruct (Hr _ (elem_of_nodes_self _)) as [Hshape Hatom]; cbn [hid shape] in *;
    destruct (table_get_run shapes set_shapes _ _ w shapes_lens Hshape) as (w1 & Hget & Hw1);
    cbn [load_ref_at]; rewrite bind_run, Hget.
  - destruct lazy; [exists (AtomRef c h false VNone), w1; split_and!; [reflexivity|done|reflexivity]|].
    destruct (Hatom eq_refl) as [b Hb]. simpl in Hb.
    destruct (table_get_run atoms set_atoms c b w1 atoms_lens) as (w2 & Hget2 & Hw2).
    { by rewrite (reads_only_atoms _ _ _ Hw1). }
    exists (AtomRef c h true (deserialize b)), w2. rewrite bind_run, Hget2.
    split; [done|]. split; [by etrans|]. exists b. by split.
  - destruct (load_all depth lazy l w1) as (rs & w2 & Hrs & Hw2).
    { intros e w0 He Hw0. rewrite Forall_forall in IH.
      destruct (IH e He depth w0) as (res & w3 & Hres & Hw3 & _).
      - pose proof (ref_depth_child c h m l e He). lia.
      - apply (settled_reads_only w w0); [by etrans|]. exact (settled_child _ _ _ _ _ _ Hr He).
      - by exists res, w3. }
    exists (ListRef c h attached_list_flag (shape <$> l)), w2. rewrite bind_run, Hrs.
    split; [|split; [by etrans|done]].
    cbn [attached]. by rewrite refs_of_obj_list.
Qed.

End LoadFacts.

(** ** What saving refs leaves in the storage *)

Lemma elem_of_nodes_inv n r :
  n ∈ nodes r → n = r ∨ ∃ e, e ∈ children r ∧ n ∈ nodes e.
Proof.
  destruct r as [c h m o|c h m l]; simpl.
  - intros Hn. apply elem_of_cons in Hn as [->|Hn]; [by left|].
    by apply not_elem_of_nil in Hn.
  - intros Hn. apply elem_of_cons in Hn as [->|Hn]; [by left|]. right.
    apply list_elem_of_join in Hn as (ns & Hn & Hns).
    apply list_elem_of_fmap in Hns as (e & -> & He). by exists e.
Qed.

Lemma nodes_trans n m r : n ∈ nodes m → m ∈ nodes r → n ∈ nodes r.
Proof.
  revert m. induction r as [c h b o|c h b l IH] using Ref_ind'; intros m Hn Hm.
  - apply elem_of_nodes_inv in Hm as [->|(e & []%not_elem_of_nil & _)]. done.
  - apply elem_of_nodes_inv in Hm as [->|(e & He & Hm)]; [done|]. simpl in He.
    eapply elem_of_nodes_child; [exact He|]. rewrite Forall_forall in IH. by eapply IH.
Qed.

Lemma elem_of_bind_nodes (rs : list Ref) n : n ∈ rs ≫= nodes ↔ ∃ r, r ∈ rs ∧ n ∈ nodes r.
Proof.
  rewrite list_elem_of_bind. split; intros (r & H1 & H2); by exists r.
Qed.

Lemma bind_nodes_closed (rs : list Ref) n m : n ∈ rs ≫= nodes → m ∈ nodes n → m ∈ rs ≫= nodes.
Proof.
  rewrite !elem_of_bind_nodes. intros (r & Hr & Hn) Hm. exists r. split; [done|].
  by eapply nodes_trans.
Qed.

Lemma extends_settled w w' r : extends w w' → settled (storage w) r → settled (storage w') r.
Proof.
  intros (Hs & Ha & _) Hr n Hn. destruct (Hr n Hn) as [Hshape Hatom]. split.
  - by apply Hs.
  - intros Hn'. by apply Ha, Hatom.
Qed.

Lemma new_shapes_from_weaken rs rs' w w' :
  rs ⊆ rs' → new_shapes_from rs w w' → new_shapes_from rs' w w'.
Proof.
  intros Hsub Hnew k s Hk Hk'. destruct (Hnew k s Hk Hk') as (m & Hm & ?).
  exists m. split; [|done]. apply elem_of_bind_nodes in Hm as (r & Hr & Hm).
  apply elem_of_bind_nodes. exists r. split; [by apply Hsub|done].
Qed.

Section SavedFacts.
Context `{!Adapters}.

Lemma save_ref_run ref w : save_ref ref w = (inr (), (save_ref ref w).2).
Proof.
  pose proof (save_ref_returns ref w) as Hr.
  destruct (save_ref ref w) as [r w']. simpl in *. by subst r.
Qed.

(** Saving a list of refs one after the other. *)
Lemma save_all_new {X} (g : X → Ref) (xs : list X) :
  (∀ x, x ∈ xs → ∀ w, new_shapes_from [g x] w (save_ref (g x) w).2) →
  ∀ w, ∃ r w',
    mapM (λ x, save_ref (g x)) xs w = (inr r, w') ∧
    extends w w' ∧
    new_shapes_from (g <$> xs) w w' ∧
    ∀ x, x ∈ xs → is_Some (Cached.view (shapes (storage w')) (hid (g x))).
Proof.
  induction xs as [|x xs IH]; intros Hxs w.
  { exists [], w. split; [done|]. split; [reflexivity|]. split.
    - intros k s Hk Hk'. congruence.
    - by intros x ?%not_elem_of_nil. }
  destruct (IH (λ y Hy, Hxs y (list_elem_of_further _ _ _ Hy)) (save_ref (g x) w).2)
    as (r & w' & Hrun & Hext & Hnew & Hdef).
  pose proof (save_ref_extends (g x) w) as Hext1.
  pose proof (Hxs x (list_elem_of_here _ _) w) as Hnew1.
  pose proof (save_ref_has_shape (g x) w) as Hdef1.
  set (w1 := (save_ref (g x) w).2) in *.
  exists (() :: r), w'. split.
  { rewrite mapM_cons, bind_run, save_ref_run. fold w1. by rewrite bind_run, Hrun. }
  split; [by etrans|]. split.
  - intros k s Hk Hk'. rewrite fmap_cons.
    destruct (Cached.view (shapes (storage w1)) k) as [s1|] eqn:Hk1.
    + destruct (Hnew1 k s1 Hk Hk1) as (m & Hm & Hhid & Hs1 & Hatom & Hch).
      destruct Hext as (Hs & Ha & _). rewrite (Hs _ _ Hk1) in Hk'. injection Hk' as <-.
      exists m. split_and!; [|done..| |].
      * apply elem_of_bind_nodes in Hm as (r0 & ->%list_elem_of_singleton & Hm).
        apply elem_of_bind_nodes. exists (g x). split; [left|done].
      * intros Hm'. by apply Ha, Hatom.
      * intros e He. destruct (Hch e He) as [se Hse]. rewrite (Hs _ _ Hse). by eexists.
    + destruct (Hnew k s Hk1 Hk') as (m & Hm & ?). exists m. split; [|done].
      apply elem_of_bind_nodes in Hm as (r0 & Hr0 & Hm).
      apply elem_of_bind_nodes. exists r0. split; [by right|done].
  - intros y [->|Hy]%elem_of_cons; [|by apply Hdef].
    apply exists_view in Hdef1 as [s Hs]. destruct Hext as (Hext & _).
    rewrite (Hext _ _ Hs). by eexists.
Qed.

Lemma save_ref_new ref w : new_shapes_from [ref] w (save_ref ref w).2.
Proof.
  revert w. induction ref as [c h b o|c h b l IH] using Ref_ind'; intros w k s Hk;
    destruct (Cached.exists_ (shapes (storage w)) h) eqn:Hex.
  - rewrite save_ref_known; [|done]. simpl. congruence.
  - assert (save_ref (AtomRef c h b o) w
            = (inr (), (table_set shapes set_shapes h (shape (AtomRef c h b o))
                          (table_set atoms set_atoms c (serialize o) w).2).2)) as ->.
    { rewrite save_ref_unfold. cbn [hid]. by rewrite Hex. }
    rewrite !table_set_run. cbn [snd storage shapes atoms set_shapes set_atoms].
    rewrite !view_set. intros Hk'.
    destruct (decide (h = k)) as [<-|Hne]; [|congruence]. injection Hk' as <-.
    exists (AtomRef c h b o). split_and!; [|done|done| |].
    + apply elem_of_bind_nodes. exists (AtomRef c h b o). split; [left|apply elem_of_nodes_self].
    + intros _. rewrite view_set, decide_True; [by eexists|done].
    + intros e He. by apply not_elem_of_nil in He.
  - rewrite save_ref_known; [|done]. simpl. congruence.
  - set (w1 := mkWorld (set_shapes (Cached.set (shapes (storage w)) h
                                      (shape (ListRef c h b l))) (storage w))
                       (current_context w) (invoked w)).
    rewrite Forall_forall in IH.
    destruct (save_all_new id l (λ x Hx, IH x Hx) w1) as (r & w' & Hrun & Hext & Hnew & Hdef).
    assert (mapM save_ref l w1 = (inr r, w')) as Hrun' by exact Hrun.
    assert (save_ref (ListRef c h b l) w = (inr (), w')) as ->.
    { rewrite save_ref_unfold. cbn [hid]. rewrite Hex, bind_run, table_set_run.
      fold w1. by rewrite bind_run, Hrun'. }
    cbn [snd]. intros Hk'.
    destruct (decide (h = k)) as [<-|Hne].
    + assert (Cached.view (shapes (storage w1)) h = Some (shape (ListRef c h b l))) as Hh.
      { subst w1. cbn [storage shapes set_shapes]. rewrite view_set. by rewrite decide_True. }
      destruct Hext as (Hs & _). rewrite (Hs _ _ Hh) in Hk'. injection Hk' as <-.
      exists (ListRef c h b l). split_and!; [|done|done|done|].
      * apply elem_of_bind_nodes. exists (ListRef c h b l).
        split; [left|apply elem_of_nodes_self].
      * intros e He. by apply Hdef.
    + assert (Cached.view (shapes (storage w1)) k = None) as Hk1.
      { subst w1. cbn [storage shapes set_shapes]. rewrite view_set. by rewrite decide_False. }
      destruct (Hnew k s Hk1 Hk') as (m & Hm & ?). exists m. split; [|done].
      rewrite list_fmap_id in Hm. apply elem_of_bind_nodes in Hm as (e & He & Hm).
      apply elem_of_bind_nodes. exists (ListRef c h b l). split; [left|].
      by eapply elem_of_nodes_child.
Qed.

(** Refs fit to be saved are held by the storage once they have a shape:
    the sum of what saving does. *)
Lemma settled_after_save rs w w' :
  extends w w' →
  new_shapes_from rs w w' →
  known_settled (storage w) rs →
  same_hid_same_shape rs →
  ∀ n, n ∈ rs ≫= nodes →
       is_Some (Cached.view (shapes (storage w')) (hid n)) → settled (storage w') n.
Proof.
  intros Hext Hnew Hknown Hsame n.
  induction n as [c h b o|c h b l IH] using Ref_ind'; intros Hn [s Hs].
  - destruct (Cached.view (shapes (storage w)) h) as [s0|] eqn:Hs0.
    { eapply extends_settled; [done|]. apply Hknown; [done|]. simpl. by rewrite Hs0. }
    destruct (Hnew h s Hs0 Hs) as (m & Hm & Hhid & -> & Hatom & _).
    pose proof (Hsame m _ Hm Hn Hhid) as Hshape.
    intros n' [->|[]%not_elem_of_nil]%elem_of_cons. simpl in *. split.
    + by rewrite Hs, Hshape.
    + intros _. rewrite <- (shape_cid m), Hshape in Hatom. apply Hatom.
      by rewrite <- shape_is_atom, Hshape.
  - destruct (Cached.view (shapes (storage w)) h) as [s0|] eqn:Hs0.
    { eapply extends_settled; [done|]. apply Hknown; [done|]. simpl. by rewrite Hs0. }
    destruct (Hnew h s Hs0 Hs) as (m & Hm & Hhid & -> & _ & Hch).
    pose proof (Hsame m _ Hm Hn Hhid) as Hshape.
    intros n' Hn'. apply elem_of_nodes_inv in Hn' as [->|(e & He & Hn')].
    + split; [by rewrite Hs, Hshape|done].
    + simpl in He. rewrite Forall_forall in IH. eapply (IH e He); [| |exact Hn'].
      * eapply bind_nodes_closed; [exact Hn|]. eapply elem_of_nodes_child; [exact He|].
        apply elem_of_nodes_self.
      * destruct m as [cm hm bm om|cm hm bm lm]; [done|]. simpl in Hshape.
        injection Hshape as _ _ Hl.
        assert (shape e ∈ shape <$> lm) as He'.
        { rewrite Hl. by apply list_elem_of_fmap_2. }
        apply list_elem_of_fmap in He' as (em & Hem & Hem').
        destruct (Hch em Hem') as [se Hse].
        rewrite <- (shape_hid em), <- Hem, shape_hid in Hse. by eexists.
Qed.

End SavedFacts.

(** ** Saving a ref and loading it back *)

Section RoundTrip.
Context `{!Adapters}.

Lemma save_ref_settled ref w :
  known_settled (storage w) [ref] →
  same_hid_same_shape [ref] →
  settled (storage (save_ref ref w).2) ref.
Proof.
  intros Hknown Hsame.
  apply (settled_after_save [ref] w); [apply save_ref_extends|apply save_ref_new|done..| |].
  - apply elem_of_bind_nodes. exists ref. split; [left|apply elem_of_nodes_self].
  - apply exists_view, save_ref_has_shape.
Qed.

(** A ref [r] whose history id is new to the storage is saved and loaded
    back, the refs it is made of being fit to be saved and nested less deep
    than the recursion limit.  If [r] is an atom, [load_ref(r.hid,
    lazy=False)] returns an atom in memory with the history id and the
    content id of [r] and the value that deserializing its serialized value
    gives, which is the value of [r] when the serializer round-trips on it;
    [load_ref(r.hid, lazy=True)] returns the detached atom, same ids and no
    payload.  If [r] is a list, [load_ref] returns, for either value of
    [lazy], a list ref with the history id and the content id of [r] whose
    elements are the shapes of the elements of [r]. *)
Lemma load_after_save (r : Ref) (w : World) (lazy : bool) :
  Cached.view (shapes (storage w)) (hid r) = None →
  known_settled (storage w) [r] →
  same_hid_same_shape [r] →
  ref_depth r < recursion_limit →
  (is_atom r = true → deserialize (serialize (obj r)) = obj r) →
  ∃ res w',
    load_ref (hid r) lazy (save_ref r w).2 = (inr res, w') ∧
    hid res = hid r ∧ cid res = cid r ∧ is_atom res = is_atom r ∧
    match r with
    | AtomRef c h _ o => res = if lazy then AtomRef c h false VNone else AtomRef c h true o
    | ListRef _ _ _ l => children res = shape <$> l
    end.
Proof.
  intros Hnew Hknown Hsame Hdepth Hround.
  pose proof (save_ref_settled r w Hknown Hsame) as Hsettled.
  destruct (load_settled lazy r recursion_limit _ Hdepth Hsettled)
    as (res & w' & Hload & _ & Hres).
  exists res, w'. split; [exact Hload|].
  destruct r as [c h m o|c h m l]; unfold loaded in Hres.
  - assert (Cached.view (atoms (storage (save_ref (AtomRef c h m o) w).2)) c
            = Some (serialize o)) as Hatom.
    { rewrite save_ref_unfold. cbn [hid] in *. apply exists_view_false in Hnew.
      rewrite Hnew, bind_run, !table_set_run. cbn [snd storage atoms set_shapes set_atoms].
      rewrite view_set. by rewrite decide_True. }
    destruct lazy.
    + by subst res.
    + destruct Hres as (b & Hb & ->). rewrite Hatom in Hb. injection Hb as <-.
      simpl in Hround. by rewrite (Hround eq_refl).
  - by subst res.
Qed.

End RoundTrip.

(** Refs with pairwise different history ids are fit to be saved into a
    storage that knows none of them. *)
Lemma fresh_known_settled s rs :
  (∀ n, n ∈ rs ≫= nodes → Cached.view (shapes s) (hid n) = None) → known_settled s rs.
Proof. intros Hfresh n Hn [shp Hshp]. rewrite (Hfresh n Hn) in Hshp. done. Qed.

Lemma NoDup_same_hid_same_shape rs : NoDup (hid <$> (rs ≫= nodes)) → same_hid_same_shape rs.
Proof.
  intros Hnd n m Hn Hm Hhid.
  apply list_elem_of_lookup in Hn as [i Hi]. apply list_elem_of_lookup in Hm as [j Hj].
  assert (i = j) as ->.
  { eapply NoDup_lookup; [exact Hnd| |].
    - rewrite list_lookup_fmap, Hi. done.
    - rewrite list_lookup_fmap, Hj. simpl. by rewrite Hhid. }
  congruence.
Qed.

(** C4 fails on the code for a list ref, with [lazy=False]: [load_ref]
    loads the elements into a local list, and then returns the shape
    attached to its own elements.  After [save_ref] of the list of the atoms
    [1] and [2], each element loads, with [lazy=False], as the atom in
    memory with its value; the list loads, with [lazy=False], as a list ref
    with the history id and the content id of the saved one, whose elements
    are the stored shapes, detached and without value, and not the elements
    that were saved. *)
Theorem saved_list_loads_without_payloads :
  let w := (@save_ref Demo.adapters Demo.one_two empty_world).2 in
  (@load_ref Demo.adapters "h(1)" false w).1 = inr Demo.one ∧
  (@load_ref Demo.adapters "h(2)" false w).1 = inr Demo.two ∧
  ∃ res,
    (@load_ref Demo.adapters (hid Demo.one_two) false w).1 = inr res ∧
    hid res = hid Demo.one_two ∧ cid res = cid Demo.one_two ∧
    children res = [AtomRef "c(1)" "h(1)" false VNone; AtomRef "c(2)" "h(2)" false VNone] ∧
    children res ≠ children Demo.one_two.
Proof.
  intros w. split; [by vm_compute|]. split; [by vm_compute|].
  eexists. split; [by vm_compute|]. by split_and!.
Qed.

(** ** What a memoization hit returns *)

Lemma shapes_payload_free_reads_only w w' :
  reads_only w w' → shapes_payload_free (storage w) → shapes_payload_free (storage w').
Proof.
  intros Hw Hfree h shp Hshp. apply (Hfree h). by rewrite <- (reads_only_shapes _ _ _ Hw).
Qed.

(** The results of a loop of reads all have a property that each read
    gives. *)
Lemma mapM_Forall_reads {A B} (P : B → Prop) (g : A → M B) l w ys w' :
  (∀ x, preserves reads_only (g x)) →
  (∀ x w0 y w1, reads_only w w0 → g x w0 = (inr y, w1) → P y) →
  mapM g l w = (inr ys, w') → Forall P ys.
Proof.
  intros Hreads. revert w ys. induction l as [|x l IH]; intros w ys Hg.
  { intros [= <- <-]. constructor. }
  rewrite mapM_cons, bind_run. destruct (g x w) as [[e|y] w1] eqn:Hy; [done|].
  rewrite bind_run. destruct (mapM g l w1) as [[e|ys'] w2] eqn:Hys; [done|].
  intros [= <- <-]. constructor.
  - eapply Hg; [reflexivity|exact Hy].
  - eapply (IH w1); [|exact Hys]. intros x' w0 y' w3 Hw0. apply Hg.
    etrans; [|exact Hw0]. eapply (preserves_run reads_only); [apply Hreads|exact Hy].
Qed.

Section HitFacts.
Context `{!Adapters}.

Lemma load_lazy_payload_free depth h w r w' :
  shapes_payload_free (storage w) →
  load_ref_at depth h true w = (inr r, w') → payload_free r = true.
Proof.
  intros Hfree. destruct depth as [|depth]; [done|]. cbn [load_ref_at]. rewrite bind_run.
  pose proof (table_get_view shapes set_shapes h w) as Hview.
  destruct (table_get shapes set_shapes h w) as [[e|shp] w1]; [done|]. simpl in Hview.
  destruct (Cached.view (shapes (storage w)) h) as [shp'|] eqn:Hshp; [|done].
  injection Hview as ->. pose proof (Hfree _ _ Hshp) as Hpf.
  destruct shp' as [c h' m o|c h' m l].
  - by intros [= <- <-].
  - rewrite bind_run.
    match goal with |- context [mapM ?g l w1] =>
      destruct (mapM g l w1) as [[e|rs] w2]; [done|]
    end.
    intros [= <- <-].
    change (omap _ (VRef <$> l)) with (refs_of (obj (ListRef c h' m l))).
    by rewrite refs_of_obj_list.
Qed.

Lemma get_call_outputs_payload_free h w c w' :
  shapes_payload_free (storage w) →
  get_call h true w = (inr c, w') →
  Forall (λ kr, payload_free kr.2 = true) (outputs c).
Proof.
  intros Hfree. unfold get_call. rewrite bind_run.
  destruct (get_data h w) as [[e|cd] w1] eqn:Hcd; [done|].
  pose proof (preserves_run reads_only _ _ _ _ (get_data_reads h) Hcd) as Hw1.
  rewrite bind_run.
  destruct (table_get ops set_ops (cd_op_name cd) w1) as [[e|op] w2] eqn:Hop; [done|].
  pose proof (preserves_run reads_only _ _ _ _
                (table_get_reads ops set_ops _ ops_lens) Hop) as Hw2.
  rewrite bind_run.
  match goal with |- context [mapM ?g (input_hids cd) w2] =>
    destruct (mapM g (input_hids cd) w2) as [[e|ins] w3] eqn:Hins; [done|];
    assert (∀ x, preserves reads_only (g x)) as Hreads
  end.
  { intros x. mstep; [apply load_ref_at_reads|mstep]. }
  pose proof (preserves_run reads_only _ _ _ _
                (preserves_mapM reads_only _ _ (λ x _, Hreads x)) Hins) as Hw3.
  rewrite bind_run.
  match goal with |- context [mapM ?g (output_hids cd) w3] =>
    destruct (mapM g (output_hids cd) w3) as [[e|outs] w4] eqn:Houts; [done|]
  end.
  intros [= <- <-]. simpl.
  eapply mapM_Forall_reads; [exact Hreads| |exact Houts].
  intros x w0 y w5 Hw0. cbn beta. rewrite bind_run.
  destruct (load_ref (x.2) true w0) as [[e|r] w6] eqn:Hr; [done|]. intros [= <- <-]. simpl.
  eapply load_lazy_payload_free; [|exact Hr].
  eapply shapes_payload_free_reads_only; [|exact Hfree].
  etrans; [exact Hw1|]. etrans; [exact Hw2|]. etrans; [exact Hw3|]. exact Hw0.
Qed.

(** Saving refs keeps the shapes of the storage without payload. *)
Lemma save_ref_payload_free ref w :
  shapes_payload_free (storage w) → shapes_payload_free (storage (save_ref ref w).2).
Proof.
  intros Hfree h shp Hshp.
  destruct (Cached.view (shapes (storage w)) h) as [shp0|] eqn:Hshp0.
  - destruct (save_ref_extends ref w) as (Hs & _). rewrite (Hs _ _ Hshp0) in Hshp.
    injection Hshp as <-. by eapply Hfree.
  - destruct (save_ref_new ref w h shp Hshp0 Hshp) as (m & _ & _ & -> & _).
    apply shape_payload_free.
Qed.

(** The wrapping of the inputs writes no row. *)
Lemma wrap_inputs_writes_nothing d tps inputs :
  preserves writes_nothing (wrap_inputs d tps inputs).
Proof.
  unfold wrap_inputs. mstep. mstep.
  - apply (preserves_weaken reads_only); [apply reads_only_writes_nothing|].
    apply dict_lookup_reads.
  - mstep; [apply construct_at_writes_nothing|]. mstep. mstep.
Qed.

Lemma shapes_payload_free_writes_nothing w w' :
  writes_nothing w w' → shapes_payload_free (storage w) → shapes_payload_free (storage w').
Proof.
  intros ((_&_&_&_&(_&_&Hv)&_)&_) Hfree h shp Hshp. apply (Hfree h). by rewrite Hv.
Qed.

(** C9: on a memoization hit the outputs are loaded lazily.  For every op
    and inputs, raw values or refs: when a call with the history id
    computed from the op and the wrapped inputs exists in the storage,
    every output that [call_internal] returns is without payload: every
    atom of it, at top level or inside a list, is detached and carries no
    value; in particular an output that is an atom is detached.  The shapes
    of the storage are without payload, as [save_ref] writes them. *)
Theorem memo_hit_outputs_lazy (op : Op) (inputs : list (string * value))
    (tps : list (string * Tp)) (d : nat) (w w0 w1 : World)
    (wrapped : list ((string * Ref) * list Call))
    (outs : list (string * Ref)) (main_call : Call) (calls : list Call) :
  recursion_limit = S d →
  shapes_payload_free (storage w) →
  wrap_inputs d tps inputs w = (inr wrapped, w0) →
  calls_exists (storage w) (get_call_history_id op wrapped.*1) = true →
  call_internal op inputs tps w = (inr (outs, main_call, calls), w1) →
  ∀ k r, (k, r) ∈ outs →
    payload_free r = true ∧
    (is_atom r = true → in_memory r = false ∧ obj r = VNone).
Proof.
  intros Hlim Hfree Hwrap Hex Hcall k r Hkr. unfold call_internal in Hcall.
  rewrite Hlim in Hcall. cbn [call_internal_at] in Hcall.
  pose proof (preserves_run writes_nothing _ _ _ _ (wrap_inputs_writes_nothing d tps inputs) Hwrap)
    as Hw0.
  unfold wrap_inputs in Hwrap. rewrite bind_run, Hwrap in Hcall.
  rewrite bind_run, exists_call_run in Hcall.
  rewrite <- (same_rows_calls_exists _ _ _ (proj1 Hw0)), Hex in Hcall.
  rewrite bind_run in Hcall.
  destruct (get_call _ true w0) as [[e|c] w2] eqn:Hget; [done|]. injection Hcall as <- <- <- <-.
  pose proof (shapes_payload_free_writes_nothing _ _ Hw0 Hfree) as Hfree0.
  pose proof (get_call_outputs_payload_free _ _ _ _ Hfree0 Hget) as Hall.
  rewrite Forall_forall in Hall. specialize (Hall _ Hkr). simpl in Hall.
  split; [exact Hall|]. destruct r as [c0 h0 m0 o0|]; [|done]. simpl in *.
  intros _. destruct m0; [done|]. by destruct o0.
Qed.

End HitFacts.

Lemma shapes_payload_free_maps s :
  map_Forall (λ _ shp, payload_free shp = true) (cache (shapes s)) →
  map_Forall (λ _ shp, payload_free shp = true) (persistent (shapes s)) →
  shapes_payload_free s.
Proof.
  intros Hc Hp h shp. unfold Cached.view.
  destruct (cache (shapes s) !! h) as [shp'|] eqn:Hh.
  - intros [= <-]. by eapply Hc.
  - intros Hh'. by eapply Hp.
Qed.

Lemma memo_hit_outputs_lazy_witness :
  ∃ r w1 main_call calls,
    @call_internal Demo.adapters Demo.pair_up (as_values [("a", Demo.one); ("b", Demo.two)])
      [("a", AtomType); ("b", AtomType)] Runs.pair_saved
      = (inr ([("output_0", r)], main_call, calls), w1) ∧
    payload_free r = true.
Proof.
  destruct (@call_internal Demo.adapters Demo.pair_up (as_values [("a", Demo.one); ("b", Demo.two)])
              [("a", AtomType); ("b", AtomType)] Runs.pair_saved) as [res w1] eqn:Hcall.
  assert (∃ r main_call calls, res = inr ([("output_0", r)], main_call, calls))
    as (r & main_call & calls & ->).
  { change res with (res, w1).1. rewrite <- Hcall. vm_compute. by eexists _, _, _. }
  exists r, w1, main_call, calls. split; [done|].
  eapply (@memo_hit_outputs_lazy Demo.adapters Demo.pair_up
            (as_values [("a", Demo.one); ("b", Demo.two)]) [("a", AtomType); ("b", AtomType)]
            49 Runs.pair_saved Runs.pair_saved w1
            [(("a", Demo.one), []); (("b", Demo.two), [])] _ main_call calls);
    [| | | |exact Hcall|].
  - reflexivity.
  - apply shapes_payload_free_maps; refine (bool_decide_unpack _ _); by vm_compute.
  - apply (@construct_refs Demo.adapters 48 [("a", AtomType); ("b", AtomType)]
             [("a", Demo.one); ("b", Demo.two)]).
    repeat constructor; by eexists.
  - by vm_compute.
  - left.
Defined.

(** ** Executing a call *)

Section ExecuteFacts.
Context `{!Adapters}.

(** [call_internal] on inputs that are refs, when the call is not stored. *)
Lemma call_internal_at_miss d op (wrapped : list (string * Ref)) tps w :
  typed_by tps wrapped →
  calls_exists (storage w) (get_call_history_id op wrapped) = false →
  call_internal_at (S (S d)) op (as_values wrapped) tps w =
    (returns ← execute (S d) op wrapped tps;
     wrapped_out ← wrap_outputs (S d) (get_call_history_id op wrapped) returns;
     mret (wrapped_out.*1,
           mkCall op (get_call_content_id op wrapped) (get_call_history_id op wrapped)
                  wrapped wrapped_out.*1,
           concat wrapped_out.*2)) w.
Proof.
  intros Htps Hex. cbn [call_internal_at]. rewrite bind_run, (construct_refs _ _ _ _ Htps).
  rewrite fst_no_calls, concat_no_calls.
  rewrite bind_run, exists_call_run, Hex. reflexivity.
Qed.

End ExecuteFacts.

Lemma mapM_Forall2 {A B} (R : relation World) `{!PreOrder R} (P : A → B → Prop)
    (g : A → M B) l w ys w' :
  (∀ x, preserves R (g x)) →
  (∀ x w0 y w1, R w w0 → g x w0 = (inr y, w1) → P x y) →
  mapM g l w = (inr ys, w') → Forall2 P l ys.
Proof.
  intros Hpres. revert w ys. induction l as [|x l IH]; intros w ys Hg.
  { intros [= <- <-]. constructor. }
  rewrite mapM_cons, bind_run. destruct (g x w) as [[e|y] w1] eqn:Hy; [done|].
  rewrite bind_run. destruct (mapM g l w1) as [[e|ys'] w2] eqn:Hys; [done|].
  intros [= <- <-]. constructor.
  - eapply Hg; [reflexivity|exact Hy].
  - eapply (IH w1); [|exact Hys]. intros x' w0 y' w3 Hw0. apply Hg.
    etrans; [|exact Hw0]. eapply (preserves_run R); [apply Hpres|exact Hy].
Qed.

Lemma dict_get_Forall2 {A B} (P : string * A → string * B → Prop) l l' k a :
  Forall2 (λ x y, x.1 = y.1 ∧ P x y) l l' →
  dict_get l k = Some a → ∃ b, dict_get l' k = Some b ∧ P (k, a) (k, b).
Proof.
  unfold dict_get. induction 1 as [|[k1 a1] [k2 b2] l l' [Hk HP] Hl IH]; [done|].
  simpl in *. subst k2. case_bool_decide as Hk1; simpl.
  - intros [= <-]. subst k1. by exists b2.
  - exact IH.
Qed.

Lemma dict_get_fst {A} (d : list (string * A)) k v : dict_get d k = Some v → k ∈ d.*1.
Proof.
  intros Hd%dict_get_elem. apply list_elem_of_fmap. by exists (k, v).
Qed.

Section OutputFacts.
Context `{!Adapters}.

Lemma output_history_id_lookup h ks k :
  k ∈ ks → dict_get (get_output_history_ids h ks) k = Some (output_history_hash h k).
Proof.
  unfold dict_get, get_output_history_ids. induction ks as [|k' ks IH].
  { by intros ?%not_elem_of_nil. }
  intros Hk. rewrite fmap_cons. simpl. case_bool_decide as Hk'; simpl; [by subst|].
  apply IH. by apply elem_of_cons in Hk as [->|Hk].
Qed.

Lemma destruct_at_ids depth ref tp w final cs w' :
  destruct_at depth ref tp w = (inr (final, cs), w') → cid final = cid ref ∧ hid final = hid ref.
Proof.
  destruct depth as [|d]; [done|]. cbn [destruct_at].
  destruct ref as [c h m o|c h m l]; [by intros [= <- <- <-]|].
  destruct tp as [|elt]; [done|]. rewrite bind_run.
  match goal with |- context [mapM ?g ?l ?w] => destruct (mapM g l w) as [[e|per] w1] end;
    [done|].
  by intros [= <- <- <-].
Qed.

Lemma execute_writes_nothing depth op wrapped tps :
  preserves writes_nothing (execute depth op wrapped tps).
Proof.
  unfold execute, unwrap_all, cids_after_call.
  repeat first [ apply log_invocation_writes_nothing | apply construct_at_writes_nothing
               | (eapply preserves_weaken; [exact reads_only_writes_nothing|];
                  first [ apply dict_lookup_reads | apply unwrap_reads
                        | apply changed_inputs_reads ])
               | mstep ].
Qed.

Lemma wrap_output_writes_nothing depth ohids kv :
  preserves writes_nothing (wrap_output depth ohids kv).
Proof.
  unfold wrap_output.
  repeat first [ apply construct_at_writes_nothing | apply memo_writes_nothing
               | (eapply preserves_weaken; [exact reads_only_writes_nothing|];
                  apply dict_lookup_reads)
               | mstep ].
Qed.

(** The name, the history id and the content id of a wrapped return. *)
Lemma wrap_output_ids depth ohids k v tp w k' r cs w' h :
  dict_get ohids k = Some h →
  wrap_output depth ohids (k, (v, tp)) w = (inr ((k', r), cs), w') →
  k' = k ∧ hid r = h ∧ output_cid depth v tp w (cid r).
Proof.
  intros Hh. unfold wrap_output. rewrite bind_run. unfold dict_lookup. rewrite Hh.
  cbn [mret M_ret].
  destruct v as [| | | |r0];
    try (destruct tp as [|elt]; [by intros [= <- <- <- <-]|];
         rewrite bind_run;
         destruct (construct_at depth (ListType elt) _ w) as [[e|[start cs0]] w0] eqn:Hc;
           [done|];
         rewrite bind_run;
         destruct (destruct_at depth (with_hid start h) (ListType elt) w0)
           as [[e|[final cs1]] w1] eqn:Hd; [done|];
         intros [= <- <- <- <-];
         destruct (destruct_at_ids _ _ _ _ _ _ _ Hd) as [Hcid Hhid];
         split; [done|]; split; [by rewrite Hhid; destruct start|];
         exists start, cs0, w0; split; [done|]; by rewrite Hcid; destruct start).
  intros [= <- <- <- <-]. split; [done|]. split; by destruct r0.
Qed.

End OutputFacts.

Section OutputIds.
Context `{!Adapters}.

(** The outputs of an executed call, from what the function returned: the
    output of name [k] has the history id derived from the history id of the
    call and [k], and the content id that wrapping gives the return. *)
Lemma executed_output op wrapped tps w outs main_call calls w' returns wm k v tp :
  (2 ≤ recursion_limit)%nat →
  typed_by tps wrapped →
  calls_exists (storage w) (get_call_history_id op wrapped) = false →
  call_internal op (as_values wrapped) tps w = (inr (outs, main_call, calls), w') →
  execute (pred recursion_limit) op wrapped tps w = (inr returns, wm) →
  dict_get returns k = Some (v, tp) →
  ∃ r w0,
    dict_get outs k = Some r ∧
    hid r = output_history_hash (get_call_history_id op wrapped) k ∧
    writes_nothing w w0 ∧
    output_cid (pred recursion_limit) v tp w0 (cid r).
Proof.
  intros Hlim Htps Hex Hcall Hexec Hret. unfold call_internal in Hcall.
  destruct recursion_limit as [|[|d]]; [lia..|]. cbn [pred] in *.
  rewrite (call_internal_at_miss _ _ _ _ _ Htps Hex), bind_run, Hexec, bind_run in Hcall.
  destruct (wrap_outputs (S d) _ returns wm) as [[e|wo] w1] eqn:Hwo; [done|].
  injection Hcall as <- <- <- <-.
  pose proof (preserves_run writes_nothing _ _ _ _ (execute_writes_nothing _ _ _ _) Hexec)
    as Hwm.
  set (ohids := get_output_history_ids (get_call_history_id op wrapped) returns.*1) in *.
  assert (Forall2 (λ x y, x.1 = y.1 ∧
                    ∃ w0 cs w2, writes_nothing wm w0 ∧
                      wrap_output (S d) ohids x w0 = (inr (y, cs), w2)) returns wo.*1)
    as Hall.
  { apply Forall2_fmap_r.
    eapply (mapM_Forall2 writes_nothing); [|clear Hret|exact Hwo].
    - intros x. apply wrap_output_writes_nothing.
    - intros [k0 [v0 tp0]] w0 [[k1 r1] cs] w2 Hw0 Hx.
      change (get_output_history_ids _ _) with ohids in Hx.
      assert (dict_get ohids k0 = None ∨ ∃ h, dict_get ohids k0 = Some h) as [Hn|[h Hh]].
      { destruct (dict_get ohids k0); eauto. }
      { unfold wrap_output in Hx. rewrite bind_run in Hx. unfold dict_lookup in Hx.
        rewrite Hn in Hx. done. }
      destruct (wrap_output_ids _ _ _ _ _ _ _ _ _ _ _ Hh Hx) as (-> & _).
      split; [done|]. by exists w0, cs, w2. }
  destruct (dict_get_Forall2 _ _ _ _ _ Hall Hret) as (r & Hr & w0 & cs & w2 & Hw0 & Hx).
  assert (dict_get ohids k = Some (output_history_hash (get_call_history_id op wrapped) k))
    as Hh.
  { apply output_history_id_lookup. by eapply dict_get_fst. }
  destruct (wrap_output_ids _ _ _ _ _ _ _ _ _ _ _ Hh Hx) as (_ & Hhid & Hcid).
  exists r, w0. split_and!; [done..|by etrans|done].
Qed.

(** C6: two executed calls of the same op, on inputs that are refs and whose
    history ids differ, return under the name [k] the same value with the
    same annotation.  The two output refs then have the same content id and
    different history ids: the content id comes from the returned value
    alone, the history id is derived from the history id of the call and
    the name of the output.  The hashes are taken not to collide on the two
    calls.  For a return of composite type the content id is the one of the
    list that [construct] builds, which reads the call tables: the two
    calls are then taken to start from storages with the same rows. *)
Theorem equal_content_same_cid_other_hid (op : Op)
    (wrapped1 wrapped2 : list (string * Ref)) (tps1 tps2 : list (string * Tp))
    (w1 w2 w1' w2' wm1 wm2 : World)
    (outs1 outs2 : list (string * Ref)) (main1 main2 : Call) (calls1 calls2 : list Call)
    (returns1 returns2 : Returns) (k : string) (v : value) (tp : Tp) :
  let h1 := get_call_history_id op wrapped1 in
  let h2 := get_call_history_id op wrapped2 in
  (2 ≤ recursion_limit)%nat →
  typed_by tps1 wrapped1 → typed_by tps2 wrapped2 →
  calls_exists (storage w1) h1 = false → calls_exists (storage w2) h2 = false →
  call_internal op (as_values wrapped1) tps1 w1 = (inr (outs1, main1, calls1), w1') →
  call_internal op (as_values wrapped2) tps2 w2 = (inr (outs2, main2, calls2), w2') →
  execute (pred recursion_limit) op wrapped1 tps1 w1 = (inr returns1, wm1) →
  execute (pred recursion_limit) op wrapped2 tps2 w2 = (inr returns2, wm2) →
  dict_get returns1 k = Some (v, tp) → dict_get returns2 k = Some (v, tp) →
  hids_of wrapped1 ≠ hids_of wrapped2 →
  (h1 = h2 → hids_of wrapped1 = hids_of wrapped2) →
  (output_history_hash h1 k = output_history_hash h2 k → h1 = h2) →
  wrapped_directly v tp ∨ writes_nothing w1 w2 →
  ∃ r1 r2,
    dict_get outs1 k = Some r1 ∧ dict_get outs2 k = Some r2 ∧
    cid r1 = cid r2 ∧ hid r1 ≠ hid r2 ∧
    hid r1 = output_history_hash h1 k ∧ hid r2 = output_history_hash h2 k.
Proof.
  intros h1 h2 Hlim Htps1 Htps2 Hex1 Hex2 Hcall1 Hcall2 Hexec1 Hexec2 Hret1 Hret2
    Hdiff Hcall_inj Hout_inj Hcontent.
  destruct (executed_output _ _ _ _ _ _ _ _ _ _ _ _ _ Hlim Htps1 Hex1 Hcall1 Hexec1 Hret1)
    as (r1 & w01 & Hr1 & Hhid1 & Hw01 & Hcid1).
  destruct (executed_output _ _ _ _ _ _ _ _ _ _ _ _ _ Hlim Htps2 Hex2 Hcall2 Hexec2 Hret2)
    as (r2 & w02 & Hr2 & Hhid2 & Hw02 & Hcid2).
  exists r1, r2. split_and!; [done|done| |
    |done|done].
  - unfold output_cid in *. destruct v as [| | | |r0]; [..|congruence];
      (destruct tp as [|elt]; [congruence|]);
      (destruct Hcontent as [[[r0 [=]]|[=]]|Hw12]);
      destruct Hcid1 as (s1 & cs1 & w11 & Hc1 & ->), Hcid2 as (s2 & cs2 & w22 & Hc2 & ->);
      (assert (writes_nothing w01 w02) as Hw
         by (etrans; [symmetry; exact Hw01|]; etrans; [exact Hw12|exact Hw02]));
      destruct (respects_run writes_nothing _ _ _ _ _ _ _
                  (construct_at_respects _ _ _) Hw Hc1 Hc2) as [Heq _];
      by injection Heq as -> _.
  - rewrite Hhid1, Hhid2. intros Heq. apply Hdiff, Hcall_inj, Hout_inj, Heq.
Qed.

End OutputIds.

Lemma equal_content_same_cid_other_hid_witness :
  ∃ outs1 main1 calls1 w1' outs2 main2 calls2 w2' r1 r2,
    @call_internal Demo.adapters Demo.inc (as_values [("x", Demo.one)]) [("x", AtomType)]
      empty_world = (inr (outs1, main1, calls1), w1') ∧
    @call_internal Demo.adapters Demo.inc (as_values [("x", Demo.one')]) [("x", AtomType)]
      empty_world = (inr (outs2, main2, calls2), w2') ∧
    dict_get outs1 "output_0" = Some r1 ∧ dict_get outs2 "output_0" = Some r2 ∧
    cid r1 = cid r2 ∧ hid r1 ≠ hid r2.
Proof.
  destruct (@call_internal Demo.adapters Demo.inc (as_values [("x", Demo.one)])
              [("x", AtomType)] empty_world) as [[e1|[[outs1 main1] calls1]] w1'] eqn:Hcall1.
  { assert (returned (@call_internal Demo.adapters Demo.inc (as_values [("x", Demo.one)])
                        [("x", AtomType)] empty_world).1 = true) as Hret by (by vm_compute).
    by rewrite Hcall1 in Hret. }
  destruct (@call_internal Demo.adapters Demo.inc (as_values [("x", Demo.one')])
              [("x", AtomType)] empty_world) as [[e2|[[outs2 main2] calls2]] w2'] eqn:Hcall2.
  { assert (returned (@call_internal Demo.adapters Demo.inc (as_values [("x", Demo.one')])
                        [("x", AtomType)] empty_world).1 = true) as Hret by (by vm_compute).
    by rewrite Hcall2 in Hret. }
  destruct (@equal_content_same_cid_other_hid Demo.adapters Demo.inc
              [("x", Demo.one)] [("x", Demo.one')] [("x", AtomType)] [("x", AtomType)]
              empty_world empty_world w1' w2'
              (mkWorld empty_storage None [("inc", "inc/0(x=h(1);)")])
              (mkWorld empty_storage None [("inc", "inc/0(x=h'(1);)")])
              outs1 outs2 main1 main2 calls1 calls2
              [("output_0", (VInt 2, AtomType))] [("output_0", (VInt 2, AtomType))]
              "output_0" (VInt 2) AtomType)
    as (r1 & r2 & Hr1 & Hr2 & Hcid & Hhid & _).
  - simpl. lia.
  - repeat constructor. by eexists.
  - repeat constructor. by eexists.
  - by vm_compute.
  - by vm_compute.
  - exact Hcall1.
  - exact Hcall2.
  - by vm_compute.
  - by vm_compute.
  - by vm_compute.
  - by vm_compute.
  - by vm_compute.
  - intros Heq. by vm_compute in Heq.
  - intros Heq. by vm_compute in Heq.
  - left. by right.
  - by exists outs1, main1, calls1, w1', outs2, main2, calls2, w2', r1, r2.
Defined.

(** The same on a return of composite type: [pair_up] on two pairs of inputs
    with the same contents and different history ids. *)
Lemma list_outputs_same_cid_other_hid :
  ∃ outs1 main1 calls1 w1 outs2 main2 calls2 w2 r1 r2,
    @call_internal Demo.adapters Demo.pair_up (as_values [("a", Demo.one); ("b", Demo.two)])
      [("a", AtomType); ("b", AtomType)] empty_world = (inr (outs1, main1, calls1), w1) ∧
    @call_internal Demo.adapters Demo.pair_up (as_values [("a", Demo.one'); ("b", Demo.two)])
      [("a", AtomType); ("b", AtomType)] empty_world = (inr (outs2, main2, calls2), w2) ∧
    dict_get outs1 "output_0" = Some r1 ∧ dict_get outs2 "output_0" = Some r2 ∧
    is_atom r1 = false ∧ cid r1 = cid r2 ∧ hid r1 ≠ hid r2.
Proof.
  eexists _, _, _, _, _, _, _, _, _, _.
  split; [by vm_compute|]. split; [by vm_compute|]. by vm_compute.
Qed.

(** ** Calling twice *)

Lemma same_rows_known_settled s s' rs :
  same_rows s s' → known_settled s rs → known_settled s' rs.
Proof.
  intros (_&_&_&(_&_&Ha)&(_&_&Hs)&_) Hknown n Hn Hsome. rewrite <- Hs in Hsome.
  intros n' Hn'. destruct (Hknown n Hn Hsome n' Hn') as [H1 H2].
  by rewrite <- Hs, <- Ha.
Qed.

Lemma loaded_ids `{!Adapters} lazy r res s :
  loaded lazy r res s → hid res = hid r ∧ cid res = cid r.
Proof.
  destruct r as [c h m o|c h m l]; simpl.
  - destruct lazy; [by intros ->|]. by intros (b & _ & ->).
  - by intros ->.
Qed.

Section TwiceFacts.
Context `{!Adapters}.

Lemma input_hids_call_data c : input_hids (call_data c) = hids_of (inputs c).
Proof. unfold input_hids, call_data, hids_of. simpl. by rewrite <- list_fmap_compose. Qed.

Lemma output_hids_call_data c : output_hids (call_data c) = hids_of (outputs c).
Proof. unfold output_hids, call_data, hids_of. simpl. by rewrite <- list_fmap_compose. Qed.

(** Loading, lazily, the refs of a dictionary that the storage holds. *)
Lemma load_dict_settled (d : list (string * Ref)) w :
  (∀ kr, kr ∈ d → settled (storage w) kr.2 ∧ ref_depth kr.2 < recursion_limit) →
  ∃ res w',
    mapM (λ kv : string * string, r ← load_ref kv.2 true; mret (kv.1, r)) (hids_of d) w
      = (inr res, w') ∧
    reads_only w w' ∧ hids_of res = hids_of d ∧ cids_of res = cids_of d.
Proof.
  revert w. induction d as [|[k r] d IH]; intros w Hd.
  { exists [], w. by split_and!. }
  destruct (Hd (k, r)) as [Hr Hdepth]; [left|]. simpl in Hr, Hdepth.
  destruct (load_settled true r recursion_limit w Hdepth Hr) as (res & w1 & Hload & Hw1 & Hres).
  apply loaded_ids in Hres as [Hhid Hcid].
  destruct (IH w1) as (ress & w2 & Hloads & Hw2 & Hhids & Hcids).
  { intros kr Hkr. destruct (Hd kr) as [Hr' Hdepth']; [by right|]. split; [|done].
    by eapply settled_reads_only. }
  exists ((k, res) :: ress), w2. split_and!.
  - unfold hids_of at 1. rewrite fmap_cons, mapM_cons. fold (hids_of d).
    rewrite bind_run, bind_run. simpl. unfold load_ref in *. rewrite Hload. simpl.
    by rewrite bind_run, Hloads.
  - by etrans.
  - unfold hids_of in *. rewrite !fmap_cons. simpl. by rewrite Hhid, Hhids.
  - unfold cids_of in *. rewrite !fmap_cons. simpl. by rewrite Hcid, Hcids.
Qed.

(** Reading back a call whose row is in the call cache, whose op is
    registered and whose refs the storage holds. *)
Lemma get_call_settled (c : Call) w :
  call_cache (storage w) !! call_hid c = Some (call_data c) →
  is_Some (Cached.view (ops (storage w)) (name (call_op c))) →
  (∀ kr, kr ∈ inputs c ++ outputs c →
         settled (storage w) kr.2 ∧ ref_depth kr.2 < recursion_limit) →
  ∃ c' w',
    get_call (call_hid c) true w = (inr c', w') ∧ reads_only w w' ∧
    hids_of (outputs c') = hids_of (outputs c) ∧ cids_of (outputs c') = cids_of (outputs c).
Proof.
  intros Hrow [op Hop] Hrefs. unfold get_call.
  assert (get_data (call_hid c) w = (inr (call_data c), w)) as Hdata.
  { unfold get_data. by rewrite bind_run; simpl; rewrite Hrow. }
  rewrite bind_run, Hdata.
  destruct (table_get_run ops set_ops _ _ w ops_lens Hop) as (w1 & Hget & Hw1).
  rewrite bind_run. simpl cd_op_name. rewrite Hget.
  rewrite input_hids_call_data, output_hids_call_data.
  destruct (load_dict_settled (inputs c) w1) as (ins & w2 & Hins & Hw2 & _).
  { intros kr Hkr. destruct (Hrefs kr) as [Hr Hd]; [apply elem_of_app; by left|].
    split; [|done]. by eapply settled_reads_only. }
  rewrite bind_run, Hins.
  destruct (load_dict_settled (outputs c) w2) as (outs & w3 & Houts & Hw3 & Hhids & Hcids).
  { intros kr Hkr. destruct (Hrefs kr) as [Hr Hd]; [apply elem_of_app; by right|].
    split; [|done]. eapply settled_reads_only; [|exact Hr]. by etrans. }
  rewrite bind_run, Houts.
  eexists _, w3. split; [reflexivity|]. split; [|done].
  etrans; [exact Hw1|]. by etrans.
Qed.

(** Saving a call that is not stored: its row goes to the call cache, its op
    is registered, and the storage holds its refs if they are fit to be
    saved. *)
Lemma save_call_new (c : Call) w :
  calls_exists (storage w) (call_hid c) = false →
  known_settled (storage w) (inputs c ++ outputs c).*2 →
  same_hid_same_shape (inputs c ++ outputs c).*2 →
  ∃ w',
    save_call c w = (inr (), w') ∧
    call_cache (storage w') !! call_hid c = Some (call_data c) ∧
    is_Some (Cached.view (ops (storage w')) (name (call_op c))) ∧
    (∀ kr, kr ∈ inputs c ++ outputs c → settled (storage w') kr.2) ∧
    invoked w' = invoked w.
Proof.
  intros Hex Hknown Hsame.
  set (known := Cached.exists_ (ops (storage w)) (name (call_op c))).
  set (wa := if known then w
             else (table_set ops set_ops (name (call_op c)) (detached_op (call_op c)) w).2).
  assert ((if known then mret ()
           else table_set ops set_ops (name (call_op c)) (detached_op (call_op c))) w
          = (inr (), wa)) as Hops.
  { subst wa. by destruct known. }
  assert (shapes (storage wa) = shapes (storage w) ∧ atoms (storage wa) = atoms (storage w) ∧
          invoked wa = invoked w ∧
          is_Some (Cached.view (ops (storage wa)) (name (call_op c)))) as (Hs & Ha & Hi & Ho).
  { subst wa known. destruct (Cached.exists_ _ _) eqn:Hk; split_and!; try done.
    - by apply exists_view.
    - rewrite table_set_run. simpl. rewrite view_set, decide_True; [by eexists|done]. }
  destruct (save_all_new (λ kv : string * Ref, kv.2) (inputs c ++ outputs c)
              (λ x _, save_ref_new _) wa) as (r & wb & Hrun & Hext & Hnew & Hdef).
  assert (∀ kr, kr ∈ inputs c ++ outputs c → settled (storage wb) kr.2) as Hsettled.
  { intros kr Hkr. eapply (settled_after_save _ wa wb Hext Hnew).
    - intros n Hn Hsome. rewrite Hs in Hsome. intros n' Hn'.
      destruct (Hknown n Hn Hsome n' Hn') as [H1 H2]. by rewrite Hs, Ha.
    - exact Hsame.
    - apply elem_of_bind_nodes. exists kr.2. split; [by apply list_elem_of_fmap_2|].
      apply elem_of_nodes_self.
    - by apply Hdef. }
  exists (mkWorld (set_calls (<[call_hid c := call_data c]> (call_cache (storage wb)))
                     ({[call_hid c]} ∪ call_dirty (storage wb)) (call_storage (storage wb))
                     (storage wb))
                  (current_context wb) (invoked wb)).
  split_and!.
  - unfold save_call. rewrite bind_run. cbn [get_storage]. rewrite Hex.
    rewrite bind_run.
    change (table_exists ops (name (call_op c)) w) with (inr known : Exc + bool, w).
    cbn iota. rewrite bind_run, Hops, bind_run, Hrun. reflexivity.
  - simpl. by rewrite lookup_insert_eq.
  - simpl. destruct Hext as (_&_&_&_&_&Hops'&_). by rewrite <- Hops'.
  - exact Hsettled.
  - simpl. destruct Hext as (_&_&_&_&_&_&_&Hinv). by rewrite <- Hinv.
Qed.

End TwiceFacts.

Section Twice.
Context `{!Adapters}.

Lemma save_call_known (c : Call) w :
  calls_exists (storage w) (call_hid c) = true → save_call c w = (inr (), w).
Proof. intros Hex. unfold save_call. rewrite bind_run. cbn [get_storage]. by rewrite Hex. Qed.


End Twice.


(** ** Durable rows *)

#[global] Instance same_durable_equiv : Equivalence same_durable.
Proof.
  split.
  - intros w. by split_and!.
  - intros w w' (?&?&?&?). by split_and!.
  - intros w1 w2 w3 (?&?&?&?) (?&?&?&?). split_and!; congruence.
Qed.

Lemma writes_nothing_same_durable w w' : writes_nothing w w' → same_durable w w'.
Proof. intros ((_&_&?&(?&_)&(?&_)&(?&_))&_). by split_and!. Qed.

Section DurableFacts.
Context `{!Adapters}.

Lemma table_set_same_durable_atoms c b : preserves same_durable (table_set atoms set_atoms c b).
Proof. intros w. by split_and!. Qed.

Lemma table_set_same_durable_shapes h s : preserves same_durable (table_set shapes set_shapes h s).
Proof. intros w. by split_and!. Qed.

Lemma table_set_same_durable_ops h s : preserves same_durable (table_set ops set_ops h s).
Proof. intros w. by split_and!. Qed.

Lemma table_exists_same_durable {V} (tbl : Storage → CachedDictStorage V) k :
  preserves same_durable (table_exists tbl k).
Proof. intros w. by split_and!. Qed.

Lemma save_ref_same_durable ref : preserves same_durable (save_ref ref).
Proof.
  induction ref as [c h m o|c h m l IH] using Ref_ind'; cbn [save_ref].
  - mstep; [apply table_exists_same_durable|]. mstep; [mstep|].
    mstep; [apply table_set_same_durable_atoms|apply table_set_same_durable_shapes].
  - mstep; [apply table_exists_same_durable|]. mstep; [mstep|].
    mstep; [apply table_set_same_durable_shapes|]. mstep; [|mstep].
    mstep. by eapply Forall_forall in IH.
Qed.

Lemma save_call_same_durable c : preserves same_durable (save_call c).
Proof.
  unfold save_call. mstep; [mstep|]. mstep; [mstep|].
  mstep; [apply table_exists_same_durable|]. mstep.
  { mstep; [mstep|apply table_set_same_durable_ops]. }
  mstep; [mstep; apply save_ref_same_durable|].
  intros w. by split_and!.
Qed.

End DurableFacts.

(** ** Commit and coherence *)

Section CommitFacts.
Context {V : Type}.
Implicit Types (d : CachedDictStorage V) (k : string).

Lemma flush_lookup (c : gmap string V) (ks : list string) (p : gmap string V) k :
  foldr (λ k p, match c !! k with Some v => <[k:=v]> p | None => p end) p ks !! k
  = match c !! k with
    | Some v => if decide (k ∈ ks) then Some v else p !! k
    | None => p !! k
    end.
Proof.
  induction ks as [|k' ks IH]; cbn [foldr].
  { destruct (c !! k); [|done]. case_decide as Hin; [by apply not_elem_of_nil in Hin|done]. }
  destruct (decide (k = k')) as [<-|Hne].
  - destruct (c !! k) as [v|] eqn:Hc.
    + rewrite lookup_insert_eq. clear IH. case_decide as Hin; [done|]. destruct Hin. left.
    + by rewrite IH.
  - assert ((k ∈ k' :: ks) ↔ k ∈ ks) as Hiff.
    { split; [by intros [?|?]%elem_of_cons|by right]. }
    destruct (c !! k') as [v'|] eqn:Hc'.
    + rewrite lookup_insert_ne by done. rewrite IH. destruct (c !! k); [|done].
      repeat case_decide; tauto.
    + rewrite IH. destruct (c !! k); [|done]. repeat case_decide; tauto.
Qed.

Lemma commit_persistent d k :
  persistent (Cached.commit d) !! k
  = match cache d !! k with
    | Some v => if decide (k ∈ dirty_keys d) then Some v else persistent d !! k
    | None => persistent d !! k
    end.
Proof.
  unfold Cached.commit. cbn [persistent]. unfold set_fold. simpl.
  rewrite flush_lookup. destruct (cache d !! k); [|done].
  repeat case_decide; try done; exfalso; set_solver.
Qed.

Lemma commit_view d k : Cached.view (Cached.commit d) k = Cached.view d k.
Proof.
  unfold Cached.view. rewrite commit_persistent. cbn [Cached.commit cache].
  by destruct (cache d !! k).
Qed.

Lemma commit_coherent d : coherent d → coherent (Cached.commit d).
Proof.
  intros Hd k v Hk. right. rewrite commit_persistent. cbn [Cached.commit cache] in Hk.
  rewrite Hk. case_decide; [done|]. destruct (Hd k v Hk); done.
Qed.

Lemma commit_durable d k : coherent d → persistent (Cached.commit d) !! k = Cached.view d k.
Proof.
  intros Hd. rewrite commit_persistent. unfold Cached.view.
  destruct (cache d !! k) as [v|] eqn:Hk; [|done]. case_decide; [done|].
  destruct (Hd k v Hk); done.
Qed.

Lemma get_coherent d k : coherent d → coherent (Cached.get d k).2.
Proof.
  intros Hd. unfold Cached.get. destruct (cache d !! k) as [v|] eqn:Hk; [done|].
  destruct (persistent d !! k) as [v|] eqn:Hp; [|done].
  intros k' v'. cbn [snd cache dirty_keys persistent].
  destruct (decide (k = k')) as [<-|Hne].
  - rewrite lookup_insert_eq. intros [= <-]. by right.
  - rewrite lookup_insert_ne by done. apply Hd.
Qed.

Lemma set_coherent d k v : coherent d → coherent (Cached.set d k v).
Proof.
  intros Hd k' v'. cbn [Cached.set cache dirty_keys persistent].
  destruct (decide (k = k')) as [<-|Hne].
  - intros _. left. set_solver.
  - rewrite lookup_insert_ne by done. intros Hk. destruct (Hd k' v' Hk); [left; set_solver|by right].
Qed.

Lemma drop_coherent d k : coherent d → coherent (Cached.drop d k).
Proof.
  intros Hd k' v'. cbn [Cached.drop cache dirty_keys persistent].
  destruct (decide (k = k')) as [<-|Hne].
  - by rewrite lookup_delete_eq.
  - rewrite !lookup_delete_ne by done. apply Hd.
Qed.

Lemma same_table_coherent d d' : same_table d d' → coherent d → coherent d'.
Proof.
  intros (Hp & Hdk & Hv) Hd k v Hk. rewrite <- Hp, <- Hdk.
  assert (Cached.view d k = Some v) as Hview.
  { rewrite Hv. unfold Cached.view. by rewrite Hk. }
  unfold Cached.view in Hview. destruct (cache d !! k) as [v0|] eqn:Hc.
  - injection Hview as ->. by apply Hd.
  - by right.
Qed.

End CommitFacts.

#[global] Instance keeps_coherent_preorder : PreOrder keeps_coherent.
Proof. split; [by intros w Hw|]. intros w1 w2 w3 H1 H2 Hw. by apply H2, H1. Qed.

Lemma writes_nothing_keeps_coherent w w' : writes_nothing w w' → keeps_coherent w w'.
Proof.
  intros ((Hcc & Hcd & Hcs & Ha & Hs & Ho) & _) (Hc & Ha' & Hs' & Ho').
  split_and!.
  - intros k v. unfold calls_table in *. simpl in *. rewrite <- Hcc, <- Hcd, <- Hcs. apply Hc.
  - exact (same_table_coherent _ _ Ha Ha').
  - exact (same_table_coherent _ _ Hs Hs').
  - exact (same_table_coherent _ _ Ho Ho').
Qed.

Section CoherentFacts.
Context `{!Adapters}.

Lemma table_exists_keeps_coherent {V} (tbl : Storage → CachedDictStorage V) k :
  preserves keeps_coherent (table_exists tbl k).
Proof. by intros w. Qed.

Lemma set_atoms_keeps_coherent c b : preserves keeps_coherent (table_set atoms set_atoms c b).
Proof. intros w (?&?&?&?). split_and!; try done. by apply set_coherent. Qed.

Lemma set_shapes_keeps_coherent h s : preserves keeps_coherent (table_set shapes set_shapes h s).
Proof. intros w (?&?&?&?). split_and!; try done. by apply set_coherent. Qed.

Lemma set_ops_keeps_coherent n o : preserves keeps_coherent (table_set ops set_ops n o).
Proof. intros w (?&?&?&?). split_and!; try done. by apply set_coherent. Qed.

Lemma save_ref_keeps_coherent ref : preserves keeps_coherent (save_ref ref).
Proof.
  induction ref as [c h m o|c h m l IH] using Ref_ind'; cbn [save_ref].
  - mstep; [apply table_exists_keeps_coherent|]. mstep; [mstep|].
    mstep; [apply set_atoms_keeps_coherent|apply set_shapes_keeps_coherent].
  - mstep; [apply table_exists_keeps_coherent|]. mstep; [mstep|].
    mstep; [apply set_shapes_keeps_coherent|]. mstep; [|mstep].
    mstep. by eapply Forall_forall in IH.
Qed.

Lemma save_call_keeps_coherent c : preserves keeps_coherent (save_call c).
Proof.
  unfold save_call. mstep; [mstep|]. mstep; [mstep|].
  mstep; [apply table_exists_keeps_coherent|]. mstep.
  { mstep; [mstep|apply set_ops_keeps_coherent]. }
  mstep; [mstep; apply save_ref_keeps_coherent|].
  intros w (Hc&?&?&?). split_and!; try done.
  apply (set_coherent (calls_table (storage w))). exact Hc.
Qed.

Lemma commit_keeps_coherent : preserves keeps_coherent commit.
Proof.
  intros w (Hc&?&?&?). split_and!; simpl; try by apply commit_coherent.
  apply (commit_coherent (calls_table (storage w))). exact Hc.
Qed.

Lemma drop_ref_hid_keeps_coherent h : preserves keeps_coherent (_drop_ref_hid h false).
Proof. intros w (?&?&?&?). split_and!; try done. by apply drop_coherent. Qed.

Lemma drop_ref_keeps_coherent c : preserves keeps_coherent (_drop_ref c false).
Proof. intros w (?&?&?&?). split_and!; try done. by apply drop_coherent. Qed.

Lemma get_orphans_keeps_coherent : preserves keeps_coherent get_orphans.
Proof. intros w. unfold get_orphans. rewrite bind_run. simpl. by destruct (bool_decide _). Qed.

Lemma get_unreferenced_cids_keeps_coherent : preserves keeps_coherent get_unreferenced_cids.
Proof.
  intros w. unfold get_unreferenced_cids. rewrite bind_run. simpl. by destruct (bool_decide _).
Qed.

Lemma cleanup_refs_keeps_coherent : preserves keeps_coherent cleanup_refs.
Proof.
  unfold cleanup_refs. mstep; [apply get_orphans_keeps_coherent|].
  mstep; [mstep; apply drop_ref_hid_keeps_coherent|].
  mstep; [apply get_unreferenced_cids_keeps_coherent|].
  mstep; [mstep; apply drop_ref_keeps_coherent|mstep].
Qed.

End CoherentFacts.

(** ** Dropping calls, row by row *)

Section DropCalls.
Context `{!Adapters}.

Lemma drop_from_cache_run (ks : list string) w :
  ∃ r c,
    mapM (λ h, s ← get_storage;
               if bool_decide (is_Some (call_cache s !! h))
               then put_storage (set_calls (delete h (call_cache s)) (call_dirty s)
                                           (call_storage s) s)
               else mret ()) ks w
    = (inr r, mkWorld (set_calls c (call_dirty (storage w)) (call_storage (storage w))
                                 (storage w))
                      (current_context w) (invoked w)) ∧
    ∀ h, c !! h = if decide (h ∈ ks) then None else call_cache (storage w) !! h.
Proof.
  revert w. induction ks as [|k ks IH]; intros w.
  { exists [], (call_cache (storage w)). split; [by destruct w as [[]]|].
    intros h. case_decide as Hin; [by apply not_elem_of_nil in Hin|done]. }
  set (w1 := mkWorld (set_calls (delete k (call_cache (storage w))) (call_dirty (storage w))
                                (call_storage (storage w)) (storage w))
                     (current_context w) (invoked w)).
  destruct (IH w1) as (r & c & Hrun & Hc).
  exists (() :: r), c. split.
  - rewrite mapM_cons, bind_run, bind_run. cbn [get_storage].
    destruct (bool_decide (is_Some (call_cache (storage w) !! k))) eqn:Hk.
    + cbn [put_storage]. fold w1. rewrite bind_run, Hrun. done.
    + apply bool_decide_eq_false in Hk. rewrite <- eq_None_not_Some in Hk.
      assert (w = w1) as Hw.
      { subst w1. rewrite delete_id by done. by destruct w as [[]]. }
      cbn [mret M_ret]. rewrite bind_run. rewrite Hw at 1. rewrite Hrun. done.
  - intros h. rewrite Hc. simpl.
    destruct (decide (h = k)) as [->|Hne].
    + rewrite lookup_delete_eq. rewrite (decide_True (P := k ∈ k :: ks)) by left.
      by destruct (decide _).
    + rewrite lookup_delete_ne by done. destruct (decide (h ∈ ks)) as [Hin|Hnin].
      * rewrite decide_True; [done|by right].
      * rewrite decide_False; [done|]. by intros [?|?]%elem_of_cons.
Qed.

Lemma drop_from_storage_run (ks : list string) w :
  ∃ r c,
    mapM (λ h, s ← get_storage;
               put_storage (set_calls (call_cache s) (call_dirty s)
                                      (delete h (call_storage s)) s)) ks w
    = (inr r, mkWorld (set_calls (call_cache (storage w)) (call_dirty (storage w)) c
                                 (storage w))
                      (current_context w) (invoked w)) ∧
    ∀ h, c !! h = if decide (h ∈ ks) then None else call_storage (storage w) !! h.
Proof.
  revert w. induction ks as [|k ks IH]; intros w.
  { exists [], (call_storage (storage w)). split; [by destruct w as [[]]|].
    intros h. case_decide as Hin; [by apply not_elem_of_nil in Hin|done]. }
  set (w1 := mkWorld (set_calls (call_cache (storage w)) (call_dirty (storage w))
                                (delete k (call_storage (storage w))) (storage w))
                     (current_context w) (invoked w)).
  destruct (IH w1) as (r & c & Hrun & Hc).
  exists (() :: r), c. split.
  - rewrite mapM_cons, bind_run, bind_run. cbn [get_storage put_storage]. fold w1.
    rewrite bind_run, Hrun. done.
  - intros h. rewrite Hc. simpl.
    destruct (decide (h = k)) as [->|Hne].
    + rewrite lookup_delete_eq. rewrite (decide_True (P := k ∈ k :: ks)) by left.
      by destruct (decide _).
    + rewrite lookup_delete_ne by done. destruct (decide (h ∈ ks)) as [Hin|Hnin].
      * rewrite decide_True; [done|by right].
      * rewrite decide_False; [done|]. by intros [?|?]%elem_of_cons.
Qed.

(** What [drop_calls] leaves: the rows of the dropped hids are gone from the
    call cache and from the durable call table, the other rows are as they
    were. *)
Lemma drop_calls_run gd hids dd w :
  ∃ w',
    drop_calls gd hids dd w = (inr (), w') ∧
    (∀ h, call_cache (storage w') !! h
          = if decide (h ∈ dropped_hids gd (storage w) hids dd) then None
            else call_cache (storage w) !! h) ∧
    (∀ h, call_storage (storage w') !! h
          = if decide (h ∈ dropped_hids gd (storage w) hids dd) then None
            else call_storage (storage w) !! h) ∧
    call_dirty (storage w') = call_dirty (storage w) ∧
    atoms (storage w') = atoms (storage w) ∧ shapes (storage w') = shapes (storage w) ∧
    ops (storage w') = ops (storage w) ∧
    current_context w' = current_context w ∧ invoked w' = invoked w.
Proof.
  unfold drop_calls. rewrite bind_run. cbn [get_storage].
  change (if dd then hids ∪ (gd (call_storage (storage w)) ∅ hids).2 else hids)
    with (dropped_hids gd (storage w) hids dd).
  set (D := dropped_hids gd (storage w) hids dd).
  destruct (drop_from_cache_run (elements D) w) as (r1 & c1 & Hrun1 & Hc1).
  rewrite bind_run, Hrun1.
  match type of Hrun1 with _ = (_, ?x) => set (w1 := x) in * end.
  destruct (drop_from_storage_run (elements D) w1) as (r2 & c2 & Hrun2 & Hc2).
  rewrite bind_run, Hrun2. eexists. split; [reflexivity|]. simpl. split_and!; try done.
  - intros h. rewrite Hc1. destruct (decide (h ∈ D)) as [Hin|Hnin].
    + rewrite decide_True; [done|]. by apply elem_of_elements.
    + rewrite decide_False; [done|]. by rewrite elem_of_elements.
  - intros h. rewrite Hc2. simpl. destruct (decide (h ∈ D)) as [Hin|Hnin].
    + rewrite decide_True; [done|]. by apply elem_of_elements.
    + rewrite decide_False; [done|]. by rewrite elem_of_elements.
Qed.

End DropCalls.

(** ** Saving calls *)

Section SaveCall.
Context `{!Adapters}.

Lemma save_call_never_raises c : never_raises (save_call c).
Proof.
  unfold save_call. apply never_raises_bind; [apply never_raises_get_storage|intros s].
  destruct (calls_exists s (call_hid c)); [apply never_raises_ret|].
  apply never_raises_bind; [intros w; by eexists|intros known].
  apply never_raises_bind.
  { destruct known; [apply never_raises_ret|]. intros w. by eexists. }
  intros _. apply never_raises_bind.
  { apply never_raises_mapM. intros kv _. apply save_ref_never_raises. }
  intros _ w. by eexists.
Qed.

Lemma save_call_returns c w : save_call c w = (inr (), (save_call c w).2).
Proof.
  destruct (save_call_never_raises c w) as [[] Hx].
  destruct (save_call c w) as [r w']. simpl in *. by subst r.
Qed.

Lemma calls_save_stores c w : calls_exists (storage (calls_save c w).2) (call_hid c) = true.
Proof. unfold calls_exists. simpl. by rewrite lookup_insert_eq. Qed.

Lemma save_call_stores c w : calls_exists (storage (save_call c w).2) (call_hid c) = true.
Proof.
  destruct (calls_exists (storage w) (call_hid c)) eqn:Hex.
  { by rewrite save_call_known. }
  unfold save_call. rewrite bind_run. cbn [get_storage]. rewrite Hex.
  rewrite bind_run.
  change (table_exists ops (name (call_op c)) w)
    with (inr (Cached.exists_ (ops (storage w)) (name (call_op c))) : Exc + bool, w).
  cbn iota. rewrite bind_run.
  set (wa := if Cached.exists_ (ops (storage w)) (name (call_op c)) then w
             else (table_set ops set_ops (name (call_op c)) (detached_op (call_op c)) w).2).
  assert ((if Cached.exists_ (ops (storage w)) (name (call_op c)) then mret ()
           else table_set ops set_ops (name (call_op c)) (detached_op (call_op c))) w
          = (inr (), wa)) as ->.
  { subst wa. by destruct (Cached.exists_ _ _). }
  rewrite bind_run.
  assert (never_raises (mapM (λ kv : string * Ref, save_ref kv.2) (inputs c ++ outputs c)))
    as Hrefs.
  { apply never_raises_mapM. intros kv _. apply save_ref_never_raises. }
  destruct (Hrefs wa) as [r Hr].
  match goal with |- context [mapM ?g ?l wa] => destruct (mapM g l wa) as [res wb] end.
  simpl in Hr. subst res.
  apply calls_save_stores.
Qed.

(** X1: [save_call] is idempotent.  For every call and every state of the
    storage it returns without raising, the call exists afterwards
    ([exists_call] on its history id is true), and saving the same call
    again changes nothing at all. *)
Theorem save_call_idempotent (c : Call) (w : World) :
  (save_call c w).1 = inr () ∧
  exists_call (call_hid c) (save_call c w).2 = (inr true, (save_call c w).2) ∧
  save_call c (save_call c w).2 = (inr (), (save_call c w).2).
Proof.
  split; [by rewrite save_call_returns|]. split.
  - by rewrite exists_call_run, save_call_stores.
  - apply save_call_known, save_call_stores.
Qed.

(** X2: until [commit], nothing reaches the durable tables: [save_ref],
    [save_call], [load_ref], [get_call] and [call_internal] leave the rows
    of the durable [atoms], [shapes], [ops] and [calls] tables as they
    were, whatever they return. *)
Theorem durable_rows_wait_for_commit (w : World) :
  (∀ r, same_durable w (save_ref r w).2) ∧
  (∀ c, same_durable w (save_call c w).2) ∧
  (∀ h lazy, same_durable w (load_ref h lazy w).2) ∧
  (∀ h lazy, same_durable w (get_call h lazy w).2) ∧
  (∀ op inputs tps, same_durable w (call_internal op inputs tps w).2).
Proof.
  split_and!.
  - intros r. apply save_ref_same_durable.
  - intros c. apply save_call_same_durable.
  - intros h lazy. apply writes_nothing_same_durable, reads_only_writes_nothing.
    apply load_ref_at_reads.
  - intros h lazy. apply writes_nothing_same_durable, reads_only_writes_nothing.
    apply get_call_reads.
  - intros op inputs tps. apply writes_nothing_same_durable.
    apply call_internal_at_writes_nothing.
Qed.

End SaveCall.

(** ** Commit *)

Lemma empty_storage_coherent : storage_coherent empty_storage.
Proof. split_and!; intros k v Hk; simpl in Hk; by rewrite lookup_empty in Hk. Qed.

Section Commit.
Context `{!Adapters}.

Lemma drop_calls_keeps_coherent gd hids dd : preserves keeps_coherent (drop_calls gd hids dd).
Proof.
  intros w (Hc & Ha & Hs & Ho).
  destruct (drop_calls_run gd hids dd w)
    as (w' & Hrun & Hcache & Hstore & Hdirty & Ha' & Hs' & Ho' & _).
  rewrite Hrun. cbn [snd]. split_and!; [|by rewrite Ha'|by rewrite Hs'|by rewrite Ho'].
  intros k v. unfold calls_table. simpl.
  rewrite Hcache, Hstore, Hdirty. case_decide; [done|]. apply Hc.
Qed.

(** X3: the storage stays coherent under every method.  If, in each cached
    table, every cached row is dirty or equal to the durable row, the same
    holds after [save_ref], [save_call], [load_ref], [get_call],
    [call_internal], [drop_calls], [cleanup_refs] and [commit], whether the
    method returns or raises. *)
Theorem storage_stays_coherent (w : World) :
  storage_coherent (storage w) →
  (∀ r, storage_coherent (storage (save_ref r w).2)) ∧
  (∀ c, storage_coherent (storage (save_call c w).2)) ∧
  (∀ h lazy, storage_coherent (storage (load_ref h lazy w).2)) ∧
  (∀ h lazy, storage_coherent (storage (get_call h lazy w).2)) ∧
  (∀ op inputs tps, storage_coherent (storage (call_internal op inputs tps w).2)) ∧
  (∀ gd hids dd, storage_coherent (storage (drop_calls gd hids dd w).2)) ∧
  storage_coherent (storage (cleanup_refs w).2) ∧
  storage_coherent (storage (commit w).2).
Proof.
  intros Hw. split_and!.
  - intros r. by apply save_ref_keeps_coherent.
  - intros c. by apply save_call_keeps_coherent.
  - intros h lazy. eapply writes_nothing_keeps_coherent; [|exact Hw].
    apply reads_only_writes_nothing, load_ref_at_reads.
  - intros h lazy. eapply writes_nothing_keeps_coherent; [|exact Hw].
    apply reads_only_writes_nothing, get_call_reads.
  - intros op inputs tps. eapply writes_nothing_keeps_coherent; [|exact Hw].
    apply call_internal_at_writes_nothing.
  - intros gd hids dd. by apply drop_calls_keeps_coherent.
  - by apply cleanup_refs_keeps_coherent.
  - by apply commit_keeps_coherent.
Qed.

(** X4: from a coherent storage, [commit] returns and flushes all four
    tables: afterwards the durable tables hold exactly the rows that
    readers saw before, readers see the same rows, and no key is dirty. *)
Theorem commit_makes_rows_durable (w : World) :
  storage_coherent (storage w) →
  let s := storage w in
  let s' := storage (commit w).2 in
  (commit w).1 = inr () ∧
  (∀ k, persistent (atoms s') !! k = Cached.view (atoms s) k ∧
        Cached.view (atoms s') k = Cached.view (atoms s) k) ∧
  (∀ k, persistent (shapes s') !! k = Cached.view (shapes s) k ∧
        Cached.view (shapes s') k = Cached.view (shapes s) k) ∧
  (∀ k, persistent (ops s') !! k = Cached.view (ops s) k ∧
        Cached.view (ops s') k = Cached.view (ops s) k) ∧
  (∀ h, call_storage s' !! h = Cached.view (calls_table s) h ∧
        calls_exists s' h = calls_exists s h) ∧
  dirty_keys (atoms s') = ∅ ∧ dirty_keys (shapes s') = ∅ ∧ dirty_keys (ops s') = ∅ ∧
  call_dirty s' = ∅.
Proof.
  intros (Hc & Ha & Hs & Ho) s s'. split; [done|]. subst s s'. simpl.
  split_and!; try done.
  - intros k. split; [by apply commit_durable|apply commit_view].
  - intros k. split; [by apply commit_durable|apply commit_view].
  - intros k. split; [by apply commit_durable|apply commit_view].
  - intros h. split.
    + exact (commit_durable (calls_table (storage w)) h Hc).
    + pose proof (commit_view (calls_table (storage w)) h) as Hv.
      unfold calls_exists, Cached.view in *. simpl in *.
      destruct (call_cache (storage w) !! h); [done|]. by rewrite Hv.
Qed.

End Commit.

Lemma storage_stays_coherent_witness :
  storage_coherent (storage empty_world) ∧
  storage_coherent (storage (@save_ref Demo.adapters Demo.one_two empty_world).2) ∧
  storage_coherent (storage (commit empty_world).2).
Proof.
  split; [exact empty_storage_coherent|].
  destruct (@storage_stays_coherent Demo.adapters empty_world empty_storage_coherent)
    as (Hsave & _ & _ & _ & _ & _ & _ & Hcommit).
  split; [apply Hsave|exact Hcommit].
Defined.

Lemma commit_makes_rows_durable_witness :
  storage_coherent (storage Runs.inc_saved) ∧
  call_dirty (storage (commit Runs.inc_saved).2) = ∅ ∧
  ∀ h, call_storage (storage (commit Runs.inc_saved).2) !! h
       = Cached.view (calls_table (storage Runs.inc_saved)) h.
Proof.
  assert (storage_coherent (storage Runs.inc_saved)) as Hco.
  { unfold Runs.inc_saved, Runs.saved_after.
    destruct (call_internal _ _ _ empty_world) as [[e|[[outs main_call] calls]] w'] eqn:Hrun.
    - eapply (writes_nothing_keeps_coherent empty_world); [|exact empty_storage_coherent].
      change w' with (inl e : Exc + (list (string * Ref) * Call * list Call), w').2.
      rewrite <- Hrun. apply call_internal_at_writes_nothing.
    - apply save_call_keeps_coherent.
      eapply (writes_nothing_keeps_coherent empty_world); [|exact empty_storage_coherent].
      change w' with (inr (outs, main_call, calls) : Exc + (list (string * Ref) * Call * list Call), w').2.
      rewrite <- Hrun. apply call_internal_at_writes_nothing. }
  split; [exact Hco|].
  destruct (commit_makes_rows_durable Runs.inc_saved Hco)
    as (_ & _ & _ & _ & Hcalls & _ & _ & _ & Hdirty).
  split; [exact Hdirty|]. intros h. apply Hcalls.
Defined.

(** ** The sweep *)

Lemma elem_of_get_df cs (hc : string * string) :
  hc ∈ get_df cs ↔ ∃ k cd, cs !! k = Some cd ∧ hc ∈ snd <$> (cd_inputs cd ++ cd_outputs cd).
Proof.
  unfold get_df. rewrite list_elem_of_join. split.
  - intros (l & Hhc & Hl). apply list_elem_of_fmap in Hl as ([k cd] & -> & Hkc).
    apply elem_of_map_to_list in Hkc. by exists k, cd.
  - intros (k & cd & Hk & Hhc). eexists. split; [exact Hhc|].
    apply list_elem_of_fmap. exists (k, cd). split; [done|]. by apply elem_of_map_to_list.
Qed.

Lemma elem_of_hids_in_calls cs h :
  h ∈ hids_in_calls cs ↔ ∃ k cd, cs !! k = Some cd ∧ h ∈ ref_hids cd.
Proof.
  unfold hids_in_calls, ref_hids. rewrite elem_of_list_to_set, list_elem_of_fmap. split.
  - intros (hc & -> & Hhc). apply elem_of_get_df in Hhc as (k & cd & Hk & Hhc).
    exists k, cd. split; [done|]. apply list_elem_of_fmap in Hhc as (kv & -> & Hkv).
    apply list_elem_of_fmap. by exists kv.
  - intros (k & cd & Hk & Hh). apply list_elem_of_fmap in Hh as (kv & -> & Hkv).
    exists kv.2. split; [done|]. apply elem_of_get_df. exists k, cd. split; [done|].
    by apply list_elem_of_fmap_2.
Qed.

Lemma elem_of_cids_in_calls cs c :
  c ∈ cids_in_calls cs ↔ ∃ k cd, cs !! k = Some cd ∧ c ∈ ref_cids cd.
Proof.
  unfold cids_in_calls, ref_cids. rewrite elem_of_list_to_set, list_elem_of_fmap. split.
  - intros (hc & -> & Hhc). apply elem_of_get_df in Hhc as (k & cd & Hk & Hhc).
    exists k, cd. split; [done|]. apply list_elem_of_fmap in Hhc as (kv & -> & Hkv).
    apply list_elem_of_fmap. by exists kv.
  - intros (k & cd & Hk & Hh). apply list_elem_of_fmap in Hh as (kv & -> & Hkv).
    exists kv.2. split; [done|]. apply elem_of_get_df. exists k, cd. split; [done|].
    by apply list_elem_of_fmap_2.
Qed.

Lemma ref_hids_call_data c : ref_hids (call_data c) = hid <$> (inputs c ++ outputs c).*2.
Proof.
  unfold ref_hids, call_data. simpl. rewrite <- fmap_app, <- !list_fmap_compose. done.
Qed.

Lemma ref_cids_call_data c : ref_cids (call_data c) = cid <$> (inputs c ++ outputs c).*2.
Proof.
  unfold ref_cids, call_data. simpl. rewrite <- fmap_app, <- !list_fmap_compose. done.
Qed.

Section Sweep.
Context `{!Adapters}.

Lemma get_orphans_run w :
  current_context w = None →
  get_orphans w
  = (inr (dom (persistent (shapes (storage w))) ∖ hids_in_calls (call_storage (storage w))), w).
Proof. intros Hctx. unfold get_orphans. by rewrite bind_run, (in_context_closed w Hctx). Qed.

Lemma get_unreferenced_cids_run w :
  current_context w = None →
  get_unreferenced_cids w
  = (inr ((dom (persistent (atoms (storage w))) ∖ cids_in_calls (call_storage (storage w)))
          ∖ cids_in_shapes (storage w)), w).
Proof.
  intros Hctx. unfold get_unreferenced_cids. by rewrite bind_run, (in_context_closed w Hctx).
Qed.

(** The rows that [cleanup_refs] leaves, outside a context. *)
Lemma cleanup_refs_rows w :
  current_context w = None →
  let s := storage w in
  let orphans : gset string := dom (persistent (shapes s)) ∖ hids_in_calls (call_storage s) in
  ∃ w',
    cleanup_refs w = (inr (), w') ∧
    let s' := storage w' in
    let unreferenced : gset string :=
      (dom (persistent (atoms s)) ∖ cids_in_calls (call_storage s)) ∖ cids_in_shapes s' in
    (∀ h, persistent (shapes s') !! h
          = if decide (h ∈ orphans) then None else persistent (shapes s) !! h) ∧
    (∀ h, cache (shapes s') !! h
          = if decide (h ∈ orphans) then None else cache (shapes s) !! h) ∧
    (∀ c, persistent (atoms s') !! c
          = if decide (c ∈ unreferenced) then None else persistent (atoms s) !! c) ∧
    (∀ c, cache (atoms s') !! c
          = if decide (c ∈ unreferenced) then None else cache (atoms s) !! c) ∧
    call_cache s' = call_cache s ∧ call_dirty s' = call_dirty s ∧
    call_storage s' = call_storage s ∧ ops s' = ops s ∧
    dirty_keys (shapes s') = dirty_keys (shapes s) ∧
    dirty_keys (atoms s') = dirty_keys (atoms s) ∧
    current_context w' = None ∧ invoked w' = invoked w.
Proof.
  intros Hctx s orphans.
  set (w1 := mkWorld (set_shapes (drop_all (shapes s) (elements orphans)) s)
                     (current_context w) (invoked w)).
  set (unref := (dom (persistent (atoms s)) ∖ cids_in_calls (call_storage s))
                ∖ cids_in_shapes (storage w1)).
  set (w2 := mkWorld (set_atoms (drop_all (atoms (storage w1)) (elements unref)) (storage w1))
                     (current_context w1) (invoked w1)).
  assert (∀ {V} (d : CachedDictStorage V) ks, dirty_keys (drop_all d ks) = dirty_keys d)
    as Hdirty.
  { intros V d ks. revert d. induction ks as [|k ks IH]; intros d; [done|].
    unfold drop_all in *. cbn [foldl]. by rewrite IH. }
  exists w2. split.
  { unfold cleanup_refs. rewrite bind_run, (get_orphans_run w Hctx). fold s. fold orphans.
    rewrite bind_run. destruct (drop_hids_run (elements orphans) w) as [r ->]. fold s. fold w1.
    rewrite bind_run, (get_unreferenced_cids_run w1 Hctx).
    change (dom _ ∖ _ ∖ cids_in_shapes _) with unref. rewrite bind_run.
    destruct (drop_cids_run (elements unref) w1) as [r' ->]. done. }
  assert (cids_in_shapes (storage w2) = cids_in_shapes (storage w1)) as Hcs by done.
  cbn zeta. rewrite Hcs. fold unref. simpl. rewrite !Hdirty. split_and!; try done.
  - intros h. rewrite drop_all_persistent. destruct (decide (h ∈ orphans)) as [Hin|Hnin].
    + rewrite decide_True; [done|]. by apply elem_of_elements.
    + rewrite decide_False; [done|]. by rewrite elem_of_elements.
  - intros h. rewrite drop_all_cache. destruct (decide (h ∈ orphans)) as [Hin|Hnin].
    + rewrite decide_True; [done|]. by apply elem_of_elements.
    + rewrite decide_False; [done|]. by rewrite elem_of_elements.
  - intros c. rewrite drop_all_persistent. destruct (decide (c ∈ unref)) as [Hin|Hnin].
    + rewrite decide_True; [done|]. by apply elem_of_elements.
    + rewrite decide_False; [done|]. by rewrite elem_of_elements.
  - intros c. rewrite drop_all_cache. destruct (decide (c ∈ unref)) as [Hin|Hnin].
    + rewrite decide_True; [done|]. by apply elem_of_elements.
    + rewrite decide_False; [done|]. by rewrite elem_of_elements.
Qed.

(** X5: outside a context, after [cleanup_refs] nothing is left to clean
    up: [get_orphans] and [get_unreferenced_cids] return the empty set, and
    a second [cleanup_refs] changes nothing. *)
Theorem cleanup_refs_leaves_nothing_to_clean (w : World) :
  current_context w = None →
  ∃ w',
    cleanup_refs w = (inr (), w') ∧
    get_orphans w' = (inr ∅, w') ∧
    get_unreferenced_cids w' = (inr ∅, w') ∧
    cleanup_refs w' = (inr (), w').
Proof.
  intros Hctx.
  destruct (cleanup_refs_rows w Hctx)
    as (w' & Hrun & Hshapes & _ & Hatoms & _ & _ & _ & Hcalls & _ & _ & _ & Hctx' & _).
  exists w'. split; [exact Hrun|].
  assert (dom (persistent (shapes (storage w'))) ∖ hids_in_calls (call_storage (storage w'))
          = (∅ : gset string)) as Ho.
  { apply set_eq. intros h. rewrite elem_of_difference, elem_of_dom, Hshapes, Hcalls.
    split; [|by intros ?%not_elem_of_empty]. intros [[shp Hshp] Hnin].
    case_decide as Hor; [done|]. destruct Hor. apply elem_of_difference.
    split; [|done]. apply elem_of_dom. by eexists. }
  assert ((dom (persistent (atoms (storage w'))) ∖ cids_in_calls (call_storage (storage w')))
            ∖ cids_in_shapes (storage w') = (∅ : gset string)) as Hu.
  { apply set_eq. intros c. rewrite !elem_of_difference, elem_of_dom, Hatoms, Hcalls.
    split; [|by intros ?%not_elem_of_empty]. intros [[[b Hb] Hnin] Hnin'].
    case_decide as Hun; [done|]. destruct Hun. rewrite !elem_of_difference.
    split; [|done]. split; [|done]. apply elem_of_dom. by eexists. }
  assert (get_orphans w' = (inr ∅, w')) as Hgo.
  { by rewrite (get_orphans_run w' Hctx'), Ho. }
  assert (get_unreferenced_cids w' = (inr ∅, w')) as Hgu.
  { by rewrite (get_unreferenced_cids_run w' Hctx'), Hu. }
  split; [exact Hgo|]. split; [exact Hgu|].
  unfold cleanup_refs. rewrite bind_run, Hgo, elements_empty. cbn [mapM].
  rewrite bind_run. cbn [mret M_ret]. rewrite bind_run, Hgu, elements_empty. done.
Qed.

End Sweep.

Lemma cleanup_refs_leaves_nothing_to_clean_witness :
  let w := (commit (@save_ref Demo.adapters Demo.one_two empty_world).2).2 in
  current_context w = None ∧
  ∃ w', cleanup_refs w = (inr (), w') ∧ get_orphans w' = (inr ∅, w') ∧
        get_unreferenced_cids w' = (inr ∅, w') ∧ cleanup_refs w' = (inr (), w').
Proof. intros w. split; [done|]. exact (cleanup_refs_leaves_nothing_to_clean w eq_refl). Defined.

(** ** Garbage collection and the calls *)

Section Gc.
Context `{!Adapters}.

(** Saving a call that is not stored, step by step: the op is registered,
    the refs are saved, and the row goes to the call cache, marked dirty. *)
Lemma save_call_miss (c : Call) w :
  calls_exists (storage w) (call_hid c) = false →
  ∃ wb,
    save_call c w = (inr (), (calls_save c wb).2) ∧
    (∀ kr, kr ∈ inputs c ++ outputs c →
           is_Some (Cached.view (shapes (storage wb)) (hid kr.2))) ∧
    call_cache (storage wb) = call_cache (storage w) ∧
    call_dirty (storage wb) = call_dirty (storage w) ∧
    call_storage (storage wb) = call_storage (storage w) ∧
    current_context wb = current_context w ∧ invoked wb = invoked w.
Proof.
  intros Hex.
  set (known := Cached.exists_ (ops (storage w)) (name (call_op c))).
  set (wa := if known then w
             else (table_set ops set_ops (name (call_op c)) (detached_op (call_op c)) w).2).
  assert ((if known then mret ()
           else table_set ops set_ops (name (call_op c)) (detached_op (call_op c))) w
          = (inr (), wa)) as Hops.
  { subst wa. by destruct known. }
  assert (call_cache (storage wa) = call_cache (storage w) ∧
          call_dirty (storage wa) = call_dirty (storage w) ∧
          call_storage (storage wa) = call_storage (storage w) ∧
          current_context wa = current_context w ∧ invoked wa = invoked w)
    as (Hcc & Hcd & Hcs & Hctx & Hinv).
  { subst wa. by destruct known. }
  destruct (save_all_new (λ kv : string * Ref, kv.2) (inputs c ++ outputs c)
              (λ x _, save_ref_new _) wa) as (r & wb & Hrun & Hext & _ & Hdef).
  destruct Hext as (_ & _ & Hcc' & Hcd' & Hcs' & _ & Hctx' & Hinv').
  exists wb. split_and!; [|exact Hdef|congruence..].
  unfold save_call. rewrite bind_run. cbn [get_storage]. rewrite Hex, bind_run.
  change (table_exists ops (name (call_op c)) w) with (inr known : Exc + bool, w).
  cbn iota. rewrite bind_run, Hops, bind_run, Hrun. reflexivity.
Qed.

(** X6: reachability for the garbage collection.  Outside a context, once
    a call that was not stored has been saved and committed, its row is in
    the durable call table, and none of its inputs and outputs is an
    orphan: the history id of each is not in [get_orphans], and its shape
    is stored. *)
Theorem saved_call_refs_are_not_orphans (c : Call) (w : World) :
  current_context w = None →
  calls_exists (storage w) (call_hid c) = false →
  ∃ w1 orphans,
    (save_call c ≫= λ _, commit) w = (inr (), w1) ∧
    call_storage (storage w1) !! call_hid c = Some (call_data c) ∧
    get_orphans w1 = (inr orphans, w1) ∧
    ∀ kr, kr ∈ inputs c ++ outputs c →
          (hid kr.2 ∉ orphans) ∧ is_Some (Cached.view (shapes (storage w1)) (hid kr.2)).
Proof.
  intros Hctx Hex.
  destruct (save_call_miss c w Hex) as (wb & Hsave & Hdef & _ & _ & _ & Hctx' & _).
  set (w0 := (calls_save c wb).2) in *.
  set (w1 := (commit w0).2).
  assert (call_storage (storage w1) !! call_hid c = Some (call_data c)) as Hrow.
  { pose proof (commit_persistent (calls_table (storage w0)) (call_hid c)) as Hp.
    simpl in Hp. simpl. rewrite Hp, lookup_insert_eq.
    rewrite decide_True; [done|]. set_solver. }
  assert (current_context w1 = None) as Hctx1 by (simpl; congruence).
  exists w1, (dom (persistent (shapes (storage w1))) ∖ hids_in_calls (call_storage (storage w1))).
  split_and!.
  - by rewrite bind_run, Hsave.
  - exact Hrow.
  - by apply get_orphans_run.
  - intros kr Hkr. split.
    + intros [_ Hnin]%elem_of_difference. apply Hnin, elem_of_hids_in_calls.
      exists (call_hid c), (call_data c). split; [exact Hrow|].
      rewrite ref_hids_call_data. by apply list_elem_of_fmap_2, list_elem_of_fmap_2.
    + subst w1. simpl. rewrite commit_view. by apply Hdef.
Qed.

(** The result of loading a history id whose shape is an atom. *)
Lemma load_atom_result depth h lazy w shp :
  Cached.view (shapes (storage w)) h = Some shp →
  is_atom shp = true →
  (load_ref_at (S depth) h lazy w).1
  = if lazy then inr shp
    else match Cached.view (atoms (storage w)) (cid shp) with
         | Some b => inr (attached shp (deserialize b))
         | None => inl (KeyError (cid shp))
         end.
Proof.
  intros Hshp Hatom. cbn [load_ref_at]. rewrite bind_run.
  destruct (table_get_run shapes set_shapes h shp w shapes_lens Hshp) as (w1 & Hget & Hw1).
  rewrite Hget. destruct shp as [c h' m o|]; [|done]. destruct lazy; [done|].
  rewrite bind_run. pose proof (table_get_view atoms set_atoms c w1) as Hv.
  rewrite (reads_only_atoms _ _ _ Hw1) in Hv. cbn [cid].
  destruct (table_get atoms set_atoms c w1) as [[e|b] w2]; simpl in Hv |- *;
    destruct (Cached.view (atoms (storage w)) c); by simplify_eq.
Qed.

Lemma load_unknown depth h lazy w :
  Cached.view (shapes (storage w)) h = None →
  load_ref_at (S depth) h lazy w = (inl (KeyError h), w).
Proof.
  intros Hnone. cbn [load_ref_at]. rewrite bind_run. unfold table_get.
  rewrite bind_run. cbn [get_storage]. pose proof (get_view (shapes (storage w)) h) as Hv.
  rewrite Hnone in Hv. unfold Cached.get in *.
  destruct (cache (shapes (storage w)) !! h); [done|].
  by destruct (persistent (shapes (storage w)) !! h).
Qed.

(** X7: outside a context, [cleanup_refs] keeps what the durable calls
    name: the shape under the history id and the payload under the content
    id of every input and output of a durable call stay as they are, so an
    atom among them loads as before. *)
Theorem cleanup_refs_keeps_called_refs (w : World) (h c : string) :
  current_context w = None →
  (h, c) ∈ get_df (call_storage (storage w)) →
  ∃ w',
    cleanup_refs w = (inr (), w') ∧
    Cached.view (shapes (storage w')) h = Cached.view (shapes (storage w)) h ∧
    Cached.view (atoms (storage w')) c = Cached.view (atoms (storage w)) c ∧
    ∀ shp lazy,
      Cached.view (shapes (storage w)) h = Some shp → is_atom shp = true → cid shp = c →
      (load_ref h lazy w').1 = (load_ref h lazy w).1.
Proof.
  intros Hctx Hhc.
  destruct (cleanup_refs_rows w Hctx)
    as (w' & Hrun & Hsp & Hsc & Hap & Hac & _).
  assert (h ∈ hids_in_calls (call_storage (storage w))) as Hh.
  { unfold hids_in_calls. apply elem_of_list_to_set. by apply (list_elem_of_fmap_2 fst) in Hhc. }
  assert (c ∈ cids_in_calls (call_storage (storage w))) as Hc.
  { unfold cids_in_calls. apply elem_of_list_to_set. by apply (list_elem_of_fmap_2 snd) in Hhc. }
  assert (Cached.view (shapes (storage w')) h = Cached.view (shapes (storage w)) h) as Hs.
  { unfold Cached.view. rewrite Hsp, Hsc. case_decide as Hin; [|done].
    apply elem_of_difference in Hin as [_ Hnin]. by destruct Hnin. }
  assert (Cached.view (atoms (storage w')) c = Cached.view (atoms (storage w)) c) as Ha.
  { unfold Cached.view. rewrite Hap, Hac. case_decide as Hin; [|done].
    apply elem_of_difference in Hin as [[_ Hnin]%elem_of_difference _]. by destruct Hnin. }
  exists w'. split_and!; [done..|].
  intros shp lazy Hshp Hatom <-. unfold load_ref. destruct recursion_limit as [|d]; [done|].
  rewrite (load_atom_result d h lazy w shp Hshp Hatom).
  rewrite (load_atom_result d h lazy w' shp); [|by rewrite Hs|done]. by rewrite Ha.
Qed.

(** X8: loading a ref whose rows are missing (the recursion limit being
    positive): an unknown history id raises [KeyError] with the history id
    and changes nothing; an atom whose payload is missing raises [KeyError]
    with its content id when loaded with [lazy=False], and loads as its
    shape with [lazy=True]. *)
Theorem load_ref_missing_rows (h : string) (w : World) :
  (0 < recursion_limit)%nat →
  (Cached.view (shapes (storage w)) h = None →
   ∀ lazy, load_ref h lazy w = (inl (KeyError h), w)) ∧
  (∀ shp, Cached.view (shapes (storage w)) h = Some shp → is_atom shp = true →
          Cached.view (atoms (storage w)) (cid shp) = None →
          (load_ref h false w).1 = inl (KeyError (cid shp)) ∧
          (load_ref h true w).1 = inr shp).
Proof.
  intros Hlim. unfold load_ref. destruct recursion_limit as [|d]; [lia|]. split.
  - intros Hnone lazy. by apply load_unknown.
  - intros shp Hshp Hatom Hnone.
    rewrite !(load_atom_result d h _ w shp Hshp Hatom), Hnone. done.
Qed.

(** X9: [_drop_ref_hid], without verification or on a history id that is
    in no durable call, returns and leaves the atoms alone: the history id
    no longer loads ([KeyError] with the history id), and an atom under
    another history id loads as before, also when the two have the same
    content id. *)
Theorem dropping_a_shape_keeps_the_atoms (h : string) (verify : bool) (w : World) :
  (0 < recursion_limit)%nat →
  verify = false ∨ exists_ref_hid (call_storage (storage w)) h = false →
  ∃ w',
    _drop_ref_hid h verify w = (inr (), w') ∧
    atoms (storage w') = atoms (storage w) ∧
    (∀ lazy, load_ref h lazy w' = (inl (KeyError h), w')) ∧
    ∀ h' shp lazy,
      h' ≠ h → Cached.view (shapes (storage w)) h' = Some shp → is_atom shp = true →
      (load_ref h' lazy w').1 = (load_ref h' lazy w).1.
Proof.
  intros Hlim Hverify.
  set (w' := mkWorld (set_shapes (Cached.drop (shapes (storage w)) h) (storage w))
                     (current_context w) (invoked w)).
  assert (∀ k, Cached.view (shapes (storage w')) k
               = if decide (k = h) then None else Cached.view (shapes (storage w)) k) as Hview.
  { intros k. unfold Cached.view. simpl. case_decide as Hk.
    - subst k. by rewrite !lookup_delete_eq.
    - by rewrite !lookup_delete_ne. }
  exists w'. split_and!.
  - unfold _drop_ref_hid. rewrite bind_run. cbn [get_storage].
    destruct Hverify as [->| ->]; [done|]. by rewrite andb_false_r.
  - done.
  - intros lazy. unfold load_ref. destruct recursion_limit as [|d]; [lia|].
    apply load_unknown. rewrite Hview. by rewrite decide_True.
  - intros h' shp lazy Hne Hshp Hatom. unfold load_ref.
    destruct recursion_limit as [|d]; [lia|].
    rewrite (load_atom_result d h' lazy w shp Hshp Hatom).
    rewrite (load_atom_result d h' lazy w' shp); [done| |done].
    rewrite Hview. by rewrite decide_False.
Qed.

(** X10: [drop_calls] returns, and afterwards the dropped calls (the given
    ones and, with [delete_dependents], their dependents) no longer exist:
    [exists_call] is false for each of them.  Every other call is as it
    was: it exists if it did, and [get_data] reads the same row. *)
Theorem drop_calls_forgets_the_calls gd (hids : gset string) (delete_dependents : bool)
    (w : World) :
  ∃ w',
    drop_calls gd hids delete_dependents w = (inr (), w') ∧
    (∀ h, h ∈ hids → exists_call h w' = (inr false, w')) ∧
    (∀ h, h ∈ dropped_hids gd (storage w) hids delete_dependents →
          exists_call h w' = (inr false, w')) ∧
    (∀ h, h ∉ dropped_hids gd (storage w) hids delete_dependents →
          exists_call h w' = (inr (calls_exists (storage w) h), w') ∧
          (get_data h w').1 = (get_data h w).1).
Proof.
  destruct (drop_calls_run gd hids delete_dependents w)
    as (w' & Hrun & Hcache & Hstore & _).
  assert (∀ h, h ∈ dropped_hids gd (storage w) hids delete_dependents →
               exists_call h w' = (inr false, w')) as Hgone.
  { intros h Hh. rewrite exists_call_run. unfold calls_exists.
    rewrite Hcache, Hstore. by rewrite !decide_True by done. }
  exists w'. split_and!; [done| |done|].
  - intros h Hh. apply Hgone. unfold dropped_hids. destruct delete_dependents; [|done].
    apply elem_of_union. by left.
  - intros h Hh. split.
    + rewrite exists_call_run. unfold calls_exists. rewrite Hcache, Hstore.
      by rewrite !decide_False by done.
    + unfold get_data. rewrite !bind_run. cbn [get_storage].
      rewrite Hcache, Hstore. rewrite !decide_False by done.
      destruct (call_cache (storage w) !! h); [done|].
      by destruct (call_storage (storage w) !! h).
Qed.

(** X11: outside a context, once every durable call that names a history
    id with a durable shape has been dropped by [drop_calls], the history id
    is an orphan, and [cleanup_refs] drops its shape. *)
Theorem dropped_calls_orphan_their_refs gd (hids : gset string) (delete_dependents : bool)
    (w : World) (h : string) :
  current_context w = None →
  h ∈ dom (persistent (shapes (storage w))) →
  (∀ k cd, call_storage (storage w) !! k = Some cd → h ∈ ref_hids cd → k ∈ hids) →
  ∃ w' orphans w'',
    drop_calls gd hids delete_dependents w = (inr (), w') ∧
    get_orphans w' = (inr orphans, w') ∧ h ∈ orphans ∧
    cleanup_refs w' = (inr (), w'') ∧
    Cached.view (shapes (storage w'')) h = None.
Proof.
  intros Hctx Hdom Hcalls.
  destruct (drop_calls_run gd hids delete_dependents w)
    as (w' & Hrun & _ & Hstore & _ & _ & Hshapes & _ & Hctx' & _).
  rewrite Hctx in Hctx'.
  assert (h ∈ dom (persistent (shapes (storage w'))) ∖ hids_in_calls (call_storage (storage w')))
    as Horphan.
  { apply elem_of_difference. split; [by rewrite Hshapes|].
    intros (k & cd & Hk & Hh)%elem_of_hids_in_calls. rewrite Hstore in Hk.
    case_decide as Hin; [done|]. apply Hin. unfold dropped_hids.
    specialize (Hcalls k cd Hk Hh). destruct delete_dependents; [|done].
    apply elem_of_union. by left. }
  destruct (cleanup_refs_rows w' Hctx') as (w'' & Hclean & Hsp & Hsc & _).
  exists w', (dom (persistent (shapes (storage w'))) ∖ hids_in_calls (call_storage (storage w'))),
    w''.
  split_and!; [exact Hrun|by apply get_orphans_run|exact Horphan|exact Hclean|].
  unfold Cached.view. rewrite Hsp, Hsc. by rewrite !decide_True by done.
Qed.

End Gc.

(** ** Verified drops *)

Section Verify.
Context `{!Adapters}.

Lemma verified_drop_hids (ks : list string) w :
  (∀ k, k ∈ ks → k ∉ hids_in_calls (call_storage (storage w))) →
  mapM (λ h, _drop_ref_hid h true) ks w = mapM (λ h, _drop_ref_hid h false) ks w.
Proof.
  revert w. induction ks as [|k ks IH]; intros w Hks; [done|].
  rewrite !mapM_cons, !bind_run.
  assert (_drop_ref_hid k true w = _drop_ref_hid k false w) as ->.
  { unfold _drop_ref_hid. rewrite !bind_run. cbn [get_storage andb].
    unfold exists_ref_hid. rewrite bool_decide_eq_false_2; [done|]. apply Hks. left. }
  rewrite drop_ref_hid_run, !bind_run. rewrite IH; [done|].
  intros k' Hk'. simpl. apply Hks. by right.
Qed.

Lemma verified_drop_cids (ks : list string) w :
  (∀ k, k ∈ ks → k ∉ cids_in_shapes (storage w)) →
  mapM (λ c, _drop_ref c true) ks w = mapM (λ c, _drop_ref c false) ks w.
Proof.
  revert w. induction ks as [|k ks IH]; intros w Hks; [done|].
  rewrite !mapM_cons, !bind_run.
  assert (_drop_ref k true w = _drop_ref k false w) as ->.
  { unfold _drop_ref. rewrite !bind_run. cbn [get_storage andb].
    rewrite bool_decide_eq_false_2; [done|]. apply Hks. left. }
  rewrite drop_ref_run, !bind_run. rewrite IH; [done|].
  intros k' Hk'. apply Hks. by right.
Qed.

(** X12: the drops that [cleanup_refs] makes pass the verification of
    [_drop_ref_hid] and [_drop_ref]: dropping the orphans, and then the
    unreferenced content ids, with [verify=True] does what it does with
    [verify=False].  A history id that a durable call names, and a content
    id of a durable shape, fail the verification, and nothing is dropped. *)
Theorem cleanup_drops_pass_verification (w : World) :
  (∀ orphans, get_orphans w = (inr orphans, w) →
     mapM (λ h, _drop_ref_hid h true) (elements orphans) w
     = mapM (λ h, _drop_ref_hid h false) (elements orphans) w) ∧
  (∀ unreferenced, get_unreferenced_cids w = (inr unreferenced, w) →
     mapM (λ c, _drop_ref c true) (elements unreferenced) w
     = mapM (λ c, _drop_ref c false) (elements unreferenced) w) ∧
  (∀ h, h ∈ hids_in_calls (call_storage (storage w)) →
        _drop_ref_hid h true w = (inl AssertionError, w)) ∧
  (∀ c, c ∈ cids_in_shapes (storage w) → _drop_ref c true w = (inl AssertionError, w)).
Proof.
  split_and!.
  - intros orphans Hrun. apply verified_drop_hids. intros k Hk%elem_of_elements.
    unfold get_orphans in Hrun. rewrite bind_run in Hrun. cbn [in_context] in Hrun.
    destruct (bool_decide (current_context w ≠ None)); [done|].
    rewrite bind_run in Hrun. cbn in Hrun. injection Hrun as <-.
    by apply elem_of_difference in Hk as [_ Hk].
  - intros unref Hrun. apply verified_drop_cids. intros k Hk%elem_of_elements.
    unfold get_unreferenced_cids in Hrun. rewrite bind_run in Hrun. cbn [in_context] in Hrun.
    destruct (bool_decide (current_context w ≠ None)); [done|].
    rewrite bind_run in Hrun. cbn in Hrun. injection Hrun as <-.
    by apply elem_of_difference in Hk as [_ Hk].
  - intros h Hh. unfold _drop_ref_hid. rewrite bind_run. cbn [get_storage andb].
    unfold exists_ref_hid. by rewrite bool_decide_eq_true_2.
  - intros c Hc. unfold _drop_ref. rewrite bind_run. cbn [get_storage andb].
    by rewrite bool_decide_eq_true_2.
Qed.

End Verify.

(** ** Constructing structures *)

Lemma mapM_pure {A B} (g : A → M B) xs ys :
  Forall2 (λ x y, ∀ w, g x w = (inr y, w)) xs ys → ∀ w, mapM g xs w = (inr ys, w).
Proof.
  induction 1 as [|x y xs ys Hx _ IH]; intros w; [done|].
  by rewrite mapM_cons, bind_run, Hx, bind_run, IH.
Qed.

Lemma ret_bind_run {A B} (x : A) (k : A → M B) w : (mret x ≫= k) w = k x w.
Proof. done. Qed.

Lemma snd_imap_named {A} (g : nat → string) (l : list A) :
  (imap (λ i e, (g i, e)) l).*2 = l.
Proof.
  revert g. induction l as [|x l IH]; intros g; [done|].
  simpl. f_equal. apply (IH (g ∘ S)).
Qed.

Lemma same_rows_never_called `{!Adapters} op s s' :
  same_rows s s' → never_called op s → never_called op s'.
Proof. intros Hs Hn ins. rewrite <- (same_rows_calls_exists _ _ _ Hs). apply Hn. Qed.

Section Construct.
Context `{!Adapters}.

Lemma construct_inputs (P : World → Prop) d elt tps (ins : list (string * value)) w :
  (∀ w w', writes_nothing w w' → P w → P w') →
  (∀ v w, raw_of elt v = true → P w →
     ∃ r calls w', construct_at d elt v w = (inr (r, calls), w') ∧ writes_nothing w w' ∧
                   built elt ("", v) ("", r, calls)) →
  Forall (λ kv, dict_get tps kv.1 = Some elt ∧ raw_of elt kv.2 = true) ins →
  P w →
  ∃ wrapped w',
    mapM (λ kv : string * value,
            tp ← dict_lookup tps kv.1;
            '(r, struct_calls) ← construct_at d tp kv.2;
            mret ((kv.1, r), struct_calls)) ins w = (inr wrapped, w') ∧
    writes_nothing w w' ∧ Forall2 (built elt) ins wrapped.
Proof.
  intros HP IH Hins.
  match goal with |- context [mapM ?g _ _] => set (G := g) end.
  revert w. induction Hins as [|[k v] ins [Htp Hraw] _ IHins]; intros w Hw.
  { exists [], w. split; [done|]. split; [reflexivity|constructor]. }
  simpl in Htp, Hraw.
  destruct (IH v w Hraw Hw) as (r & calls & w1 & Hr & Hw1 & _ & Hcid & Hmem & Hun & Hcalls).
  destruct (IHins w1 (HP _ _ Hw1 Hw)) as (wrapped & w2 & Hrun & Hw2 & Hbuilt).
  assert (G (k, v) w = (inr (k, r, calls), w1)) as Hstep.
  { subst G. cbn beta. rewrite bind_run. unfold dict_lookup. cbn [fst snd]. rewrite Htp.
    cbn [mret M_ret]. by rewrite bind_run, Hr. }
  exists ((k, r, calls) :: wrapped), w2. split; [|split; [by etrans|]].
  - by rewrite mapM_cons, bind_run, Hstep, bind_run, Hrun.
  - constructor; [|done]. by split_and!.
Qed.

Lemma struct_tps_lookup (elt : Tp) (n i : nat) :
  (i < n)%nat →
  dict_get ((λ i : nat, ("elts_" +:+ pretty i, elt)) <$> seq 0 n) ("elts_" +:+ pretty i)
  = Some elt.
Proof.
  intros Hi.
  destruct (dict_get_is_Some ((λ i : nat, ("elts_" +:+ pretty i, elt)) <$> seq 0 n)
              ("elts_" +:+ pretty i)) as [tp Htp].
  { rewrite <- list_fmap_compose. apply list_elem_of_fmap. exists i. split; [done|].
    apply elem_of_seq. lia. }
  rewrite Htp. f_equal. apply dict_get_elem in Htp.
  by apply list_elem_of_fmap in Htp as (j & [= _ ->] & _).
Qed.

Lemma construct_at_raw tp : ∀ v depth w,
  raw_of tp v = true →
  (2 * tp_depth tp < depth)%nat →
  never_called __make_list__ (storage w) →
  ∃ r calls w',
    construct_at depth tp v w = (inr (r, calls), w') ∧ writes_nothing w w' ∧
    built tp ("", v) ("", r, calls).
Proof.
  induction tp as [|elt IH]; intros v depth w Hraw Hdepth Hnever.
  - destruct depth as [|d]; [simpl in Hdepth; lia|].
    exists (wrap_atom v None), [], w. split; [by destruct v|]. split; [reflexivity|].
    by split_and!.
  - destruct v as [| | |l|]; try done. cbn [raw_of] in Hraw.
    destruct depth as [|[|d]]; [simpl in Hdepth; lia..|].
    cbn [construct_at get_struct_builder get_struct_inputs get_struct_tps].
    rewrite !ret_bind_run.
    set (ins := imap (λ i elt0, ("elts_" +:+ pretty i, elt0)) l).
    set (tps := (λ i, ("elts_" +:+ pretty i, elt)) <$> seq 0 (length ins)).
    destruct (construct_inputs (λ w, never_called __make_list__ (storage w)) d elt tps ins w)
      as (wrapped & w1 & Hins & Hw1 & Hbuilt).
    { intros w0 w0' [Hrows _]. by apply same_rows_never_called. }
    { intros v0 w0 Hv0 Hw0. apply IH; [done| |done]. simpl in Hdepth. lia. }
    { subst ins tps. rewrite length_imap. apply Forall_forall. intros kv Hkv.
      apply list_elem_of_lookup in Hkv as [i Hi]. rewrite list_lookup_imap in Hi.
      destruct (l !! i) as [e|] eqn:Hl; [|done]. injection Hi as <-. simpl. split.
      - apply struct_tps_lookup. by eapply lookup_lt_Some.
      - rewrite forallb_forall in Hraw. apply Hraw. apply list_elem_of_In.
        by eapply list_elem_of_lookup_2. }
    { done. }
    cbn [call_internal_at]. rewrite !bind_run, Hins. cbn zeta.
    rewrite bind_run, exists_call_run.
    rewrite (same_rows_never_called _ _ _ (proj1 Hw1) Hnever). cbn iota.
    cbn [f __make_list__]. rewrite !bind_run. cbn [log_invocation fst snd].
    cbn [mret M_ret]. rewrite bind_run.
    set (w2 := mkWorld _ _ _).
    set (h := get_call_history_id _ _).
    rewrite mapM_cons, bind_run, bind_run. unfold dict_lookup.
    rewrite (output_history_id_lookup h ["output_0"] "output_0") by left.
    cbn [mret M_ret fst snd with_hid]. cbn [mapM]. rewrite !bind_run. cbn [mret M_ret].
    cbn [fmap list_fmap fst snd outputs concat app].
    eexists _, _, w2. split; [reflexivity|]. split.
    { etrans; [exact Hw1|]. subst w2. by split. }
    assert (wrapped.*1.*1 = ins.*1 ∧ (cid <$> wrapped.*1.*2) = (raw_cid elt <$> l) ∧
            Forall2 (λ r v, ∀ w, unwrap r w = (inr v, w)) wrapped.*1.*2 l ∧
            Forall (λ c, call_op c = __make_list__) (concat wrapped.*2)) as (_ & Hcids & Hun & Hcalls).
    { assert (ins.*2 = l) as Hl.
      { subst ins. apply snd_imap_named. }
      rewrite <- Hl. clear -Hbuilt.
      induction Hbuilt as [|kv wr ins wrapped (Hk & Hc & Hm & Hu & Hcs) _ IH]; [by split_and!|].
      destruct IH as (IH1 & IH2 & IH3 & IH4). rewrite !fmap_cons. simpl.
      split_and!; [by f_equal|by f_equal|by constructor|]. by apply Forall_app. }
    split_and!; cbn [fst snd cid in_memory raw_cid]; try done.
    + by rewrite Hcids.
    + intros w0. cbn [unwrap]. rewrite bind_run. fold unwrap.
      by rewrite (mapM_pure unwrap _ _ Hun).
    + apply Forall_app. split; [by rewrite app_nil_r|]. by repeat constructor.
Qed.

End Construct.

(** ** Destructing structures *)

Section Destruct.
Context `{!Adapters}.

Lemma get_item_run d elt c h m l i e w :
  l !! i = Some e →
  never_called __get_item__ (storage w) →
  ∃ main_call w',
    call_internal_at (S (S d)) __get_item__
      [("obj", VRef (ListRef c h m l)); ("attr", VInt (Z.of_nat i))]
      [("obj", elt); ("attr", AtomType)] w
    = (inr ([("output_0", with_hid e (item_hid (ListRef c h m l) i))], main_call, []), w') ∧
    call_op main_call = __get_item__ ∧ writes_nothing w w'.
Proof.
  intros Hl Hnever. cbn [call_internal_at]. rewrite bind_run.
  set (ins := [("obj", ListRef c h m l); ("attr", wrap_atom (VInt (Z.of_nat i)) None)]).
  match goal with |- context [mapM ?g ?xs w] =>
    assert (mapM g xs w = (inr ((λ kr, (kr, [])) <$> ins), w)) as -> by reflexivity
  end.
  cbn zeta. change (((λ kr : string * Ref, (kr, @nil Call)) <$> ins).*1) with ins.
  rewrite bind_run, exists_call_run, (Hnever ins). cbn iota.
  cbn [f __get_item__]. rewrite !bind_run. cbn [log_invocation].
  set (w1 := mkWorld _ _ _).
  change (dict_get ins "obj") with (Some (ListRef c h m l)).
  change (dict_get ins "attr") with (Some (wrap_atom (VInt (Z.of_nat i)) None)).
  cbn [wrap_atom]. cbn iota.
  assert ((Z.of_nat i <? 0)%Z = false) as Hneg by (apply Z.ltb_ge; lia).
  rewrite Hneg. cbn iota. rewrite Hneg, Nat2Z.id, Hl. cbn [mret M_ret]. rewrite bind_run.
  match goal with |- context [mapM ?g ?xs w1] =>
    assert (mapM g xs w1
            = (inr [("output_0", with_hid e (item_hid (ListRef c h m l) i), [])], w1))
      as -> by reflexivity
  end.
  eexists _, w1. split; [reflexivity|]. split; [done|]. subst w1. by split.
Qed.

Lemma with_item_hids_ids r h : cid (with_item_hids r h) = cid r ∧ hid (with_item_hids r h) = h.
Proof. by destruct r. Qed.

Lemma with_hid_item_hids r h h' : with_item_hids (with_hid r h') h = with_item_hids r h.
Proof. by destruct r. Qed.

Lemma length_nodes_list c h m l :
  length (nodes (ListRef c h m l)) = S (sum_list ((λ e, length (nodes e)) <$> l)).
Proof.
  change (nodes (ListRef c h m l)) with (ListRef c h m l :: mjoin (nodes <$> l)).
  cbn [length]. f_equal. induction l as [|e l IH]; [done|].
  rewrite !fmap_cons.
  change (mjoin (nodes e :: (nodes <$> l))) with (nodes e ++ mjoin (nodes <$> l)).
  by rewrite length_app, IH.
Qed.

Lemma destruct_at_list d c h m l elt :
  destruct_at (S d) (ListRef c h m l) (ListType elt)
  = (per_elt ← mapM (λ i : nat,
                       '(getitem_dict, item_call, _) ←
                          call_internal_at d __get_item__
                            [("obj", VRef (ListRef c h m l)); ("attr", VInt (Z.of_nat i))]
                            [("obj", elt); ("attr", AtomType)];
                       new_elt ← dict_lookup getitem_dict "output_0";
                       '(new_elt, elt_subcalls) ← destruct_at d new_elt elt;
                       mret (new_elt, item_call :: elt_subcalls))
                    (seq 0 (length l));
     mret (ListRef c h true per_elt.*1, concat per_elt.*2)).
Proof. done. Qed.

Lemma destruct_at_run r : ∀ h tp depth w,
  shaped_by tp r = true →
  (ref_depth r + 2 ≤ depth)%nat →
  never_called __get_item__ (storage w) →
  ∃ calls w',
    destruct_at depth (with_hid r h) tp w = (inr (with_item_hids r h, calls), w') ∧
    writes_nothing w w' ∧
    Forall (λ c, call_op c = __get_item__) calls ∧
    S (length calls) = length (nodes r).
Proof.
  induction r as [c h0 m o|c h0 m l IH] using Ref_ind'; intros h tp depth w Hshape Hdepth Hnever.
  - destruct depth as [|d]; [lia|]. exists [], w. by split_and!.
  - destruct tp as [|elt]; [done|]. cbn [shaped_by] in Hshape.
    cbn [ref_depth] in Hdepth. destruct depth as [|[|[|d]]]; [lia..|].
    cbn [with_hid]. rewrite destruct_at_list, bind_run.
    set (parent := ListRef c h m l).
    match goal with |- context [mapM ?g _ _] => set (G := g) end.
    assert (∀ l1 l2 w0, l = l1 ++ l2 → never_called __get_item__ (storage w0) →
              ∃ per w',
                mapM G (seq (length l1) (length l2)) w0 = (inr per, w') ∧
                writes_nothing w0 w' ∧
                per.*1 = imap (λ i item, item (item_hid parent (length l1 + i)))
                              (with_item_hids <$> l2) ∧
                Forall (λ c, call_op c = __get_item__) (concat per.*2) ∧
                length (concat per.*2) = sum_list ((λ e, length (nodes e)) <$> l2)) as Hloop.
    { intros l1 l2. revert l1. induction l2 as [|e l2 IH2]; intros l1 w0 Hl Hw0.
      { exists [], w0. by split_and!. }
      assert (l !! length l1 = Some e) as He.
      { rewrite Hl. by rewrite lookup_app_r, Nat.sub_diag by lia. }
      assert (e ∈ l) as Hin by (by eapply list_elem_of_lookup_2).
      destruct (get_item_run d elt c h m l (length l1) e w0 He Hw0)
        as (item_call & w1 & Hitem & Hop & Hw1).
      rewrite Forall_forall in IH.
      destruct (IH e Hin (item_hid parent (length l1)) elt (S (S d)) w1)
        as (sub & w2 & Hsub & Hw2 & Hsubops & Hsublen).
      { rewrite forallb_forall in Hshape. apply Hshape. by apply list_elem_of_In. }
      { pose proof (ref_depth_child c h0 m l e Hin) as Hlt. cbn [ref_depth] in Hlt. lia. }
      { eapply same_rows_never_called; [apply Hw1|done]. }
      destruct (IH2 (l1 ++ [e]) w2) as (per & w3 & Hper & Hw3 & Hfst & Hops & Hlen).
      { by rewrite <- app_assoc. }
      { eapply same_rows_never_called; [apply Hw2|].
        eapply same_rows_never_called; [apply Hw1|done]. }
      rewrite length_app in Hper, Hfst. cbn [length] in Hper, Hfst.
      rewrite Nat.add_1_r in Hper.
      assert (G (length l1) w0
              = (inr (with_item_hids e (item_hid parent (length l1)), item_call :: sub), w2))
        as Hstep.
      { subst G. cbn beta. rewrite bind_run. fold parent in Hitem. rewrite Hitem.
        rewrite bind_run. unfold dict_lookup.
        change (dict_get [("output_0", with_hid e (item_hid parent (length l1)))] "output_0")
          with (Some (with_hid e (item_hid parent (length l1)))).
        cbn [mret M_ret]. rewrite bind_run, Hsub. done. }
      exists ((with_item_hids e (item_hid parent (length l1)), item_call :: sub) :: per), w3.
      split_and!.
      - cbn [length seq]. by rewrite mapM_cons, bind_run, Hstep, bind_run, Hper.
      - etrans; [exact Hw1|]. by etrans.
      - rewrite !fmap_cons. cbn [fst imap]. rewrite Nat.add_0_r. f_equal.
        rewrite Hfst. apply imap_ext. intros i x _. simpl. do 2 f_equal. lia.
      - rewrite fmap_cons. cbn [snd concat]. apply Forall_app. split; [|done].
        by constructor.
      - rewrite !fmap_cons. cbn [snd concat sum_list]. rewrite length_app. cbn [length].
        rewrite Hlen. unfold id. lia. }
    destruct (Hloop [] l w eq_refl Hnever) as (per & w' & Hper & Hw' & Hfst & Hops & Hlen).
    cbn [length] in Hper. rewrite Hper. cbn [mret M_ret].
    exists (concat per.*2), w'. split_and!; [|done..|].
    + cbn [with_item_hids]. fold parent. by rewrite Hfst.
    + by rewrite length_nodes_list, Hlen.
Qed.

End Destruct.

(** ** Structures, atoms and types *)

Lemma with_hid_hid r : with_hid r (hid r) = r.
Proof. by destruct r. Qed.

Section Structs.
Context `{!Adapters}.

(** X13: [construct] and [unwrap], end to end.  A ref passes through
    [construct] as it is.  A raw value of its type, within the recursion
    limit and while no call of [__make_list__] is stored, is built into a
    ref that is in memory, whose content id is computed from the content
    alone, and that [unwrap] turns back into the value; the calls returned
    are calls of [__make_list__], and no row is written. *)
Theorem construct_then_unwrap (tp : Tp) (v : value) (w : World) :
  raw_of tp v = true →
  (2 * tp_depth tp < recursion_limit)%nat →
  never_called __make_list__ (storage w) →
  (∀ r0 tp0, construct tp0 (VRef r0) w = (inr (r0, []), w)) ∧
  ∃ r calls w',
    construct tp v w = (inr (r, calls), w') ∧
    cid r = raw_cid tp v ∧ in_memory r = true ∧
    unwrap r w' = (inr v, w') ∧
    Forall (λ c, call_op c = __make_list__) calls ∧
    same_rows (storage w) (storage w').
Proof.
  intros Hraw Hdepth Hnever. split.
  { intros r0 tp0. unfold construct. destruct recursion_limit; [lia|done]. }
  destruct (construct_at_raw tp v recursion_limit w Hraw Hdepth Hnever)
    as (r & calls & w' & Hrun & Hw' & _ & Hcid & Hmem & Hun & Hcalls).
  exists r, calls, w'. split_and!; try done. apply Hw'.
Qed.

(** X14: [destruct] gives a list ref the history ids of the calls of
    [__get_item__] that take it apart, at every level, and keeps its own
    history id and every content id; it returns one call of [__get_item__]
    for each ref inside, and writes no row.  This is for a ref whose lists
    are at list types, within the recursion limit, while no call of
    [__get_item__] is stored.  A list ref at an atom type is refused with
    an assertion error. *)
Theorem destruct_gives_item_hids (r : Ref) (tp : Tp) (w : World) :
  shaped_by tp r = true →
  (ref_depth r + 2 ≤ recursion_limit)%nat →
  never_called __get_item__ (storage w) →
  (∀ c h m l, destruct (ListRef c h m l) AtomType w = (inl AssertionError, w)) ∧
  ∃ calls w',
    destruct r tp w = (inr (with_item_hids r (hid r), calls), w') ∧
    Forall (λ c, call_op c = __get_item__) calls ∧
    S (length calls) = length (nodes r) ∧
    same_rows (storage w) (storage w').
Proof.
  intros Hshape Hdepth Hnever. split.
  { intros c h m l. unfold destruct. destruct recursion_limit; [lia|done]. }
  destruct (destruct_at_run r (hid r) tp recursion_limit w Hshape Hdepth Hnever)
    as (calls & w' & Hrun & Hw' & Hcalls & Hlen).
  rewrite with_hid_hid in Hrun. exists calls, w'. split_and!; try done. apply Hw'.
Qed.

(** X15: an input without a declared type: [call_internal] on inputs that
    are refs, one of which has no entry in [input_tps], raises [KeyError]
    with the name of such an input, before anything is looked up, run or
    written. *)
Theorem untyped_input_is_a_key_error (op : Op) (wrapped : list (string * Ref))
    (tps : list (string * Tp)) (w : World) (k : string) :
  (2 ≤ recursion_limit)%nat →
  k ∈ wrapped.*1 → dict_get tps k = None →
  ∃ k', call_internal op (as_values wrapped) tps w = (inl (KeyError k'), w) ∧
        k' ∈ wrapped.*1 ∧ dict_get tps k' = None.
Proof.
  intros Hlim Hk Hnone. unfold call_internal.
  destruct recursion_limit as [|[|d]]; [lia..|]. cbn [call_internal_at]. rewrite bind_run.
  match goal with |- context [mapM ?g _ _] => set (G := g) end.
  assert (∃ k', k' ∈ wrapped.*1 ∧ dict_get tps k' = None ∧
                mapM G (as_values wrapped) w = (inl (KeyError k'), w)) as (k' & Hk' & Hn & ->).
  { clear -Hk Hnone. induction wrapped as [|[k0 r0] wrapped IH].
    { by apply not_elem_of_nil in Hk. }
    assert (as_values ((k0, r0) :: wrapped) = (k0, VRef r0) :: as_values wrapped) as -> by done.
    destruct (dict_get tps k0) as [tp|] eqn:Htp.
    - assert (k ∈ wrapped.*1) as Hk1.
      { rewrite fmap_cons in Hk. apply elem_of_cons in Hk as [Hk|Hk]; [|done].
        simpl in Hk. congruence. }
      destruct (IH Hk1) as (k' & Hk' & Hn & Hrun). exists k'.
      split; [rewrite fmap_cons; by right|]. split; [done|].
      assert (G (k0, VRef r0) w = (inr (k0, r0, []), w)) as Hstep.
      { subst G. cbn beta. rewrite bind_run. unfold dict_lookup. cbn [fst snd]. by rewrite Htp. }
      by rewrite mapM_cons, bind_run, Hstep, bind_run, Hrun.
    - exists k0. split; [rewrite fmap_cons; left|]. split; [done|].
      assert (G (k0, VRef r0) w = (inl (KeyError k0), w)) as Hstep.
      { subst G. cbn beta. rewrite bind_run. unfold dict_lookup. cbn [fst snd]. by rewrite Htp. }
      by rewrite mapM_cons, bind_run, Hstep. }
  by exists k'.
Qed.

(** X16: [_attach_atom] against [_unwrap_atom].  An atom in memory is
    returned as it is by the first and gives its value to the second, with
    no read.  For a detached atom, [_attach_atom] reads the payload under
    the content id and needs no shape; [_unwrap_atom] goes through
    [load_ref] and raises [KeyError] with the history id when the shape is
    missing.  When the shape is stored the two agree: the value that
    [_unwrap_atom] returns is the one [_attach_atom] attaches, and they
    raise the same error. *)
Theorem attach_and_unwrap_atom (c h : string) (v : value) (w : World) :
  (0 < recursion_limit)%nat →
  (_attach_atom (AtomRef c h true v) w = (inr (AtomRef c h true v), w) ∧
   _unwrap_atom (AtomRef c h true v) w = (inr v, w)) ∧
  (_attach_atom (AtomRef c h false v) w).1
    = match Cached.view (atoms (storage w)) c with
      | Some b => inr (AtomRef c h true (deserialize b))
      | None => inl (KeyError c)
      end ∧
  (Cached.view (shapes (storage w)) h = None →
   _unwrap_atom (AtomRef c h false v) w = (inl (KeyError h), w)) ∧
  (∀ shp, Cached.view (shapes (storage w)) h = Some shp → is_atom shp = true → cid shp = c →
          (_unwrap_atom (AtomRef c h false v) w).1
          = match (_attach_atom (AtomRef c h false v) w).1 with
            | inr r => inr (obj r)
            | inl e => inl e
            end).
Proof.
  intros Hlim.
  assert ((_attach_atom (AtomRef c h false v) w).1
          = match Cached.view (atoms (storage w)) c with
            | Some b => inr (AtomRef c h true (deserialize b))
            | None => inl (KeyError c)
            end) as Hattach.
  { cbn [_attach_atom negb]. rewrite bind_run.
    pose proof (table_get_view atoms set_atoms c w) as Hv.
    destruct (table_get atoms set_atoms c w) as [[e|b] w1]; simpl in Hv |- *;
      destruct (Cached.view (atoms (storage w)) c); by simplify_eq. }
  split_and!; [done..|exact Hattach| |].
  - intros Hnone. cbn [_unwrap_atom negb]. rewrite bind_run. unfold load_ref.
    destruct recursion_limit as [|d]; [lia|]. by rewrite (load_unknown d h false w Hnone).
  - intros shp Hshp Hatom <-. rewrite Hattach. cbn [_unwrap_atom negb]. rewrite bind_run.
    unfold load_ref. destruct recursion_limit as [|d]; [lia|].
    pose proof (load_atom_result d h false w shp Hshp Hatom) as Hload.
    destruct (load_ref_at (S d) h false w) as [[e|r] w1]; simpl in Hload |- *;
      destruct (Cached.view (atoms (storage w)) (cid shp)); simplify_eq; [done|].
    by destruct shp.
Qed.

End Structs.

(** ** Elements of lists and provenance *)

Section Hazard.
Context `{!Adapters}.

(** A loop that meets an element on which the body raises, in whatever
    world the loop has reached, raises. *)
Lemma mapM_raises {A B} (R : relation World) `{!PreOrder R} (g : A → M B) l x w :
  (∀ y, preserves R (g y)) →
  x ∈ l →
  (∀ w0, R w w0 → returned (g x w0).1 = false) →
  returned (mapM g l w).1 = false.
Proof.
  intros Hpres Hx Hfail. revert w Hfail. induction l as [|y l IH]; intros w Hfail.
  { by apply not_elem_of_nil in Hx. }
  rewrite mapM_cons, bind_run. destruct (g y w) as [[e|b] w1] eqn:Hy; [done|].
  rewrite bind_run. apply elem_of_cons in Hx as [->|Hx].
  - specialize (Hfail w (reflexivity _)). by rewrite Hy in Hfail.
  - assert (R w w1) as Hw1 by (eapply (preserves_run R); [apply Hpres|exact Hy]).
    specialize (IH Hx w1). destruct (mapM g l w1) as [[e|bs] w2]; [done|].
    simpl in IH. apply IH. intros w0 Hw0. apply Hfail. by etrans.
Qed.

(** X17: [cleanup_refs] looks at the inputs and outputs of the durable calls
    only.  Outside a context, when a stored list is named by a durable call
    and one of its elements has a durable shape that no durable call names,
    the element is an orphan and the list is not; [cleanup_refs] drops the
    shape of the element and keeps the shape of the list, and afterwards
    [load_ref] on the list raises, lazily or not. *)
Theorem cleanup_refs_orphans_list_elements (h : string) (shp e : Ref) (lazy : bool)
    (w : World) :
  current_context w = None →
  (0 < recursion_limit)%nat →
  Cached.view (shapes (storage w)) h = Some shp →
  h ∈ hids_in_calls (call_storage (storage w)) →
  e ∈ children shp →
  hid e ∈ dom (persistent (shapes (storage w))) →
  hid e ∉ hids_in_calls (call_storage (storage w)) →
  ∃ orphans w',
    get_orphans w = (inr orphans, w) ∧ hid e ∈ orphans ∧ (h ∉ orphans) ∧
    cleanup_refs w = (inr (), w') ∧
    Cached.view (shapes (storage w')) h = Some shp ∧
    returned (load_ref h lazy w').1 = false.
Proof.
  intros Hctx Hlim Hshp Hh He Hdom Hnin.
  destruct (cleanup_refs_rows w Hctx) as (w' & Hrun & Hsp & Hsc & _).
  set (orphans := dom (persistent (shapes (storage w)))
                  ∖ hids_in_calls (call_storage (storage w))) in *.
  assert (hid e ∈ orphans) as Hor by (by apply elem_of_difference).
  assert (h ∉ orphans) as Hnor by (by intros [_ ?]%elem_of_difference).
  assert (Cached.view (shapes (storage w')) h = Some shp) as Hshp'.
  { rewrite <- Hshp. unfold Cached.view. rewrite Hsp, Hsc. by rewrite !decide_False by done. }
  assert (Cached.view (shapes (storage w')) (hid e) = None) as Hgone.
  { unfold Cached.view. rewrite Hsp, Hsc. by rewrite !decide_True by done. }
  exists orphans, w'. split_and!; [by apply get_orphans_run|done..|].
  unfold load_ref. destruct recursion_limit as [|d]; [lia|]. cbn [load_ref_at].
  rewrite bind_run.
  destruct (table_get_run shapes set_shapes h shp w' shapes_lens Hshp') as (w1 & Hget & Hw1).
  rewrite Hget. destruct shp as [|c0 h0 m0 l0]; [by apply not_elem_of_nil in He|].
  cbn [children] in He. rewrite bind_run.
  pose proof (mapM_raises reads_only (λ elt, load_ref_at d (hid elt) lazy) l0 e w1) as Hloop.
  match goal with |- context [mapM ?g l0 w1] => destruct (mapM g l0 w1) as [[exc|rs] w2] end;
    [done|].
  simpl in Hloop. apply Hloop; [|done|].
  - intros y. apply load_ref_at_reads.
  - intros w0 Hw0. destruct d as [|d]; [done|].
    rewrite load_unknown; [done|].
    rewrite (reads_only_shapes _ _ _ Hw0), (reads_only_shapes _ _ _ Hw1). exact Hgone.
Qed.

(** X18: the provenance queries read the durable call table.  Outside a
    context and with no durable call, [get_creators] and [get_consumers]
    return the empty list, and they still do after any call has been saved
    with [save_call]: a saved call is not seen before [commit]. *)
Theorem provenance_queries_read_durable_calls (ref_hids : list string) (w : World) :
  current_context w = None →
  call_storage (storage w) = ∅ →
  get_creators ref_hids w = (inr [], w) ∧
  get_consumers ref_hids w = (inr [], w) ∧
  (∀ c, get_creators ref_hids (save_call c w).2 = (inr [], (save_call c w).2) ∧
        get_consumers ref_hids (save_call c w).2 = (inr [], (save_call c w).2)).
Proof.
  assert (∀ w0, current_context w0 = None → call_storage (storage w0) = ∅ →
                get_creators ref_hids w0 = (inr [], w0) ∧
                get_consumers ref_hids w0 = (inr [], w0)) as Hq.
  { intros w0 Hctx Hcs. unfold get_creators, get_consumers.
    rewrite !bind_run, (in_context_closed w0 Hctx). cbn iota. rewrite !bind_run.
    cbn [get_storage]. unfold get_creator_hids, get_consumer_hids.
    rewrite Hcs, map_to_list_empty. done. }
  intros Hctx Hcs. destruct (Hq w Hctx Hcs) as [H1 H2]. split_and!; [done..|].
  intros c. pose proof (save_call_same_durable c w) as (Hcs' & _).
  apply Hq; [|by rewrite <- Hcs'].
  destruct (calls_exists (storage w) (call_hid c)) eqn:Hex.
  - by rewrite save_call_known.
  - destruct (save_call_miss c w Hex) as (wb & -> & _ & _ & _ & _ & Hctx' & _).
    simpl. congruence.
Qed.

End Hazard.

(** ** The user-facing call *)

#[global] Instance grows_preorder : PreOrder grows.
Proof.
  split.
  - intros w. by split_and!.
  - intros w1 w2 w3 (Hs & Ha & Ho & Hc & ? & ?) (Hs' & Ha' & Ho' & Hc' & ? & ?).
    split_and!; [| | | |congruence..].
    + intros k s Hk. by apply Hs', Hs.
    + intros k Hk. by apply Ha', Ha.
    + intros k Hk. by apply Ho', Ho.
    + intros h cd Hh. by apply Hc', Hc.
Qed.

Lemma extends_grows w w' : extends w w' → grows w w'.
Proof.
  intros (Hs & Ha & Hcc & _ & _ & Ho & Hctx & Hinv). split_and!; try done.
  - intros k. by rewrite Ho.
  - intros h cd. by rewrite Hcc.
Qed.

Lemma grows_settled w w' r : grows w w' → settled (storage w) r → settled (storage w') r.
Proof.
  intros (Hs & Ha & _) Hr n Hn. destruct (Hr n Hn) as [H1 H2]. split; [by apply Hs|].
  intros Hatom. by apply Ha, H2.
Qed.

Section CallFacts.
Context `{!Adapters}.

Lemma save_call_grows c : preserves grows (save_call c).
Proof.
  intros w. destruct (calls_exists (storage w) (call_hid c)) eqn:Hex.
  { rewrite save_call_known by done. reflexivity. }
  unfold save_call. rewrite bind_run. cbn [get_storage]. rewrite Hex, bind_run.
  change (table_exists ops (name (call_op c)) w)
    with (inr (Cached.exists_ (ops (storage w)) (name (call_op c))) : Exc + bool, w).
  cbn iota. rewrite bind_run.
  set (wa := if Cached.exists_ (ops (storage w)) (name (call_op c)) then w
             else (table_set ops set_ops (name (call_op c)) (detached_op (call_op c)) w).2).
  assert ((if Cached.exists_ (ops (storage w)) (name (call_op c)) then mret ()
           else table_set ops set_ops (name (call_op c)) (detached_op (call_op c))) w
          = (inr (), wa)) as ->.
  { subst wa. by destruct (Cached.exists_ _ _). }
  assert (grows w wa) as Hwa.
  { subst wa. destruct (Cached.exists_ _ _) eqn:Hk; [reflexivity|].
    apply exists_view_false in Hk. rewrite table_set_run. split_and!; simpl; try done.
    intros k. rewrite view_set. destruct (decide (name (call_op c) = k)); [by eexists|done]. }
  rewrite bind_run.
  destruct (save_all_new (λ kv : string * Ref, kv.2) (inputs c ++ outputs c)
              (λ x _, save_ref_new _) wa) as (r & wb & Hrun & Hext & _).
  rewrite Hrun. etrans; [exact Hwa|]. etrans; [by apply extends_grows|].
  assert (call_cache (storage wb) !! call_hid c = None) as Hnone.
  { destruct Hext as (_ & _ & <- & _). destruct Hwa as (_ & _ & _ & _ & _).
    unfold calls_exists in Hex. destruct (call_cache (storage w) !! call_hid c) eqn:Hc; [done|].
    subst wa. by destruct (Cached.exists_ _ _). }
  split_and!; simpl; try done. intros h cd Hh.
  destruct (decide (call_hid c = h)) as [<-|Hne]; [congruence|].
  by rewrite lookup_insert_ne.
Qed.

Lemma grows_calls_exists w w' h :
  grows w w' → is_Some (call_cache (storage w) !! h) → calls_exists (storage w') h = true.
Proof.
  intros (_ & _ & _ & Hc & _) [cd Hcd]. unfold calls_exists. by rewrite (Hc _ _ Hcd).
Qed.

Lemma get_call_row h lazy w c' w' cd :
  call_cache (storage w) !! h = Some cd →
  get_call h lazy w = (inr c', w') → call_hid c' = cd_hid cd.
Proof.
  intros Hrow. unfold get_call. rewrite bind_run.
  assert (get_data h w = (inr cd, w)) as ->.
  { unfold get_data. by rewrite bind_run; simpl; rewrite Hrow. }
  rewrite bind_run. destruct (table_get ops set_ops (cd_op_name cd) w) as [[e|op] w1]; [done|].
  rewrite bind_run.
  match goal with |- context [mapM ?g ?l w1] => destruct (mapM g l w1) as [[e|ins] w2] end;
    [done|].
  rewrite bind_run.
  match goal with |- context [mapM ?g ?l w2] => destruct (mapM g l w2) as [[e|outs] w3] end;
    [done|].
  by intros [= <- <-].
Qed.

(** Every call in the list has been saved. *)
Lemma save_calls_stores (cs : list Call) w :
  ∃ r w', mapM save_call cs w = (inr r, w') ∧ grows w w' ∧
          Forall (λ c, calls_exists (storage w') (call_hid c) = true) cs.
Proof.
  revert w. induction cs as [|c cs IH]; intros w.
  { exists [], w. by split_and!. }
  pose proof (save_call_returns c w) as Hc. pose proof (save_call_grows c w) as Hg.
  pose proof (save_call_stores c w) as Hs. set (w1 := (save_call c w).2) in *.
  destruct (IH w1) as (r & w2 & Hrun & Hg2 & Hall).
  exists (() :: r), w2. split_and!.
  - by rewrite mapM_cons, bind_run, Hc, bind_run, Hrun.
  - by etrans.
  - constructor; [|done]. unfold calls_exists in Hs |- *.
    destruct (call_cache (storage w1) !! call_hid c) as [cd|] eqn:Hcd.
    + destruct Hg2 as (_ & _ & _ & Hcc & _). by rewrite (Hcc _ _ Hcd).
    + destruct (call_cache (storage w2) !! call_hid c); [done|].
      assert (call_storage (storage w2) = call_storage (storage w1)) as ->; [|done].
      assert (preserves same_durable (mapM save_call cs)) as Hd.
      { apply preserves_mapM; [tc_solve|]. intros x _. apply save_call_same_durable. }
      specialize (Hd w1). rewrite Hrun in Hd. by destruct Hd as (-> & _).
Qed.

(** X19: [call] with [save_calls] memoizes.  When [call_internal] runs the
    function on inputs that are refs (no call stored for them, refs fit to
    be saved), [call] returns the ordered outputs (the single output, or the
    list of them), and saves the main call and every auxiliary call; calling
    again with the same inputs then returns outputs with the same history
    ids and content ids, and does not run the function.  Nothing is durable
    before [commit]. *)
Theorem call_saves_and_memoizes (get_ordered_outputs : list (string * Ref) → list Ref)
    (op : Op) (wrapped : list (string * Ref)) (tps : list (string * Tp))
    (w w1 : World) (outs1 : list (string * Ref)) (main1 : Call) (calls1 : list Call) :
  (2 ≤ recursion_limit)%nat →
  typed_by tps wrapped →
  calls_exists (storage w) (get_call_history_id op wrapped) = false →
  call_internal op (as_values wrapped) tps w = (inr (outs1, main1, calls1), w1) →
  known_settled (storage w) (inputs main1 ++ outputs main1).*2 →
  same_hid_same_shape (inputs main1 ++ outputs main1).*2 →
  (∀ kr, kr ∈ inputs main1 ++ outputs main1 → (ref_depth kr.2 < recursion_limit)%nat) →
  ∃ w2 outs2 w3,
    call get_ordered_outputs op (as_values wrapped) tps true w
      = (inr (match get_ordered_outputs outs1 with [r] => inl r | rs => inr rs end), w2) ∧
    invoked w2 = invoked w1 ∧
    Forall (λ c, calls_exists (storage w2) (call_hid c) = true) (main1 :: calls1) ∧
    same_durable w w2 ∧
    call get_ordered_outputs op (as_values wrapped) tps true w2
      = (inr (match get_ordered_outputs outs2 with [r] => inl r | rs => inr rs end), w3) ∧
    hids_of outs2 = hids_of outs1 ∧ cids_of outs2 = cids_of outs1 ∧
    invoked w3 = invoked w1.
Proof.
  intros Hlim Htps Hex Hcall Hknown Hsame Hdepth.
  pose proof (preserves_run writes_nothing _ _ _ _
                (call_internal_at_writes_nothing _ _ _ _) Hcall) as Hw1.
  assert (main1 = mkCall op (get_call_content_id op wrapped) (get_call_history_id op wrapped)
                         wrapped outs1) as Hmain.
  { unfold call_internal in Hcall. destruct recursion_limit as [|[|d]]; [lia..|].
    rewrite (call_internal_at_miss _ _ _ _ _ Htps Hex), bind_run in Hcall.
    destruct (execute _ _ _ _ w) as [[e|returns] wm]; [done|]. rewrite bind_run in Hcall.
    destruct (wrap_outputs _ _ _ wm) as [[e|wo] w0]; [done|].
    by injection Hcall as <- <- _ _. }
  destruct (save_call_new main1 w1) as (wa & Hsave & Hrow & Hop & Hsettled & Hinv).
  { rewrite Hmain. simpl. rewrite <- Hex. symmetry. apply same_rows_calls_exists, Hw1. }
  { eapply same_rows_known_settled; [apply Hw1|exact Hknown]. }
  { exact Hsame. }
  destruct (save_calls_stores calls1 wa) as (r & w2 & Hsaves & Hgrows & Hall).
  assert (call_cache (storage w2) !! call_hid main1 = Some (call_data main1)) as Hrow2.
  { destruct Hgrows as (_ & _ & _ & Hcc & _). by apply Hcc. }
  assert (calls_exists (storage w2) (call_hid main1) = true) as Hex2.
  { unfold calls_exists. by rewrite Hrow2. }
  destruct (get_call_settled main1 w2 Hrow2) as (c' & w3 & Hget & Hw3 & Hhids & Hcids).
  { destruct Hgrows as (_ & _ & Ho & _). by apply Ho. }
  { intros kr Hkr. split; [|by apply Hdepth]. eapply grows_settled; [exact Hgrows|].
    by apply Hsettled. }
  pose proof (get_call_row _ _ _ _ _ _ Hrow2 Hget) as Hhid'. simpl in Hhid'.
  assert (outputs main1 = outs1) as Houts by (by rewrite Hmain).
  assert (call_hid main1 = get_call_history_id op wrapped) as Hhid by (by rewrite Hmain).
  exists w2, (outputs c'), w3. split_and!.
  - unfold call. rewrite bind_run, Hcall. cbn iota. rewrite bind_run, bind_run, Hsave.
    rewrite bind_run, Hsaves. cbn [mret M_ret]. rewrite Houts.
    destruct (get_ordered_outputs outs1) as [|? [|]]; reflexivity.
  - destruct Hgrows as (_ & _ & _ & _ & _ & <-). exact Hinv.
  - by constructor.
  - etrans; [apply writes_nothing_same_durable, Hw1|].
    etrans; [|eapply (preserves_run same_durable (mapM save_call calls1));
               [|exact Hsaves]].
    + pose proof (save_call_same_durable main1 w1) as Hd. by rewrite Hsave in Hd.
    + apply preserves_mapM; [tc_solve|]. intros x _. apply save_call_same_durable.
  - unfold call. rewrite bind_run. unfold call_internal.
    destruct recursion_limit as [|[|d]] eqn:Hd; [lia..|].
    rewrite (call_internal_at_refs _ _ _ _ _ Htps), <- Hhid, Hex2.
    unfold call_internal, load_ref in Hget. rewrite bind_run, Hget.
    cbn [mret M_ret]. cbn iota. rewrite bind_run, bind_run.
    rewrite save_call_known.
    2:{ rewrite Hhid'. pose proof (preserves_run reads_only _ _ _ _ (get_call_reads _ _) Hget)
          as [Hrows _].
        rewrite <- (same_rows_calls_exists _ _ _ Hrows). exact Hex2. }
    cbn [mapM]. rewrite bind_run. cbn [mret M_ret].
    destruct (get_ordered_outputs (outputs c')) as [|? [|]]; reflexivity.
  - by rewrite Hhids, Houts.
  - by rewrite Hcids, Houts.
  - destruct Hw3 as (_ & _ & <-). destruct Hgrows as (_ & _ & _ & _ & _ & <-). exact Hinv.
Qed.

End CallFacts.

(** ** What a memoization hit returns: the stored call *)

Lemma shapes_held_child s c h m l e :
  shapes_held s (ListRef c h m l) → e ∈ l → shapes_held s e.
Proof. intros Hr He n Hn. apply Hr. by eapply elem_of_nodes_child. Qed.

Lemma shapes_held_reads_only w w' r :
  reads_only w w' → shapes_held (storage w) r → shapes_held (storage w') r.
Proof. intros Hw Hr n Hn. rewrite (reads_only_shapes _ _ _ Hw). by apply Hr. Qed.

Lemma calls_exists_view s h :
  calls_exists s h = bool_decide (is_Some (Cached.view (calls_table s) h)).
Proof.
  unfold calls_exists, Cached.view. simpl.
  destruct (call_cache s !! h); [by rewrite bool_decide_eq_true_2|].
  destruct (call_storage s !! h); [by rewrite bool_decide_eq_true_2|].
  rewrite bool_decide_eq_false_2; [done|]. by intros [? ?].
Qed.

Section StoredCall.
Context `{!Adapters}.

(** Loading lazily a history id whose shapes the storage holds: the shape
    itself for an atom, the shape attached to its own elements for a
    list. *)
Lemma load_lazy_held r : ∀ depth w,
  ref_depth r < depth →
  shapes_held (storage w) r →
  ∃ res w', load_ref_at depth (hid r) true w = (inr res, w') ∧ reads_only w w' ∧
            hid res = hid r ∧ shape res = shape r.
Proof.
  induction r as [c h m o|c h m l IH] using Ref_ind'; intros depth w Hd Hr;
    (destruct depth as [|depth]; [lia|]);
    pose proof (Hr _ (elem_of_nodes_self _)) as Hshape; cbn [hid shape] in *;
    destruct (table_get_run shapes set_shapes _ _ w shapes_lens Hshape) as (w1 & Hget & Hw1);
    cbn [load_ref_at]; rewrite bind_run, Hget.
  - exists (AtomRef c h false VNone), w1. by split_and!.
  - destruct (load_all depth true l w1) as (rs & w2 & Hrs & Hw2).
    { intros e w0 He Hw0. rewrite Forall_forall in IH.
      destruct (IH e He depth w0) as (res & w3 & Hres & Hw3 & _).
      - pose proof (ref_depth_child c h m l e He). lia.
      - apply (shapes_held_reads_only w w0); [by etrans|].
        exact (shapes_held_child _ _ _ _ _ _ Hr He).
      - by exists res, w3. }
    exists (ListRef c h attached_list_flag (shape <$> l)), w2. rewrite bind_run, Hrs.
    split_and!; [|by etrans|done|].
    + cbn [attached]. by rewrite refs_of_obj_list.
    + change (shape (ListRef c h attached_list_flag (shape <$> l)))
        with (shape (shape (ListRef c h m l))). apply shape_idemp.
Qed.

(** Loading, lazily, the refs that a row of the call table names, when the
    storage can read each of them. *)
Lemma load_row_readable (hs : list (string * string)) w :
  (∀ kh, kh ∈ hs → readable (storage w) recursion_limit kh.2) →
  ∃ res w',
    mapM (λ kv : string * string, r ← load_ref kv.2 true; mret (kv.1, r)) hs w
      = (inr res, w') ∧
    reads_only w w' ∧
    Forall2 (λ (kr : string * Ref) (kh : string * string),
               kr.1 = kh.1 ∧ hid kr.2 = kh.2 ∧
               Cached.view (shapes (storage w)) kh.2 = Some (shape kr.2)) res hs.
Proof.
  revert w. induction hs as [|[k h] hs IH]; intros w Hhs.
  { exists [], w. split_and!; [done..|constructor]. }
  destruct (Hhs (k, h)) as (r & Hhid & Hr & Hdepth); [left|]. simpl in Hhid. subst h.
  destruct (load_lazy_held r recursion_limit w Hdepth Hr) as (res & w1 & Hload & Hw1 & Hh & Hs).
  destruct (IH w1) as (ress & w2 & Hloads & Hw2 & Hall).
  { intros kh Hkh. destruct (Hhs kh) as (r' & ? & Hr' & ?); [by right|].
    exists r'. split_and!; [done| |done]. by eapply shapes_held_reads_only. }
  exists ((k, res) :: ress), w2. split_and!.
  - rewrite mapM_cons, bind_run, bind_run. cbn [fst snd]. unfold load_ref in *.
    rewrite Hload. cbn [mret M_ret]. by rewrite bind_run, Hloads.
  - by etrans.
  - constructor.
    + cbn [fst snd]. split_and!; [done..|]. rewrite Hs. apply Hr, elem_of_nodes_self.
    + eapply Forall2_impl; [exact Hall|]. intros kr kh (?&?&Hv). split_and!; [done..|].
      by rewrite <- (reads_only_shapes _ _ _ Hw1).
Qed.

(** C1, as the code has it: for every op and inputs that are refs, if the
    storage has a row for the history id computed from the op and the
    inputs (in the call cache or in the durable table), and it holds the op
    of the row and can read the history ids that the row records for the
    inputs and the outputs, then [call_internal] returns the outputs of
    that stored call: under each output name of the row, the ref with the
    history id that the row records, as the [shapes] table holds it; with
    them the call with the history id and content id of the row, and no
    structural call.  The function of the op is not run (the log of
    invocations is as before) and no row is written. *)
Theorem memo_hit_returns_stored (op : Op) (wrapped : list (string * Ref))
    (tps : list (string * Tp)) (w : World) (cd : CallData) :
  (2 ≤ recursion_limit)%nat →
  typed_by tps wrapped →
  Cached.view (calls_table (storage w)) (get_call_history_id op wrapped) = Some cd →
  is_Some (Cached.view (ops (storage w)) (cd_op_name cd)) →
  (∀ kh, kh ∈ input_hids cd ++ output_hids cd → readable (storage w) recursion_limit kh.2) →
  ∃ main_call w1,
    call_internal op (as_values wrapped) tps w = (inr (outputs main_call, main_call, []), w1) ∧
    call_hid main_call = cd_hid cd ∧ call_cid main_call = cd_cid cd ∧
    Forall2 (λ (kr : string * Ref) (kh : string * string),
               kr.1 = kh.1 ∧ hid kr.2 = kh.2 ∧
               Cached.view (shapes (storage w)) kh.2 = Some (shape kr.2))
            (outputs main_call) (output_hids cd) ∧
    invoked w1 = invoked w ∧ same_rows (storage w) (storage w1).
Proof.
  intros Hlim Htps Hrow [op' Hop] Hreadable.
  set (h := get_call_history_id op wrapped) in *.
  assert (calls_exists (storage w) h = true) as Hex.
  { rewrite calls_exists_view, Hrow. by apply bool_decide_eq_true_2. }
  destruct (call_internal_hit op wrapped tps w Hlim Htps Hex) as (Hrun & Hlog & Hrows).
  fold h in Hrun. rewrite Hrun in Hlog, Hrows. rewrite Hrun. clear Hrun.
  assert (get_data h w = (inr cd, w)) as Hdata.
  { unfold get_data. rewrite bind_run. cbn [get_storage]. unfold Cached.view in Hrow.
    simpl in Hrow. destruct (call_cache (storage w) !! h); [by injection Hrow as ->|].
    by rewrite Hrow. }
  unfold get_call in *. rewrite bind_run, Hdata in *.
  destruct (table_get_run ops set_ops _ _ w ops_lens Hop) as (wa & Hget & Hwa).
  rewrite bind_run, Hget in *.
  destruct (load_row_readable (input_hids cd) wa) as (ins & wb & Hins & Hwb & _).
  { intros kh Hkh. destruct (Hreadable kh) as (r & ? & Hr & ?); [apply elem_of_app; by left|].
    exists r. split_and!; [done| |done]. by eapply shapes_held_reads_only. }
  rewrite bind_run, Hins in *.
  destruct (load_row_readable (output_hids cd) wb) as (outs & wc & Houts & Hwc & Hall).
  { intros kh Hkh. destruct (Hreadable kh) as (r & ? & Hr & ?); [apply elem_of_app; by right|].
    exists r. split_and!; [done| |done]. eapply shapes_held_reads_only; [|exact Hr]. by etrans. }
  rewrite bind_run, Houts in *. cbn [mret M_ret] in *.
  eexists _, wc. split; [reflexivity|]. cbn [call_hid call_cid outputs]. split_and!; try done.
  eapply Forall2_impl; [exact Hall|]. intros kr kh (?&?&Hv). split_and!; [done..|].
  rewrite <- Hv. symmetry. apply reads_only_shapes. by etrans.
Qed.

End StoredCall.

Lemma memo_hit_returns_stored_witness :
  let w := Runs.pair_saved in
  ∃ main_call w1,
    @call_internal Demo.adapters Demo.pair_up (as_values [("a", Demo.one); ("b", Demo.two)])
      [("a", AtomType); ("b", AtomType)] w = (inr (outputs main_call, main_call, []), w1) ∧
    hids_of (outputs main_call) = [("output_0", "pair_up/0(a=h(1);b=h(2);).output_0")] ∧
    invoked w1 = invoked w.
Proof.
  intros w.
  set (cd := mkCallData "pair_up" "pair_up/0[a=c(1);b=c(2);]" "pair_up/0(a=h(1);b=h(2);)"
               [("a", ("h(1)", "c(1)")); ("b", ("h(2)", "c(2)"))]
               [("output_0", ("pair_up/0(a=h(1);b=h(2);).output_0", "l(c(1);c(2);)"))]).
  set (out := ListRef "l(c(1);c(2);)" "pair_up/0(a=h(1);b=h(2);).output_0" false
                [AtomRef "c(1)"
                   "__get_item__/0(obj=pair_up/0(a=h(1);b=h(2);).output_0;attr=h(0);).output_0"
                   false VNone;
                 AtomRef "c(2)"
                   "__get_item__/0(obj=pair_up/0(a=h(1);b=h(2);).output_0;attr=h(1);).output_0"
                   false VNone]).
  assert (Cached.view (calls_table (storage w))
            (@get_call_history_id Demo.adapters Demo.pair_up [("a", Demo.one); ("b", Demo.two)])
          = Some cd) as Hrow by (by vm_compute).
  assert (is_Some (Cached.view (ops (storage w)) (cd_op_name cd))) as Hop
    by (by vm_compute; eexists).
  set (e0 := AtomRef "c(1)"
               "__get_item__/0(obj=pair_up/0(a=h(1);b=h(2);).output_0;attr=h(0);).output_0"
               false VNone) in *.
  set (e1 := AtomRef "c(2)"
               "__get_item__/0(obj=pair_up/0(a=h(1);b=h(2);).output_0;attr=h(1);).output_0"
               false VNone) in *.
  assert (shapes_held (storage w) Demo.one) as Hone.
  { intros n Hn. change (nodes Demo.one) with [Demo.one] in Hn.
    apply list_elem_of_singleton in Hn as ->. by vm_compute. }
  assert (shapes_held (storage w) Demo.two) as Htwo.
  { intros n Hn. change (nodes Demo.two) with [Demo.two] in Hn.
    apply list_elem_of_singleton in Hn as ->. by vm_compute. }
  assert (shapes_held (storage w) out) as Hout.
  { intros n Hn. change (nodes out) with [out; e0; e1] in Hn.
    apply elem_of_cons in Hn as [->|Hn]; [by vm_compute|].
    apply elem_of_cons in Hn as [->|Hn]; [by vm_compute|].
    apply list_elem_of_singleton in Hn as ->. by vm_compute. }
  assert (∀ kh, kh ∈ input_hids cd ++ output_hids cd →
                readable (storage w) (@recursion_limit Demo.adapters) kh.2) as Hreadable.
  { intros kh Hkh.
    change (input_hids cd ++ output_hids cd)
      with [("a", "h(1)"); ("b", "h(2)"); ("output_0", "pair_up/0(a=h(1);b=h(2);).output_0")]
      in Hkh.
    apply elem_of_cons in Hkh as [->|Hkh].
    { exists Demo.one. split_and!; [done|done|simpl; lia]. }
    apply elem_of_cons in Hkh as [->|Hkh].
    { exists Demo.two. split_and!; [done|done|simpl; lia]. }
    apply list_elem_of_singleton in Hkh as ->.
    exists out. split_and!; [done|done|simpl; lia]. }
  clearbody w.
  destruct (@memo_hit_returns_stored Demo.adapters Demo.pair_up [("a", Demo.one); ("b", Demo.two)]
              [("a", AtomType); ("b", AtomType)] w cd)
    as (main_call & w1 & Hrun & _ & _ & Houts & Hlog & _); [simpl; lia| |done..|].
  { repeat constructor; by eexists. }
  exists main_call, w1. split_and!; [done| |done].
  cbn in Houts. inversion Houts as [|kr kh outs' hs (Hk & Hh & _) Hrest]; subst.
  inversion Hrest; subst. unfold hids_of. cbn. by rewrite Hk, Hh.
Defined.

(** The claim C1 fails: a call can exist in the storage while its outputs
    cannot be read.  After [call_internal] of [pair_up] on [1] and [2],
    [save_call] of the main call, [commit] and [cleanup_refs], the call
    exists, and [call_internal] on the same inputs raises [KeyError] on the
    history id of the first element of the output, whose shape
    [cleanup_refs] has dropped. *)
Lemma memo_hit_raises_after_cleanup :
  let w := (cleanup_refs Runs.pair_committed).2 in
  (cleanup_refs Runs.pair_committed).1 = inr () ∧
  calls_exists (storage w)
    (@get_call_history_id Demo.adapters Demo.pair_up [("a", Demo.one); ("b", Demo.two)]) = true ∧
  (@call_internal Demo.adapters Demo.pair_up (as_values [("a", Demo.one); ("b", Demo.two)])
     [("a", AtomType); ("b", AtomType)] w).1
  = inl (KeyError
           "__get_item__/0(obj=pair_up/0(a=h(1);b=h(2);).output_0;attr=h(0);).output_0").
Proof. intros w. split_and!; by vm_compute. Qed.

(** ** The context manager *)

Section WithBlock.
Context `{!Adapters}.

(** X20: a [with] block around [save_call], from a coherent storage that
    does not hold the call.  [__enter__] opens the context, in which
    [get_orphans] is refused; [save_call] inside the block writes nothing
    durable; [__exit__] closes the context and commits: the row of the call
    and the shapes of its inputs and outputs are durable, and [get_orphans]
    is supported again and names none of these refs.  [__exit__] closes the
    context in any state, so also the context of an enclosing block. *)
Theorem with_block_commits (c : Call) (w : World) :
  storage_coherent (storage w) →
  calls_exists (storage w) (call_hid c) = false →
  (∀ w0, current_context (__exit__ w0).2 = None) ∧
  ∃ w1 w2 w3 orphans,
    __enter__ w = (inr (), w1) ∧
    get_orphans w1 = (inl (NotImplementedError in_context_msg), w1) ∧
    save_call c w1 = (inr (), w2) ∧ same_durable w w2 ∧
    __exit__ w2 = (inr (), w3) ∧ current_context w3 = None ∧
    call_storage (storage w3) !! call_hid c = Some (call_data c) ∧
    get_orphans w3 = (inr orphans, w3) ∧
    ∀ kr, kr ∈ inputs c ++ outputs c →
          is_Some (persistent (shapes (storage w3)) !! hid kr.2) ∧ (hid kr.2 ∉ orphans).
Proof.
  intros Hcoh Hex. split; [done|].
  set (w1 := mkWorld (storage w) (Some ()) (invoked w)).
  destruct (save_call_miss c w1 Hex) as (wb & Hsave & Hdef & _ & _ & _ & _ & _).
  set (w2 := (calls_save c wb).2) in *.
  set (w3 := (commit (mkWorld (storage w2) None (invoked w2))).2).
  assert (storage_coherent (storage w2)) as Hcoh2.
  { pose proof (save_call_keeps_coherent c w1) as Hk. rewrite Hsave in Hk. by apply Hk. }
  assert (call_storage (storage w3) !! call_hid c = Some (call_data c)) as Hrow.
  { pose proof (commit_persistent (calls_table (storage w2)) (call_hid c)) as Hp.
    simpl in Hp. simpl. rewrite Hp, lookup_insert_eq.
    rewrite decide_True; [done|]. set_solver. }
  exists w1, w2, w3,
    (dom (persistent (shapes (storage w3))) ∖ hids_in_calls (call_storage (storage w3))).
  split_and!; try done.
  - pose proof (save_call_same_durable c w1) as Hd. by rewrite Hsave in Hd.
  - intros kr Hkr.
    assert (is_Some (persistent (shapes (storage w3)) !! hid kr.2)) as Hshape.
    { subst w3. simpl. destruct Hcoh2 as (_ & _ & Hs & _).
      rewrite (commit_durable _ _ Hs). by apply Hdef. }
    split; [exact Hshape|].
    intros [_ Hnin]%elem_of_difference. apply Hnin, elem_of_hids_in_calls.
    exists (call_hid c), (call_data c). split; [exact Hrow|].
    rewrite ref_hids_call_data. by apply list_elem_of_fmap_2, list_elem_of_fmap_2.
Qed.

End WithBlock.

(** ** Reading a saved call back *)

Section ReadBack.
Context `{!Adapters}.

(** [get_call] on a history id that has no row. *)
Lemma get_call_unknown h lazy w :
  calls_exists (storage w) h = false → get_call h lazy w = (inl (KeyError h), w).
Proof.
  intros Hex. unfold get_call, get_data. rewrite !bind_run. cbn [get_storage].
  unfold calls_exists in Hex.
  destruct (call_cache (storage w) !! h); [done|].
  by destruct (call_storage (storage w) !! h).
Qed.

(** Reading back, lazily, a call whose row is in the call cache, whose op
    is registered and whose refs the storage holds: every field. *)
Lemma get_call_stored (c : Call) w :
  call_cache (storage w) !! call_hid c = Some (call_data c) →
  is_Some (Cached.view (ops (storage w)) (name (call_op c))) →
  (∀ kr, kr ∈ inputs c ++ outputs c →
         settled (storage w) kr.2 ∧ ref_depth kr.2 < recursion_limit) →
  ∃ c' w',
    get_call (call_hid c) true w = (inr c', w') ∧ reads_only w w' ∧
    call_hid c' = call_hid c ∧ call_cid c' = call_cid c ∧
    Cached.view (ops (storage w)) (name (call_op c)) = Some (call_op c') ∧
    hids_of (inputs c') = hids_of (inputs c) ∧ cids_of (inputs c') = cids_of (inputs c) ∧
    hids_of (outputs c') = hids_of (outputs c) ∧ cids_of (outputs c') = cids_of (outputs c).
Proof.
  intros Hrow [op Hop] Hrefs. unfold get_call.
  assert (get_data (call_hid c) w = (inr (call_data c), w)) as Hdata.
  { unfold get_data. by rewrite bind_run; simpl; rewrite Hrow. }
  rewrite bind_run, Hdata.
  destruct (table_get_run ops set_ops _ _ w ops_lens Hop) as (w1 & Hget & Hw1).
  rewrite bind_run. simpl cd_op_name. rewrite Hget.
  rewrite input_hids_call_data, output_hids_call_data.
  destruct (load_dict_settled (inputs c) w1) as (ins & w2 & Hins & Hw2 & Hihids & Hicids).
  { intros kr Hkr. destruct (Hrefs kr) as [Hr Hd]; [apply elem_of_app; by left|].
    split; [|done]. by eapply settled_reads_only. }
  rewrite bind_run, Hins.
  destruct (load_dict_settled (outputs c) w2) as (outs & w3 & Houts & Hw3 & Hhids & Hcids).
  { intros kr Hkr. destruct (Hrefs kr) as [Hr Hd]; [apply elem_of_app; by right|].
    split; [|done]. eapply settled_reads_only; [|exact Hr]. by etrans. }
  rewrite bind_run, Houts.
  eexists _, w3. split; [reflexivity|]. split_and!; try done.
  etrans; [exact Hw1|]. by etrans.
Qed.

(** X21: [save_call] and [get_call], a round trip.  For a call that is not
    stored, [get_call] on its history id raises [KeyError] with the history
    id.  Once the call has been saved (its refs fit to be saved, nested
    less deep than the recursion limit), [get_call] with [lazy=True]
    returns a call with the same history id and content id, the op that the
    [ops] table holds under the name of the call's op, and inputs and
    outputs with the same names, history ids and content ids; reading
    writes nothing. *)
Theorem save_call_then_get_call (c : Call) (w : World) :
  calls_exists (storage w) (call_hid c) = false →
  known_settled (storage w) (inputs c ++ outputs c).*2 →
  same_hid_same_shape (inputs c ++ outputs c).*2 →
  (∀ kr, kr ∈ inputs c ++ outputs c → (ref_depth kr.2 < recursion_limit)%nat) →
  (∀ lazy, get_call (call_hid c) lazy w = (inl (KeyError (call_hid c)), w)) ∧
  ∃ w1 c' w2,
    save_call c w = (inr (), w1) ∧
    get_call (call_hid c) true w1 = (inr c', w2) ∧
    call_hid c' = call_hid c ∧ call_cid c' = call_cid c ∧
    Cached.view (ops (storage w1)) (name (call_op c)) = Some (call_op c') ∧
    hids_of (inputs c') = hids_of (inputs c) ∧ cids_of (inputs c') = cids_of (inputs c) ∧
    hids_of (outputs c') = hids_of (outputs c) ∧ cids_of (outputs c') = cids_of (outputs c) ∧
    writes_nothing w1 w2.
Proof.
  intros Hex Hknown Hsame Hdepth. split.
  { intros lazy. by apply get_call_unknown. }
  destruct (save_call_new c w Hex Hknown Hsame) as (w1 & Hsave & Hrow & Hop & Hsettled & _).
  destruct (get_call_stored c w1 Hrow Hop) as (c' & w2 & Hget & Hw2 & Hfields).
  { intros kr Hkr. split; [by apply Hsettled|by apply Hdepth]. }
  exists w1, c', w2. split; [done|]. split; [done|].
  destruct Hfields as (?&?&?&?&?&?&?). split_and!; try done.
  by apply reads_only_writes_nothing.
Qed.

End ReadBack.

(** ** The properties on the concrete engine *)

Lemma saved_call_refs_are_not_orphans_witness :
  ∃ w1 orphans,
    (@save_call Demo.adapters Runs.inc_call ≫= λ _, commit) empty_world = (inr (), w1) ∧
    call_storage (storage w1) !! call_hid Runs.inc_call = Some (call_data Runs.inc_call) ∧
    get_orphans w1 = (inr orphans, w1) ∧
    ("h(1)" ∉ orphans).
Proof.
  destruct (@saved_call_refs_are_not_orphans Demo.adapters Runs.inc_call empty_world)
    as (w1 & orphans & Hrun & Hrow & Horphans & Hrefs); [reflexivity..|].
  exists w1, orphans. split_and!; [done..|].
  apply (Hrefs ("x", Demo.one)). left.
Defined.

Lemma cleanup_refs_keeps_called_refs_witness :
  let w := Runs.committed Runs.inc_call in
  ∃ w',
    cleanup_refs w = (inr (), w') ∧
    Cached.view (shapes (storage w')) "h(1)" = Cached.view (shapes (storage w)) "h(1)" ∧
    Cached.view (atoms (storage w')) "c(1)" = Cached.view (atoms (storage w)) "c(1)".
Proof.
  intros w.
  assert (current_context w = None) as Hctx by reflexivity.
  assert (("h(1)", "c(1)") ∈ get_df (call_storage (storage w))) as Hdf.
  { assert (get_df (call_storage (storage w))
            = [("h(1)", "c(1)"); ("inc/0(x=h(1);).output_0", "c(2)")]) as -> by (by vm_compute).
    left. }
  clearbody w.
  pose proof (@cleanup_refs_keeps_called_refs Demo.adapters w "h(1)" "c(1)" Hctx Hdf) as Hthm.
  destruct Hthm as (w' & Hrun & Hs & Ha & _).
  exists w'. split; [exact Hrun|]. split; [exact Hs|exact Ha].
Defined.

Lemma load_ref_missing_rows_witness :
  (0 < @recursion_limit Demo.adapters)%nat ∧
  @load_ref Demo.adapters "h(1)" false empty_world = (inl (KeyError "h(1)"), empty_world).
Proof.
  assert (0 < @recursion_limit Demo.adapters)%nat as Hlim by (simpl; lia).
  split; [exact Hlim|].
  destruct (@load_ref_missing_rows Demo.adapters "h(1)" empty_world Hlim) as [Hunknown _].
  by apply Hunknown.
Defined.

Lemma dropping_a_shape_keeps_the_atoms_witness :
  let w := (@save_ref Demo.adapters Demo.one' (@save_ref Demo.adapters Demo.one empty_world).2).2 in
  ∃ w',
    @_drop_ref_hid "h(1)" false w = (inr (), w') ∧
    atoms (storage w') = atoms (storage w) ∧
    @load_ref Demo.adapters "h(1)" false w' = (inl (KeyError "h(1)"), w') ∧
    (@load_ref Demo.adapters "h'(1)" false w').1 = (@load_ref Demo.adapters "h'(1)" false w).1.
Proof.
  intros w.
  destruct (@dropping_a_shape_keeps_the_atoms Demo.adapters "h(1)" false w)
    as (w' & Hrun & Hatoms & Hgone & Hother).
  - simpl. lia.
  - by left.
  - exists w'. split_and!; [done..|].
    apply (Hother "h'(1)" (AtomRef "c(1)" "h'(1)" false VNone)); done.
Defined.

Lemma dropped_calls_orphan_their_refs_witness :
  let w := Runs.committed Runs.inc_call in
  ∃ w' orphans w'',
    @drop_calls (λ _ _ _, (∅, ∅)) {[call_hid Runs.inc_call]} false w = (inr (), w') ∧
    get_orphans w' = (inr orphans, w') ∧ "h(1)" ∈ orphans ∧
    cleanup_refs w' = (inr (), w'') ∧
    Cached.view (shapes (storage w'')) "h(1)" = None.
Proof.
  intros w.
  assert (current_context w = None) as Hctx by reflexivity.
  assert ("h(1)" ∈ dom (persistent (shapes (storage w)))) as Hdom.
  { refine (bool_decide_unpack _ _). by vm_compute. }
  assert (call_storage (storage w) = {[call_hid Runs.inc_call := call_data Runs.inc_call]})
    as Hcs by (by vm_compute).
  clearbody w.
  apply (dropped_calls_orphan_their_refs (λ _ _ _, (∅, ∅)) {[call_hid Runs.inc_call]} false w
           "h(1)" Hctx Hdom).
  intros k cd Hk _. rewrite Hcs in Hk. apply lookup_singleton_Some in Hk as [<- _].
  by apply elem_of_singleton.
Defined.

Lemma construct_then_unwrap_witness :
  ∃ r calls w',
    @construct Demo.adapters (ListType AtomType) (VList [VInt 1; VInt 2]) empty_world
      = (inr (r, calls), w') ∧
    cid r = "l(c(1);c(2);)" ∧
    @unwrap Demo.adapters r w' = (inr (VList [VInt 1; VInt 2]), w') ∧
    Forall (λ c, call_op c = @__make_list__ Demo.adapters) calls.
Proof.
  destruct (@construct_then_unwrap Demo.adapters (ListType AtomType) (VList [VInt 1; VInt 2])
              empty_world) as (_ & r & calls & w' & Hrun & Hcid & _ & Hun & Hcalls & _).
  - reflexivity.
  - simpl. lia.
  - intros ins. unfold calls_exists. simpl. by rewrite !lookup_empty.
  - exists r, calls, w'. split_and!; done.
Defined.

Lemma destruct_gives_item_hids_witness :
  ∃ calls w',
    @destruct Demo.adapters Demo.one_two (ListType AtomType) empty_world
      = (inr (ListRef "l(c(1);c(2);)" "h(1,2)" true
                [AtomRef "c(1)" "__get_item__/0(obj=h(1,2);attr=h(0);).output_0" true (VInt 1);
                 AtomRef "c(2)" "__get_item__/0(obj=h(1,2);attr=h(1);).output_0" true (VInt 2)],
              calls), w') ∧
    length calls = 2%nat.
Proof.
  destruct (@destruct_gives_item_hids Demo.adapters Demo.one_two (ListType AtomType) empty_world)
    as (_ & calls & w' & Hrun & _ & Hlen & _).
  - reflexivity.
  - simpl. lia.
  - intros ins. unfold calls_exists. simpl. by rewrite !lookup_empty.
  - exists calls, w'. split; [exact Hrun|]. simpl in Hlen. lia.
Defined.

Lemma untyped_input_is_a_key_error_witness :
  @call_internal Demo.adapters Demo.inc (as_values [("x", Demo.one)]) [] empty_world
  = (inl (KeyError "x"), empty_world).
Proof.
  destruct (@untyped_input_is_a_key_error Demo.adapters Demo.inc [("x", Demo.one)] []
              empty_world "x") as (k' & Hrun & Hk' & _).
  - simpl. lia.
  - left.
  - reflexivity.
  - apply list_elem_of_singleton in Hk'. by subst k'.
Defined.

Lemma attach_and_unwrap_atom_witness :
  let w := (@save_ref Demo.adapters Demo.one empty_world).2 in
  (@_unwrap_atom Demo.adapters (AtomRef "c(1)" "h(1)" false VNone) w).1 = inr (VInt 1) ∧
  (@_attach_atom Demo.adapters (AtomRef "c(1)" "h(1)" false VNone) w).1
  = inr (AtomRef "c(1)" "h(1)" true (VInt 1)).
Proof.
  intros w.
  destruct (@attach_and_unwrap_atom Demo.adapters "c(1)" "h(1)" VNone w)
    as (_ & Hattach & _ & Hagree).
  - simpl. lia.
  - specialize (Hagree (AtomRef "c(1)" "h(1)" false VNone) eq_refl eq_refl eq_refl).
    assert (Cached.view (atoms (storage w)) "c(1)" = Some (String "001"%char "")) as Hrow
      by (by vm_compute).
    rewrite Hrow in Hattach. split; [|exact Hattach]. by rewrite Hagree, Hattach.
Defined.

Lemma cleanup_refs_orphans_list_elements_witness :
  let w := Runs.pair_committed in
  let h := "pair_up/0(a=h(1);b=h(2);).output_0" in
  ∃ orphans w',
    get_orphans w = (inr orphans, w) ∧ (h ∉ orphans) ∧
    cleanup_refs w = (inr (), w') ∧
    is_Some (Cached.view (shapes (storage w')) h) ∧
    returned (@load_ref Demo.adapters h true w').1 = false.
Proof.
  intros w h.
  set (e := AtomRef "c(1)" "__get_item__/0(obj=pair_up/0(a=h(1);b=h(2);).output_0;attr=h(0);).output_0"
              false VNone).
  set (shp := ListRef "l(c(1);c(2);)" h false
                [e; AtomRef "c(2)"
                      "__get_item__/0(obj=pair_up/0(a=h(1);b=h(2);).output_0;attr=h(1);).output_0"
                      false VNone]).
  assert (current_context w = None) as Hctx by reflexivity.
  assert (0 < @recursion_limit Demo.adapters)%nat as Hlim by (simpl; lia).
  assert (Cached.view (shapes (storage w)) h = Some shp) as Hshp by (by vm_compute).
  assert (h ∈ hids_in_calls (call_storage (storage w))) as Hh.
  { refine (bool_decide_unpack _ _). by vm_compute. }
  assert (e ∈ children shp) as He by left.
  assert (hid e ∈ dom (persistent (shapes (storage w)))) as Hdom.
  { refine (bool_decide_unpack _ _). by vm_compute. }
  assert (hid e ∉ hids_in_calls (call_storage (storage w))) as Hnin.
  { refine (bool_decide_unpack _ _). by vm_compute. }
  clearbody w.
  destruct (@cleanup_refs_orphans_list_elements Demo.adapters h shp e true w
              Hctx Hlim Hshp Hh He Hdom Hnin)
    as (orphans & w' & Horphans & _ & Hnor & Hrun & Hkept & Hload).
  exists orphans, w'. split_and!; [done..| |done]. by rewrite Hkept.
Defined.

Lemma provenance_queries_read_durable_calls_witness :
  @get_creators Demo.adapters ["h(1)"] (@save_call Demo.adapters Runs.inc_call empty_world).2
  = (inr [], (@save_call Demo.adapters Runs.inc_call empty_world).2).
Proof.
  destruct (@provenance_queries_read_durable_calls Demo.adapters ["h(1)"] empty_world)
    as (_ & _ & Hsaved); [reflexivity..|].
  apply Hsaved.
Defined.

Lemma call_saves_and_memoizes_witness :
  let call := @call Demo.adapters (λ outs, outs.*2) Demo.inc (as_values [("x", Demo.one)])
                [("x", AtomType)] true in
  ∃ w2 w3,
    call empty_world = (inr (inl (AtomRef "c(2)" "inc/0(x=h(1);).output_0" true (VInt 2))), w2) ∧
    invoked w2 = [("inc", "inc/0(x=h(1);)")] ∧
    returned (call w2).1 = true ∧ (call w2).2 = w3 ∧
    invoked w3 = [("inc", "inc/0(x=h(1);)")].
Proof.
  intros call.
  set (outs1 := [("output_0", AtomRef "c(2)" "inc/0(x=h(1);).output_0" true (VInt 2))]).
  set (w1 := (@call_internal Demo.adapters Demo.inc (as_values [("x", Demo.one)])
                [("x", AtomType)] empty_world).2).
  assert (@call_internal Demo.adapters Demo.inc (as_values [("x", Demo.one)])
            [("x", AtomType)] empty_world = (inr (outs1, Runs.inc_call, []), w1)) as Hcall
    by (by vm_compute).
  assert (invoked w1 = [("inc", "inc/0(x=h(1);)")]) as Hinv by (by vm_compute).
  clearbody w1.
  destruct (@call_saves_and_memoizes Demo.adapters (λ outs, outs.*2) Demo.inc
              [("x", Demo.one)] [("x", AtomType)] empty_world w1 outs1 Runs.inc_call [])
    as (w2 & outs2 & w3 & Hrun & Hinv2 & _ & _ & Hrun2 & _ & _ & Hinv3).
  - simpl. lia.
  - repeat constructor; by eexists.
  - reflexivity.
  - exact Hcall.
  - by apply fresh_known_settled.
  - apply NoDup_same_hid_same_shape. refine (bool_decide_unpack _ _). by vm_compute.
  - intros kr Hkr. simpl in Hkr.
    apply elem_of_cons in Hkr as [->|Hkr]; [simpl; lia|].
    apply elem_of_cons in Hkr as [->|Hkr]; [simpl; lia|]. by apply not_elem_of_nil in Hkr.
  - exists w2, w3. subst call. cbv beta. rewrite Hrun2. split_and!; [exact Hrun| |done..|].
    + by rewrite Hinv2.
    + by rewrite Hinv3.
Defined.

Lemma with_block_commits_witness :
  ∃ w1 w2 w3,
    __enter__ empty_world = (inr (), w1) ∧
    @save_call Demo.adapters Runs.inc_call w1 = (inr (), w2) ∧
    __exit__ w2 = (inr (), w3) ∧
    current_context w3 = None ∧
    call_storage (storage w3) !! call_hid Runs.inc_call = Some (call_data Runs.inc_call).
Proof.
  destruct (@with_block_commits Demo.adapters Runs.inc_call empty_world)
    as (_ & w1 & w2 & w3 & orphans & Henter & _ & Hsave & _ & Hexit & Hctx & Hrow & _).
  - exact empty_storage_coherent.
  - reflexivity.
  - by exists w1, w2, w3.
Defined.

Lemma save_call_then_get_call_witness :
  ∃ w1 c' w2,
    @save_call Demo.adapters Runs.inc_call empty_world = (inr (), w1) ∧
    @get_call Demo.adapters (call_hid Runs.inc_call) true w1 = (inr c', w2) ∧
    call_op c' = detached_op Demo.inc ∧
    hids_of (outputs c') = [("output_0", "inc/0(x=h(1);).output_0")].
Proof.
  destruct (@save_call_then_get_call Demo.adapters Runs.inc_call empty_world)
    as (_ & w1 & c' & w2 & Hsave & Hget & _ & _ & Hop & _ & _ & Hhids & _).
  - reflexivity.
  - by apply fresh_known_settled.
  - apply NoDup_same_hid_same_shape. refine (bool_decide_unpack _ _). by vm_compute.
  - intros kr Hkr. simpl in Hkr.
    apply elem_of_cons in Hkr as [->|Hkr]; [simpl; lia|].
    apply elem_of_cons in Hkr as [->|Hkr]; [simpl; lia|]. by apply not_elem_of_nil in Hkr.
  - exists w1, c', w2. split_and!; [done..| |done].
    assert (Cached.view (ops (storage (@save_call Demo.adapters Runs.inc_call empty_world).2))
              (name (call_op Runs.inc_call)) = Some (detached_op Demo.inc)) as Hview
      by (by vm_compute).
    rewrite Hsave in Hview. cbn [snd] in Hview. rewrite Hop in Hview. by injection Hview.
Defined.
